(** * Hydration-free-energy notebooks: alchemical force construction,
      reduced-potential bookkeeping and decorrelation.

    The development embeds the Python cells of the notebooks
    [02-decouple-LJ-bulk], [03-annihilate-Elec-bulk] (and its vacuum
    sibling) and [example-ray/01-create_openmm_system].

    - The functions of the notebooks ([add_LJ_scaling],
      [turn_off_nonbonded], [add_lambda_elec], [create_custom_LJ]) are
      state transformers over an explicit [System]; a Python exception
      is a [Raise] result.
    - The objects of the simulation engine are records holding what the
      engine's getters return.  Physical quantities are real numbers:
      the engine computes in floating point, the model in exact
      arithmetic, and an operation that has no real value (division by
      zero, root of a negative number) yields [None].
    - The time-series utility works on exact rationals.  *)

From Stdlib Require Import Reals Lra Lia ZArith QArith Qround.
From Stdlib Require Lqa.
From stdpp Require Import base option list strings gmap.

(** ** Python results *)

Module Py.

Inductive exn :=
| IndexError                      (* list index out of range *)
| NameError (name : string)       (* name '...' is not defined *)
| OpenMMException (msg : string)  (* raised by the engine's wrappers *)
| ValueError                      (* shapes that cannot be broadcast *)
| LibraryError (what : string)    (* any exception of an imported library *)
| AssertionError.

Inductive result (A : Type) :=
| Ok (a : A)
| Raise (e : exn).
#[global] Arguments Ok {A} a.
#[global] Arguments Raise {A} e.

#[global] Instance result_ret : MRet result := fun A a => Ok a.
#[global] Instance result_bind : MBind result := fun A B f m =>
  match m with Ok a => f a | Raise e => Raise e end.

(** [for x in xs: body], the loop body threading the mutated object. *)
Fixpoint for_ {A S : Type} (xs : list A) (body : A -> S -> result S) (s : S)
  : result S :=
  match xs with
  | [] => Ok s
  | x :: xs' => s' ← body x s; for_ xs' body s'
  end.

(** [range(n)] *)
Definition range (n : nat) : list nat := seq 0 n.

(** [l[0]] *)
Definition subscript0 {A : Type} (l : list A) : result A :=
  match l with
  | [] => Raise IndexError
  | x :: _ => Ok x
  end.

(** [x in l] for a list of atom indices *)
Definition contains (l : list nat) (x : nat) : bool := bool_decide (x ∈ l).

End Py.
Export Py.

(** ** Energy expressions of the custom forces

    A custom force is created from a string such as
    ["4*epsilon*((sigma/r)^12 - (sigma/r)^6);"]: a main expression
    followed by [name=expression] definitions.  [expr] is the syntax
    tree of such a string. *)

Module Lepton.

Inductive expr :=
| Num (c : R)
| Var (x : string)
| Add (a b : expr)
| Sub (a b : expr)
| Mul (a b : expr)
| Div (a b : expr)
| Pow (a b : expr)
| Sqrt (a : expr).

Record energy_function := EnergyFunction {
  ef_value : expr;
  ef_defs : list (string * expr)
}.

End Lepton.
Export Lepton.

(** ** The engine's objects *)

Module OpenMM.

Inductive NonbondedMethod :=
| NoCutoff | CutoffNonPeriodic | CutoffPeriodic | Ewald | PME.

Record Particle := mkParticle {
  p_charge : R; p_sigma : R; p_epsilon : R
}.

Record Exception := mkException {
  e_atom_i : nat; e_atom_j : nat;
  e_chargeprod : R; e_sigma : R; e_epsilon : R
}.

(** An offset adds [value(parameter) * scale] to each of the three
    parameters of the particle (or exception) [o_index]. *)
Record Offset := mkOffset {
  o_parameter : string; o_index : nat;
  o_chargeScale : R; o_sigmaScale : R; o_epsilonScale : R
}.

Record NonbondedForce := mkNonbondedForce {
  nb_particles : list Particle;
  nb_exceptions : list Exception;
  nb_globalParameters : list (string * R);
  nb_particleOffsets : list Offset;
  nb_exceptionOffsets : list Offset;
  nb_cutoffDistance : R;
  nb_nonbondedMethod : NonbondedMethod;
  nb_useDispersionCorrection : bool
}.

Record CustomNonbondedForce := mkCustomNonbondedForce {
  cnb_energy : energy_function;
  cnb_globalParameters : list (string * R);
  cnb_perParticleParameters : list string;
  cnb_particles : list (list R);
  cnb_exclusions : list (nat * nat);
  cnb_interactionGroups : list (list nat * list nat);
  cnb_cutoffDistance : R;
  cnb_nonbondedMethod : NonbondedMethod;
  cnb_useLongRangeCorrection : bool;
  cnb_forceGroup : nat
}.

Record CustomBondForce := mkCustomBondForce {
  cb_energy : energy_function;
  cb_perBondParameters : list string;
  cb_bonds : list (nat * nat * list R);
  cb_forceGroup : nat
}.

(** The forces of a system; [OtherForce] stands for the bonded terms and
    the barostat, which the notebooks' functions skip. *)
Inductive Force :=
| FNonbonded (f : NonbondedForce)
| FCustomNonbonded (f : CustomNonbondedForce)
| FCustomBond (f : CustomBondForce)
| OtherForce (name : string).

(** [system.getForces()] *)
Definition System := list Force.

Definition index_out_of_range : exn := OpenMMException "Index out of range".

(** *** NonbondedForce *)

Definition getNumParticles (f : NonbondedForce) : nat := length (nb_particles f).
Definition getNumExceptions (f : NonbondedForce) : nat := length (nb_exceptions f).
Definition getCutoffDistance (f : NonbondedForce) : R := nb_cutoffDistance f.
Definition getUseDispersionCorrection (f : NonbondedForce) : bool :=
  nb_useDispersionCorrection f.

Definition getParticleParameters (f : NonbondedForce) (index : nat)
  : result Particle :=
  match nb_particles f !! index with
  | Some p => Ok p
  | None => Raise index_out_of_range
  end.

Definition setParticleParameters (f : NonbondedForce) (index : nat)
    (charge sigma epsilon : R) : result NonbondedForce :=
  if decide (index < length (nb_particles f)) then
    Ok (mkNonbondedForce
          (<[index := mkParticle charge sigma epsilon]> (nb_particles f))
          (nb_exceptions f) (nb_globalParameters f) (nb_particleOffsets f)
          (nb_exceptionOffsets f) (nb_cutoffDistance f) (nb_nonbondedMethod f)
          (nb_useDispersionCorrection f))
  else Raise index_out_of_range.

Definition getExceptionParameters (f : NonbondedForce) (index : nat)
  : result Exception :=
  match nb_exceptions f !! index with
  | Some e => Ok e
  | None => Raise index_out_of_range
  end.

Definition setExceptionParameters (f : NonbondedForce) (index : nat)
    (particle1 particle2 : nat) (chargeProd sigma epsilon : R)
  : result NonbondedForce :=
  if decide (index < length (nb_exceptions f)) then
    Ok (mkNonbondedForce (nb_particles f)
          (<[index := mkException particle1 particle2 chargeProd sigma epsilon]>
             (nb_exceptions f))
          (nb_globalParameters f) (nb_particleOffsets f)
          (nb_exceptionOffsets f) (nb_cutoffDistance f) (nb_nonbondedMethod f)
          (nb_useDispersionCorrection f))
  else Raise index_out_of_range.

Definition addGlobalParameter (f : NonbondedForce) (name : string)
    (defaultValue : R) : NonbondedForce :=
  mkNonbondedForce (nb_particles f) (nb_exceptions f)
    (nb_globalParameters f ++ [(name, defaultValue)])
    (nb_particleOffsets f) (nb_exceptionOffsets f) (nb_cutoffDistance f)
    (nb_nonbondedMethod f) (nb_useDispersionCorrection f).

Definition has_global (f : NonbondedForce) (name : string) : bool :=
  bool_decide (name ∈ (nb_globalParameters f).*1).

(** The offset is appended; only the parameter name is looked up. *)
Definition addParticleParameterOffset (f : NonbondedForce) (parameter : string)
    (particleIndex : nat) (chargeScale sigmaScale epsilonScale : R)
  : result NonbondedForce :=
  if has_global f parameter then
    Ok (mkNonbondedForce (nb_particles f) (nb_exceptions f)
          (nb_globalParameters f)
          (nb_particleOffsets f ++
             [mkOffset parameter particleIndex chargeScale sigmaScale epsilonScale])
          (nb_exceptionOffsets f) (nb_cutoffDistance f) (nb_nonbondedMethod f)
          (nb_useDispersionCorrection f))
  else Raise (OpenMMException "There is no global parameter with that name").

Definition addExceptionParameterOffset (f : NonbondedForce) (parameter : string)
    (exceptionIndex : nat) (chargeProdScale sigmaScale epsilonScale : R)
  : result NonbondedForce :=
  if has_global f parameter then
    Ok (mkNonbondedForce (nb_particles f) (nb_exceptions f)
          (nb_globalParameters f) (nb_particleOffsets f)
          (nb_exceptionOffsets f ++
             [mkOffset parameter exceptionIndex chargeProdScale sigmaScale
                epsilonScale])
          (nb_cutoffDistance f) (nb_nonbondedMethod f)
          (nb_useDispersionCorrection f))
  else Raise (OpenMMException "There is no global parameter with that name").

(** *** CustomNonbondedForce: a fresh force and its setters *)

Definition newCustomNonbondedForce (energy : energy_function)
  : CustomNonbondedForce :=
  mkCustomNonbondedForce energy [] [] [] [] [] 1%R NoCutoff false 0.

Definition cnb_addGlobalParameter (f : CustomNonbondedForce) (name : string)
    (defaultValue : R) : CustomNonbondedForce :=
  mkCustomNonbondedForce (cnb_energy f)
    (cnb_globalParameters f ++ [(name, defaultValue)])
    (cnb_perParticleParameters f) (cnb_particles f) (cnb_exclusions f)
    (cnb_interactionGroups f) (cnb_cutoffDistance f) (cnb_nonbondedMethod f)
    (cnb_useLongRangeCorrection f) (cnb_forceGroup f).

Definition cnb_addPerParticleParameter (f : CustomNonbondedForce)
    (name : string) : CustomNonbondedForce :=
  mkCustomNonbondedForce (cnb_energy f) (cnb_globalParameters f)
    (cnb_perParticleParameters f ++ [name]) (cnb_particles f)
    (cnb_exclusions f) (cnb_interactionGroups f) (cnb_cutoffDistance f)
    (cnb_nonbondedMethod f) (cnb_useLongRangeCorrection f) (cnb_forceGroup f).

Definition cnb_setCutoffDistance (f : CustomNonbondedForce) (distance : R)
  : CustomNonbondedForce :=
  mkCustomNonbondedForce (cnb_energy f) (cnb_globalParameters f)
    (cnb_perParticleParameters f) (cnb_particles f) (cnb_exclusions f)
    (cnb_interactionGroups f) distance (cnb_nonbondedMethod f)
    (cnb_useLongRangeCorrection f) (cnb_forceGroup f).

Definition cnb_setNonbondedMethod (f : CustomNonbondedForce)
    (method : NonbondedMethod) : CustomNonbondedForce :=
  mkCustomNonbondedForce (cnb_energy f) (cnb_globalParameters f)
    (cnb_perParticleParameters f) (cnb_particles f) (cnb_exclusions f)
    (cnb_interactionGroups f) (cnb_cutoffDistance f) method
    (cnb_useLongRangeCorrection f) (cnb_forceGroup f).

Definition cnb_setUseLongRangeCorrection (f : CustomNonbondedForce)
    (use : bool) : CustomNonbondedForce :=
  mkCustomNonbondedForce (cnb_energy f) (cnb_globalParameters f)
    (cnb_perParticleParameters f) (cnb_particles f) (cnb_exclusions f)
    (cnb_interactionGroups f) (cnb_cutoffDistance f) (cnb_nonbondedMethod f)
    use (cnb_forceGroup f).

Definition cnb_addInteractionGroup (f : CustomNonbondedForce)
    (set1 set2 : list nat) : CustomNonbondedForce :=
  mkCustomNonbondedForce (cnb_energy f) (cnb_globalParameters f)
    (cnb_perParticleParameters f) (cnb_particles f) (cnb_exclusions f)
    (cnb_interactionGroups f ++ [(set1, set2)]) (cnb_cutoffDistance f)
    (cnb_nonbondedMethod f) (cnb_useLongRangeCorrection f) (cnb_forceGroup f).

Definition cnb_setForceGroup (f : CustomNonbondedForce) (group : nat)
  : CustomNonbondedForce :=
  mkCustomNonbondedForce (cnb_energy f) (cnb_globalParameters f)
    (cnb_perParticleParameters f) (cnb_particles f) (cnb_exclusions f)
    (cnb_interactionGroups f) (cnb_cutoffDistance f) (cnb_nonbondedMethod f)
    (cnb_useLongRangeCorrection f) group.

Definition cnb_addParticle (f : CustomNonbondedForce) (parameters : list R)
  : CustomNonbondedForce :=
  mkCustomNonbondedForce (cnb_energy f) (cnb_globalParameters f)
    (cnb_perParticleParameters f) (cnb_particles f ++ [parameters])
    (cnb_exclusions f) (cnb_interactionGroups f) (cnb_cutoffDistance f)
    (cnb_nonbondedMethod f) (cnb_useLongRangeCorrection f) (cnb_forceGroup f).

Definition cnb_addExclusion (f : CustomNonbondedForce)
    (particle1 particle2 : nat) : CustomNonbondedForce :=
  mkCustomNonbondedForce (cnb_energy f) (cnb_globalParameters f)
    (cnb_perParticleParameters f) (cnb_particles f)
    (cnb_exclusions f ++ [(particle1, particle2)]) (cnb_interactionGroups f)
    (cnb_cutoffDistance f) (cnb_nonbondedMethod f)
    (cnb_useLongRangeCorrection f) (cnb_forceGroup f).

(** *** CustomBondForce *)

Definition newCustomBondForce (energy : energy_function) : CustomBondForce :=
  mkCustomBondForce energy [] [] 0.

Definition cb_addPerBondParameter (f : CustomBondForce) (name : string)
  : CustomBondForce :=
  mkCustomBondForce (cb_energy f) (cb_perBondParameters f ++ [name])
    (cb_bonds f) (cb_forceGroup f).

Definition cb_setForceGroup (f : CustomBondForce) (group : nat)
  : CustomBondForce :=
  mkCustomBondForce (cb_energy f) (cb_perBondParameters f) (cb_bonds f) group.

Definition cb_addBond (f : CustomBondForce) (particle1 particle2 : nat)
    (parameters : list R) : CustomBondForce :=
  mkCustomBondForce (cb_energy f) (cb_perBondParameters f)
    (cb_bonds f ++ [(particle1, particle2, parameters)]) (cb_forceGroup f).

(** The parameter values stored in a context by
    [context.setParameter(name, value)]; a parameter that was never set
    has the default registered with its force. *)
Definition setParameter (parameters : gmap string R) (name : string) (value : R)
  : gmap string R :=
  <[name := value]> parameters.

Definition stored (parameters : gmap string R) : string -> option R :=
  fun name => parameters !! name.

(** [system.addForce(force)] *)
Definition addForce (system : System) (force : Force) : System :=
  system ++ [force].

End OpenMM.
Export OpenMM.

(** ** The notebooks' force-construction functions *)

Module Notebook.

(** [[force for force in system.getForces() if isinstance(force, NonbondedForce)]]:
    the selected objects, each with its position in the system, through
    which the mutations of the object are seen by the system. *)
Fixpoint nonbonded_from (k : nat) (forces : list Force)
  : list (nat * NonbondedForce) :=
  match forces with
  | [] => []
  | FNonbonded f :: rest => (k, f) :: nonbonded_from (S k) rest
  | _ :: rest => nonbonded_from (S k) rest
  end.

Definition nonbonded_forces (system : System) : list (nat * NonbondedForce) :=
  nonbonded_from 0 system.

(** ["4*epsilon*((sigma/r)^12 - (sigma/r)^6);"] *)
Definition lennard_jones_expression : expr :=
  Mul (Mul (Num 4) (Var "epsilon"))
      (Sub (Pow (Div (Var "sigma") (Var "r")) (Num 12))
           (Pow (Div (Var "sigma") (Var "r")) (Num 6))).

(** The soft-core expression of [add_LJ_scaling]:
    ["(lambda_sterics^softcore_a)*4*epsilon*x*(x-1.0);"
     "x=(sigma/reff_sterics)^6;"
     "reff_sterics=sigma*((softcore_alpha*(1.0-lambda_sterics)^softcore_b+(r/sigma)^softcore_c))^(1/softcore_c);"
     "sigma=0.5*(sigma1+sigma2);"
     "epsilon=sqrt(epsilon1*epsilon2);"] *)
Definition softcore_energy : energy_function :=
  EnergyFunction
    (Mul (Mul (Mul (Mul (Pow (Var "lambda_sterics") (Var "softcore_a")) (Num 4))
                   (Var "epsilon"))
              (Var "x"))
         (Sub (Var "x") (Num 1)))
    [ ("x", Pow (Div (Var "sigma") (Var "reff_sterics")) (Num 6));
      ("reff_sterics",
        Mul (Var "sigma")
            (Pow (Add (Mul (Var "softcore_alpha")
                           (Pow (Sub (Num 1) (Var "lambda_sterics"))
                                (Var "softcore_b")))
                      (Pow (Div (Var "r") (Var "sigma")) (Var "softcore_c")))
                 (Div (Num 1) (Var "softcore_c"))));
      ("sigma", Mul (Num (1/2)) (Add (Var "sigma1") (Var "sigma2")));
      ("epsilon", Sqrt (Mul (Var "epsilon1") (Var "epsilon2"))) ].

(** The plain intermolecular expression of [create_custom_LJ]:
    ["4*epsilon*((sigma/r)^12 - (sigma/r)^6);"
     "sigma=0.5*(sigma1+sigma2);"
     "epsilon=sqrt(epsilon1*epsilon2);"] *)
Definition intermolecular_energy : energy_function :=
  EnergyFunction lennard_jones_expression
    [ ("sigma", Mul (Num (1/2)) (Add (Var "sigma1") (Var "sigma2")));
      ("epsilon", Sqrt (Mul (Var "epsilon1") (Var "epsilon2"))) ].

(** [CustomBondForce("4*epsilon*((sigma/r)^12 - (sigma/r)^6);")] *)
Definition intramolecular_energy : energy_function :=
  EnergyFunction lennard_jones_expression [].

(** The loop "Add Particles to the `intermol_LJ`". *)
Definition add_particles (nonbonded : NonbondedForce)
    (intermol_LJ : CustomNonbondedForce) : result CustomNonbondedForce :=
  for_ (range (getNumParticles nonbonded))
       (fun atom_i intermol_LJ =>
          p ← getParticleParameters nonbonded atom_i;
          Ok (cnb_addParticle intermol_LJ [p_sigma p; p_epsilon p]))
       intermol_LJ.

(** The loop "Copy Exceptions to `intermol_LJ`". *)
Definition copy_exceptions (nonbonded : NonbondedForce)
    (intermol_LJ : CustomNonbondedForce) : result CustomNonbondedForce :=
  for_ (range (getNumExceptions nonbonded))
       (fun exception_i intermol_LJ =>
          e ← getExceptionParameters nonbonded exception_i;
          Ok (cnb_addExclusion intermol_LJ (e_atom_i e) (e_atom_j e)))
       intermol_LJ.

(** The loop filling [intramol_LJ] with the solute-solute exceptions. *)
Definition add_bonds (nonbonded : NonbondedForce) (molecule : list nat)
    (intramol_LJ : CustomBondForce) : result CustomBondForce :=
  for_ (range (getNumExceptions nonbonded))
       (fun exception_i intramol_LJ =>
          e ← getExceptionParameters nonbonded exception_i;
          if contains molecule (e_atom_i e) && contains molecule (e_atom_j e)
          then Ok (cb_addBond intramol_LJ (e_atom_i e) (e_atom_j e)
                     [e_sigma e; e_epsilon e])
          else Ok intramol_LJ)
       intramol_LJ.

(** The "Intramolecular LJ" part shared by [add_LJ_scaling] and both
    versions of [create_custom_LJ]. *)
Definition intramolecular_LJ (nonbonded : NonbondedForce) (molecule : list nat)
    (force_group : nat) : result CustomBondForce :=
  let intramol_LJ := newCustomBondForce intramolecular_energy in
  let intramol_LJ := cb_addPerBondParameter intramol_LJ "sigma" in
  let intramol_LJ := cb_addPerBondParameter intramol_LJ "epsilon" in
  let intramol_LJ := cb_setForceGroup intramol_LJ force_group in
  add_bonds nonbonded molecule intramol_LJ.

(** [add_LJ_scaling] of the notebook 02-decouple-LJ-bulk. *)
Definition add_LJ_scaling (system : System) (molecule solvent : list nat)
    (lambda_value : R) (force_group_1 force_group_2 : nat) : result System :=
  kn ← subscript0 (nonbonded_forces system);
  let nonbonded := kn.2 in
  (* Intermolecular LJ - softcore potential added *)
  let intermol_LJ := newCustomNonbondedForce softcore_energy in
  let intermol_LJ := cnb_addGlobalParameter intermol_LJ "lambda_sterics" lambda_value in
  let intermol_LJ := cnb_addGlobalParameter intermol_LJ "softcore_a" 1 in
  let intermol_LJ := cnb_addGlobalParameter intermol_LJ "softcore_b" 1 in
  let intermol_LJ := cnb_addGlobalParameter intermol_LJ "softcore_c" 6 in
  let intermol_LJ := cnb_addGlobalParameter intermol_LJ "softcore_alpha" (1/2) in
  let intermol_LJ := cnb_addPerParticleParameter intermol_LJ "sigma" in
  let intermol_LJ := cnb_addPerParticleParameter intermol_LJ "epsilon" in
  let intermol_LJ := cnb_setCutoffDistance intermol_LJ (getCutoffDistance nonbonded) in
  let intermol_LJ := cnb_setNonbondedMethod intermol_LJ CutoffPeriodic in
  let intermol_LJ :=
    cnb_setUseLongRangeCorrection intermol_LJ (getUseDispersionCorrection nonbonded) in
  let intermol_LJ := cnb_addInteractionGroup intermol_LJ molecule solvent in
  let intermol_LJ := cnb_setForceGroup intermol_LJ force_group_1 in
  intermol_LJ ← add_particles nonbonded intermol_LJ;
  intermol_LJ ← copy_exceptions nonbonded intermol_LJ;
  let system := addForce system (FCustomNonbonded intermol_LJ) in
  (* Intramolecular LJ *)
  intramol_LJ ← intramolecular_LJ nonbonded molecule force_group_2;
  Ok (addForce system (FCustomBond intramol_LJ)).

(** [create_custom_LJ] of the notebook 03-annihilate-Elec-bulk. *)
Definition create_custom_LJ (system : System) (molecule solvent : list nat)
    (force_group_1 force_group_2 : nat) : result System :=
  kn ← subscript0 (nonbonded_forces system);
  let nonbonded := kn.2 in
  (* Intermolecular LJ *)
  let intermol_LJ := newCustomNonbondedForce intermolecular_energy in
  let intermol_LJ := cnb_addPerParticleParameter intermol_LJ "sigma" in
  let intermol_LJ := cnb_addPerParticleParameter intermol_LJ "epsilon" in
  let intermol_LJ := cnb_setCutoffDistance intermol_LJ (getCutoffDistance nonbonded) in
  let intermol_LJ := cnb_setNonbondedMethod intermol_LJ CutoffPeriodic in
  let intermol_LJ :=
    cnb_setUseLongRangeCorrection intermol_LJ (getUseDispersionCorrection nonbonded) in
  let intermol_LJ := cnb_addInteractionGroup intermol_LJ molecule solvent in
  let intermol_LJ := cnb_setForceGroup intermol_LJ force_group_1 in
  intermol_LJ ← add_particles nonbonded intermol_LJ;
  intermol_LJ ← copy_exceptions nonbonded intermol_LJ;
  let system := addForce system (FCustomNonbonded intermol_LJ) in
  (* Intramolecular LJ *)
  intramol_LJ ← intramolecular_LJ nonbonded molecule force_group_2;
  Ok (addForce system (FCustomBond intramol_LJ)).

(** [create_custom_LJ] of the vacuum notebook: the intramolecular part
    only. *)
Definition create_custom_LJ_vacuum (system : System) (molecule : list nat)
    (force_group : nat) : result System :=
  kn ← subscript0 (nonbonded_forces system);
  let nonbonded := kn.2 in
  intramol_LJ ← intramolecular_LJ nonbonded molecule force_group;
  Ok (addForce system (FCustomBond intramol_LJ)).

(** The loop "Turn off Elec and LJ parameters". *)
Definition turn_off_particles (molecule : list nat) (nonbonded : NonbondedForce)
  : result NonbondedForce :=
  for_ molecule
       (fun atom_i nonbonded =>
          p ← getParticleParameters nonbonded atom_i;
          setParticleParameters nonbonded atom_i 0 (p_sigma p) 0)
       nonbonded.

(** The loop "Turn off Elec and LJ Exceptions". *)
Definition turn_off_exceptions (molecule : list nat) (nonbonded : NonbondedForce)
  : result NonbondedForce :=
  for_ (range (getNumExceptions nonbonded))
       (fun exception_i nonbonded =>
          e ← getExceptionParameters nonbonded exception_i;
          if contains molecule (e_atom_i e) && contains molecule (e_atom_j e)
          then setExceptionParameters nonbonded exception_i
                 (e_atom_i e) (e_atom_j e) 0 (e_sigma e) 0
          else Ok nonbonded)
       nonbonded.

(** [turn_off_nonbonded], the same text in the three notebooks. *)
Definition turn_off_nonbonded (system : System) (molecule : list nat)
  : result System :=
  kn ← subscript0 (nonbonded_forces system);
  let nonbonded := kn.2 in
  nonbonded ← turn_off_particles molecule nonbonded;
  nonbonded ← turn_off_exceptions molecule nonbonded;
  Ok (<[kn.1 := FNonbonded nonbonded]> system).

(** The particle loop of [add_lambda_elec]. *)
Definition offset_particles (molecule : list nat) (nonbonded : NonbondedForce)
  : result NonbondedForce :=
  for_ molecule
       (fun atom_i nonbonded =>
          p ← getParticleParameters nonbonded atom_i;
          addParticleParameterOffset nonbonded "lambda_electrostatics" atom_i
            (p_charge p) 0 0)
       nonbonded.

(** The exception loop of [add_lambda_elec]. *)
Definition offset_exceptions (molecule : list nat) (nonbonded : NonbondedForce)
  : result NonbondedForce :=
  for_ (range (getNumExceptions nonbonded))
       (fun exception_i nonbonded =>
          e ← getExceptionParameters nonbonded exception_i;
          if contains molecule (e_atom_i e) && contains molecule (e_atom_j e)
          then addExceptionParameterOffset nonbonded "lambda_electrostatics"
                 exception_i (e_chargeprod e) 0 0
          else Ok nonbonded)
       nonbonded.

(** [add_lambda_elec] of the electrostatics notebooks. *)
Definition add_lambda_elec (system : System) (molecule : list nat)
    (lambda_value : R) : result System :=
  kn ← subscript0 (nonbonded_forces system);
  let nonbonded := kn.2 in
  let nonbonded := addGlobalParameter nonbonded "lambda_electrostatics" lambda_value in
  nonbonded ← offset_particles molecule nonbonded;
  nonbonded ← offset_exceptions molecule nonbonded;
  Ok (<[kn.1 := FNonbonded nonbonded]> system).

End Notebook.
Export Notebook.

(** ** Effective parameters

    The engine adds to a base parameter the offsets registered for it:
    [charge_i + sum over the offsets of particle i of value(parameter) * chargeScale],
    where [value] gives the current value of each global parameter in
    the context. *)

Module Effective.

Definition offset_total (value : string -> R) (scale : Offset -> R)
    (offsets : list Offset) (index : nat) : R :=
  foldr (fun o acc =>
           if decide (o_index o = index)
           then (value (o_parameter o) * scale o + acc)%R
           else acc)
        0%R offsets.

Definition effective_charge (f : NonbondedForce) (value : string -> R)
    (index : nat) : option R :=
  p ← nb_particles f !! index;
  Some (p_charge p + offset_total value o_chargeScale (nb_particleOffsets f) index)%R.

Definition effective_sigma (f : NonbondedForce) (value : string -> R)
    (index : nat) : option R :=
  p ← nb_particles f !! index;
  Some (p_sigma p + offset_total value o_sigmaScale (nb_particleOffsets f) index)%R.

Definition effective_epsilon (f : NonbondedForce) (value : string -> R)
    (index : nat) : option R :=
  p ← nb_particles f !! index;
  Some (p_epsilon p + offset_total value o_epsilonScale (nb_particleOffsets f) index)%R.

Definition effective_chargeprod (f : NonbondedForce) (value : string -> R)
    (index : nat) : option R :=
  e ← nb_exceptions f !! index;
  Some (e_chargeprod e
        + offset_total value o_chargeScale (nb_exceptionOffsets f) index)%R.

End Effective.
Export Effective.

(** ** Closed forms of the loops *)

Module Closed.

Definition with_particles (f : NonbondedForce) (ps : list Particle) :=
  mkNonbondedForce ps (nb_exceptions f) (nb_globalParameters f)
    (nb_particleOffsets f) (nb_exceptionOffsets f) (nb_cutoffDistance f)
    (nb_nonbondedMethod f) (nb_useDispersionCorrection f).

Definition with_exceptions (f : NonbondedForce) (es : list Exception) :=
  mkNonbondedForce (nb_particles f) es (nb_globalParameters f)
    (nb_particleOffsets f) (nb_exceptionOffsets f) (nb_cutoffDistance f)
    (nb_nonbondedMethod f) (nb_useDispersionCorrection f).

Definition with_particleOffsets (f : NonbondedForce) (os : list Offset) :=
  mkNonbondedForce (nb_particles f) (nb_exceptions f) (nb_globalParameters f)
    os (nb_exceptionOffsets f) (nb_cutoffDistance f)
    (nb_nonbondedMethod f) (nb_useDispersionCorrection f).

Definition with_exceptionOffsets (f : NonbondedForce) (os : list Offset) :=
  mkNonbondedForce (nb_particles f) (nb_exceptions f) (nb_globalParameters f)
    (nb_particleOffsets f) os (nb_cutoffDistance f)
    (nb_nonbondedMethod f) (nb_useDispersionCorrection f).

Definition in_solute (molecule : list nat) (e : Exception) : bool :=
  contains molecule (e_atom_i e) && contains molecule (e_atom_j e).

Definition zero_particle (p : Particle) : Particle :=
  mkParticle 0 (p_sigma p) 0.

Definition zero_exception (e : Exception) : Exception :=
  mkException (e_atom_i e) (e_atom_j e) 0 (e_sigma e) 0.

(** particles after "Turn off Elec and LJ parameters" *)
Definition zeroed_particles (molecule : list nat) (ps : list Particle)
  : list Particle :=
  imap (fun i p => if contains molecule i then zero_particle p else p) ps.

(** exceptions after "Turn off Elec and LJ Exceptions" *)
Definition zeroed_exceptions (molecule : list nat) (es : list Exception)
  : list Exception :=
  (fun e => if in_solute molecule e then zero_exception e else e) <$> es.

Definition exclusion_of (e : Exception) : nat * nat := (e_atom_i e, e_atom_j e).

Definition bond_of (e : Exception) : nat * nat * list R :=
  (e_atom_i e, e_atom_j e, [e_sigma e; e_epsilon e]).

Definition valid_atoms (f : NonbondedForce) (molecule : list nat) : bool :=
  forallb (fun atom_i => bool_decide (atom_i < getNumParticles f)) molecule.

Definition push_particle (f : CustomNonbondedForce) (p : Particle) :=
  cnb_addParticle f [p_sigma p; p_epsilon p].

Definition push_exclusion (f : CustomNonbondedForce) (e : Exception) :=
  cnb_addExclusion f (e_atom_i e) (e_atom_j e).

Definition push_bond (molecule : list nat) (f : CustomBondForce) (e : Exception) :=
  if in_solute molecule e
  then cb_addBond f (e_atom_i e) (e_atom_j e) [e_sigma e; e_epsilon e]
  else f.

(** The two forces built by [add_LJ_scaling], in closed form. *)
Definition softcore_force (nonbonded : NonbondedForce) (molecule solvent : list nat)
    (lambda_value : R) (force_group : nat) : CustomNonbondedForce :=
  mkCustomNonbondedForce softcore_energy
    [("lambda_sterics", lambda_value); ("softcore_a", 1%R); ("softcore_b", 1%R);
     ("softcore_c", 6%R); ("softcore_alpha", (1/2)%R)]
    ["sigma"; "epsilon"]
    ((fun p => [p_sigma p; p_epsilon p]) <$> nb_particles nonbonded)
    (exclusion_of <$> nb_exceptions nonbonded)
    [(molecule, solvent)]
    (nb_cutoffDistance nonbonded) CutoffPeriodic
    (nb_useDispersionCorrection nonbonded) force_group.

Definition intermolecular_force (nonbonded : NonbondedForce)
    (molecule solvent : list nat) (force_group : nat) : CustomNonbondedForce :=
  mkCustomNonbondedForce intermolecular_energy [] ["sigma"; "epsilon"]
    ((fun p => [p_sigma p; p_epsilon p]) <$> nb_particles nonbonded)
    (exclusion_of <$> nb_exceptions nonbonded)
    [(molecule, solvent)]
    (nb_cutoffDistance nonbonded) CutoffPeriodic
    (nb_useDispersionCorrection nonbonded) force_group.

Definition intramolecular_force (nonbonded : NonbondedForce)
    (molecule : list nat) (force_group : nat) : CustomBondForce :=
  mkCustomBondForce intramolecular_energy ["sigma"; "epsilon"]
    (bond_of <$> filter (fun e => in_solute molecule e = true)
                   (nb_exceptions nonbonded))
    force_group.

(** offsets registered by the particle loop of [add_lambda_elec] *)
Definition particle_offsets (molecule : list nat) (ps : list Particle)
  : list Offset :=
  omap (fun atom_i =>
          p ← ps !! atom_i;
          Some (mkOffset "lambda_electrostatics" atom_i (p_charge p) 0 0))
       molecule.

(** offsets registered by the exception loop of [add_lambda_elec], the
    first exception of [es] having index [k] *)
Fixpoint exception_offsets (molecule : list nat) (k : nat) (es : list Exception)
  : list Offset :=
  match es with
  | [] => []
  | e :: es' =>
      (if in_solute molecule e
       then [mkOffset "lambda_electrostatics" k (e_chargeprod e) 0 0]
       else [])
      ++ exception_offsets molecule (S k) es'
  end.

(** the base force after [turn_off_nonbonded] *)
Definition turned_off (molecule : list nat) (f : NonbondedForce) : NonbondedForce :=
  mkNonbondedForce
    (zeroed_particles molecule (nb_particles f))
    (zeroed_exceptions molecule (nb_exceptions f))
    (nb_globalParameters f) (nb_particleOffsets f) (nb_exceptionOffsets f)
    (nb_cutoffDistance f) (nb_nonbondedMethod f) (nb_useDispersionCorrection f).

(** the base force after [add_lambda_elec] *)
Definition with_lambda_elec (molecule : list nat) (lambda_value : R)
    (f : NonbondedForce) : NonbondedForce :=
  mkNonbondedForce
    (nb_particles f) (nb_exceptions f)
    (nb_globalParameters f ++ [("lambda_electrostatics", lambda_value)])
    (nb_particleOffsets f ++ particle_offsets molecule (nb_particles f))
    (nb_exceptionOffsets f ++ exception_offsets molecule 0 (nb_exceptions f))
    (nb_cutoffDistance f) (nb_nonbondedMethod f) (nb_useDispersionCorrection f).

End Closed.
Export Closed.


(** ** Energies

    The potential energy of the three kinds of force at a configuration.
    A configuration enters through the separation [dist i j] of each
    pair of atoms.  The values of the global parameters are those of the
    context: the default registered with the force, unless
    [context.setParameter] has stored another one in [ctx].  The
    analytic long-range correction, which does not depend on the pair
    separations, is left out. *)

Module Energy.

#[global] Instance Req_decision : EqDecision R := Req_dec_T.
#[global] Instance Rlt_decision (x y : R) : Decision (x < y)%R := Rlt_dec x y.
#[global] Instance Rle_decision (x y : R) : Decision (x <= y)%R := Rle_dec x y.

(** *** Arithmetic with undefined results *)

Definition odiv (a b : R) : option R :=
  if decide (b = 0%R) then None else Some (a / b)%R.

Definition osqrt (a : R) : option R :=
  if decide (a < 0)%R then None else Some (sqrt a).

(** [pow(x, y)] of the C library. *)
Definition opow (x y : R) : option R :=
  if decide (y = 0%R) then Some 1%R
  else if decide (0 < x)%R then Some (Rpower x y)
  else if decide (x = 0%R) then (if decide (0 < y)%R then Some 0%R else None)
  else if decide (IZR (Int_part y) = y) then Some (powerRZ x (Int_part y))
  else None.

Definition osum (terms : list (option R)) : option R :=
  foldr (fun term acc => a ← term; b ← acc; Some (a + b)%R) (Some 0%R) terms.

(** *** Evaluation of an energy expression *)

Definition variables := string -> option R.

Definition bind_var (x : string) (v : R) (env : variables) : variables :=
  fun y => if String.eqb y x then Some v else env y.

Fixpoint eval (env : variables) (e : expr) : option R :=
  match e with
  | Num c => Some c
  | Var x => env x
  | Add a b => x ← eval env a; y ← eval env b; Some (x + y)%R
  | Sub a b => x ← eval env a; y ← eval env b; Some (x - y)%R
  | Mul a b => x ← eval env a; y ← eval env b; Some (x * y)%R
  | Div a b => x ← eval env a; y ← eval env b; odiv x y
  | Pow a b => x ← eval env a; y ← eval env b; opow x y
  | Sqrt a => x ← eval env a; osqrt x
  end.

(** A definition may use the definitions written after it: they are
    bound from the last one to the first. *)
Definition bind_definitions (defs : list (string * expr)) (env : variables)
  : option variables :=
  foldr (fun d acc => env ← acc; v ← eval env d.2; Some (bind_var d.1 v env))
        (Some env) defs.

Definition eval_energy (env : variables) (f : energy_function) : option R :=
  env' ← bind_definitions (ef_defs f) env;
  eval env' (ef_value f).

(** *** Parameters seen by an expression *)

Fixpoint assoc (l : list (string * R)) (x : string) : option R :=
  match l with
  | [] => None
  | (y, v) :: l' => if String.eqb x y then Some v else assoc l' x
  end.

(** [context.getParameter(name)] for the parameters of one force *)
Definition context_parameters (globals : list (string * R))
    (ctx : string -> option R) : variables :=
  fun x =>
    match assoc globals x with
    | Some d => Some (default d (ctx x))
    | None => None
    end.

Fixpoint bind_parameters (suffix : string) (names : list string)
    (values : list R) (env : variables) : variables :=
  match names, values with
  | n :: names', v :: values' =>
      bind_var (n ++ suffix) v (bind_parameters suffix names' values' env)
  | _, _ => env
  end.

(** *** CustomNonbondedForce *)

Definition same_pair (p : nat * nat) (i j : nat) : bool :=
  bool_decide (p = (i, j)) || bool_decide (p = (j, i)).

Definition excluded (f : CustomNonbondedForce) (i j : nat) : bool :=
  existsb (fun p => same_pair p i j) (cnb_exclusions f).

(** With interaction groups, a pair interacts when one atom is in the
    first set of a group and the other one in its second set. *)
Definition in_groups (f : CustomNonbondedForce) (i j : nat) : bool :=
  match cnb_interactionGroups f with
  | [] => true
  | groups =>
      existsb (fun g => (contains g.1 i && contains g.2 j)
                        || (contains g.1 j && contains g.2 i)) groups
  end.

Definition within_cutoff (method : NonbondedMethod) (cutoff r : R) : bool :=
  match method with
  | NoCutoff => true
  | _ => bool_decide (r <= cutoff)%R
  end.

(** the pairs [(i, j)] with [i < j < n] *)
Definition pairs (n : nat) : list (nat * nat) :=
  i ← seq 0 n; (fun j => (i, j)) <$> seq (S i) (n - S i).

Definition custom_pair_energy (f : CustomNonbondedForce) (ctx : string -> option R)
    (r : R) (parameters1 parameters2 : list R) : option R :=
  eval_energy
    (bind_var "r" r
       (bind_parameters "1" (cnb_perParticleParameters f) parameters1
          (bind_parameters "2" (cnb_perParticleParameters f) parameters2
             (context_parameters (cnb_globalParameters f) ctx))))
    (cnb_energy f).

Definition custom_nonbonded_term (f : CustomNonbondedForce) (ctx : string -> option R)
    (dist : nat -> nat -> R) (ij : nat * nat) : option R :=
  let i := ij.1 in
  let j := ij.2 in
  if in_groups f i j && negb (excluded f i j)
     && within_cutoff (cnb_nonbondedMethod f) (cnb_cutoffDistance f) (dist i j)
  then
    parameters1 ← cnb_particles f !! i;
    parameters2 ← cnb_particles f !! j;
    custom_pair_energy f ctx (dist i j) parameters1 parameters2
  else Some 0%R.

Definition custom_nonbonded_energy (f : CustomNonbondedForce)
    (ctx : string -> option R) (dist : nat -> nat -> R) : option R :=
  osum (custom_nonbonded_term f ctx dist <$> pairs (length (cnb_particles f))).

(** *** CustomBondForce *)

Definition custom_bond_term (f : CustomBondForce) (dist : nat -> nat -> R)
    (bond : nat * nat * list R) : option R :=
  eval_energy
    (bind_var "r" (dist bond.1.1 bond.1.2)
       (bind_parameters "" (cb_perBondParameters f) bond.2 (fun _ => None)))
    (cb_energy f).

Definition custom_bond_energy (f : CustomBondForce) (dist : nat -> nat -> R)
  : option R :=
  osum (custom_bond_term f dist <$> cb_bonds f).

(** *** The Lennard-Jones part of NonbondedForce *)

(** [4*epsilon*((sigma/r)^12 - (sigma/r)^6)] *)
Definition lennard_jones (sigma epsilon r : R) : option R :=
  q ← odiv sigma r;
  Some (4 * epsilon * (q ^ 12 - q ^ 6))%R.

Definition excepted (f : NonbondedForce) (i j : nat) : bool :=
  existsb (fun e => same_pair (e_atom_i e, e_atom_j e) i j) (nb_exceptions f).

Definition offset_value (f : NonbondedForce) (ctx : string -> option R)
  : string -> R :=
  fun name => default 0%R (context_parameters (nb_globalParameters f) ctx name).

Definition effective_exception_sigma (f : NonbondedForce) (value : string -> R)
    (index : nat) : option R :=
  e ← nb_exceptions f !! index;
  Some (e_sigma e
        + offset_total value o_sigmaScale (nb_exceptionOffsets f) index)%R.

Definition effective_exception_epsilon (f : NonbondedForce) (value : string -> R)
    (index : nat) : option R :=
  e ← nb_exceptions f !! index;
  Some (e_epsilon e
        + offset_total value o_epsilonScale (nb_exceptionOffsets f) index)%R.

(** A pair without exception: combined sigma is the arithmetic mean,
    combined epsilon the geometric mean. *)
Definition nonbonded_pair_term (f : NonbondedForce) (ctx : string -> option R)
    (dist : nat -> nat -> R) (ij : nat * nat) : option R :=
  let i := ij.1 in
  let j := ij.2 in
  if negb (excepted f i j)
     && within_cutoff (nb_nonbondedMethod f) (nb_cutoffDistance f) (dist i j)
  then
    sigma1 ← effective_sigma f (offset_value f ctx) i;
    sigma2 ← effective_sigma f (offset_value f ctx) j;
    epsilon1 ← effective_epsilon f (offset_value f ctx) i;
    epsilon2 ← effective_epsilon f (offset_value f ctx) j;
    epsilon ← osqrt (epsilon1 * epsilon2);
    lennard_jones (1 / 2 * (sigma1 + sigma2)) epsilon (dist i j)
  else Some 0%R.

(** An exception is computed with its own parameters, at any distance. *)
Definition nonbonded_exception_term (f : NonbondedForce) (ctx : string -> option R)
    (dist : nat -> nat -> R) (index : nat) : option R :=
  e ← nb_exceptions f !! index;
  sigma ← effective_exception_sigma f (offset_value f ctx) index;
  epsilon ← effective_exception_epsilon f (offset_value f ctx) index;
  lennard_jones sigma epsilon (dist (e_atom_i e) (e_atom_j e)).

Definition nonbonded_LJ_energy (f : NonbondedForce) (ctx : string -> option R)
    (dist : nat -> nat -> R) : option R :=
  a ← osum (nonbonded_pair_term f ctx dist <$> pairs (getNumParticles f));
  b ← osum (nonbonded_exception_term f ctx dist
              <$> seq 0 (getNumExceptions f));
  Some (a + b)%R.

(** *** The soft-core formula, as the specification writes it

    [E = lambda^a * 4*epsilon*x*(x-1)], [x = (sigma/r_eff)^6],
    [r_eff = sigma*(alpha*(1-lambda)^b + (r/sigma)^c)^(1/c)]. *)
Definition spec_softcore (lambda a b c alpha epsilon sigma r : R) : option R :=
  one_minus_lambda_b ← opow (1 - lambda) b;
  r_over_sigma ← odiv r sigma;
  r_over_sigma_c ← opow r_over_sigma c;
  inv_c ← odiv 1 c;
  root ← opow (alpha * one_minus_lambda_b + r_over_sigma_c) inv_c;
  let r_eff := (sigma * root)%R in
  sigma_over_r_eff ← odiv sigma r_eff;
  x ← opow sigma_over_r_eff 6;
  lambda_a ← opow lambda a;
  Some (lambda_a * 4 * epsilon * x * (x - 1))%R.

(** *** Conditions under which the energies are compared *)

(** every pair of solute atoms has an exception in the base force *)
Definition solute_pairs_excepted (f : NonbondedForce) (molecule : list nat)
  : Prop :=
  forall i j, i ∈ molecule -> j ∈ molecule -> i < j < getNumParticles f ->
              excepted f i j = true.

(** every atom outside the solute is in the solvent list *)
Definition rest_is_solvent (f : NonbondedForce) (molecule solvent : list nat)
  : Prop :=
  forall i, i < getNumParticles f -> i ∉ molecule -> i ∈ solvent.


(** distinct atoms are at a positive distance, and so are the two atoms
    of every exception *)
Definition atoms_apart (f : NonbondedForce) (dist : nat -> nat -> R) : Prop :=
  (forall i j, i <> j -> (0 < dist i j)%R)
  /\ (forall e, e ∈ nb_exceptions f -> (0 < dist (e_atom_i e) (e_atom_j e))%R).

(** the context holds [lambda_sterics = lambda] and the registered values
    of the soft-core parameters *)
Definition sterics_context (ctx : string -> option R) (lambda : R) : Prop :=
  ctx "lambda_sterics" = Some lambda
  /\ ctx "softcore_a" = None /\ ctx "softcore_b" = None
  /\ ctx "softcore_c" = None /\ ctx "softcore_alpha" = None.

End Energy.
Export Energy.

(** ** The alchemical production loop

    The cell that fills [u_kln], the same text in the notebooks up to
    the name of the control parameter.  The simulation is the context's
    parameter values together with the microstate (positions,
    velocities, box and the state of the random number generators).
    [step] and [potential_energy] stand for the engine: stepping reads
    the current parameter values and maps a microstate to the next one;
    the energy query reads the parameter values and the microstate.
    The reporters and [saveState] only write files and are left out. *)

Module Sampling.

Section Loop.

Variable Microstate : Type.
Variable step : gmap string R -> nat -> Microstate -> Microstate.
Variable potential_energy : gmap string R -> Microstate -> R.

Record Simulation := mkSimulation {
  parameters : gmap string R;
  microstate : Microstate
}.

(** [simulation.context.setParameter(name, value)] *)
Definition context_setParameter (s : Simulation) (name : string) (value : R)
  : Simulation :=
  mkSimulation (setParameter (parameters s) name value) (microstate s).

(** [simulation.step(steps)] *)
Definition simulation_step (s : Simulation) (steps : nat) : Simulation :=
  mkSimulation (parameters s) (step (parameters s) steps (microstate s)).

(** [simulation.context.getState(getEnergy=True).getPotentialEnergy()] *)
Definition getPotentialEnergy (s : Simulation) : R :=
  potential_energy (parameters s) (microstate s).

(** [u_kln], indexed by sampling state, evaluation state and block *)
Definition matrix := nat -> nat -> nat -> R.

(** [u_kln[k, l, n] = value] *)
Definition store (u : matrix) (k l n : nat) (value : R) : matrix :=
  fun k' l' n' =>
    if decide (k' = k /\ l' = l /\ n' = n) then value else u k' l' n'.

(** [enumerate(values)], counting from [start] *)
Fixpoint enumerate_from {A : Type} (start : nat) (values : list A)
  : list (nat * A) :=
  match values with
  | [] => []
  | x :: rest => (start, x) :: enumerate_from (S start) rest
  end.

Definition enumerate {A : Type} (values : list A) : list (nat * A) :=
  enumerate_from 0 values.

Variable parameter_name : string.   (* "lambda_sterics" or "lambda_electrostatics" *)
Variable lambda_values : list R.
Variable equil_steps output_freq total_iterations : nat.
Variable kT : R.

(** [for l, lb2 in enumerate(lambda_values): ...] *)
Definition evaluate_block (k n : nat) (state : Simulation * matrix)
  : Simulation * matrix :=
  foldl (fun (state : Simulation * matrix) (l_lb2 : nat * R) =>
           let simulation :=
             context_setParameter state.1 parameter_name l_lb2.2 in
           (simulation,
            store state.2 k l_lb2.1 n (getPotentialEnergy simulation / kT)%R))
        state (enumerate lambda_values).

(** the body of [for n in range(total_iterations): ...] *)
Definition production_block (k : nat) (lb1 : R) (state : Simulation * matrix)
    (n : nat) : Simulation * matrix :=
  let simulation := context_setParameter state.1 parameter_name lb1 in
  let simulation := simulation_step simulation output_freq in
  evaluate_block k n (simulation, state.2).

(** the body of [for k, lb1 in enumerate(lambda_values): ...] *)
Definition sample_state (state : Simulation * matrix) (k_lb1 : nat * R)
  : Simulation * matrix :=
  let simulation := context_setParameter state.1 parameter_name k_lb1.2 in
  (* Short equilibration *)
  let simulation := simulation_step simulation equil_steps in
  (* Run production *)
  foldl (production_block k_lb1.1 k_lb1.2) (simulation, state.2)
        (range total_iterations).

Definition alchemical_run (simulation : Simulation) (u_kln : matrix)
  : Simulation * matrix :=
  foldl sample_state (simulation, u_kln) (enumerate lambda_values).

(** *** The trajectory, described without the evaluation loop

    Stepping under one value of the control parameter only. *)

(** the microstate after [blocks] production blocks at [lambda] *)
Fixpoint after_blocks (set : gmap string R) (lambda : R) (blocks : nat)
    (x : Microstate) : Microstate :=
  match blocks with
  | 0 => x
  | S b =>
      step (setParameter set parameter_name lambda) output_freq
           (after_blocks set lambda b x)
  end.

(** the microstate after the short equilibration at [lambda] *)
Definition equilibrated (set : gmap string R) (lambda : R) (x : Microstate)
  : Microstate :=
  step (setParameter set parameter_name lambda) equil_steps x.

(** the microstate at which state [k] starts: the one left by the states
    before it *)
Definition start_of (set : gmap string R) (x0 : Microstate) (k : nat)
  : Microstate :=
  foldl (fun x lambda =>
           after_blocks set lambda total_iterations (equilibrated set lambda x))
        x0 (take k lambda_values).

(** the microstate sampled by block [n] of state [k], whose value of the
    control parameter is [lambda] *)
Definition sampled (set : gmap string R) (x0 : Microstate) (k : nat)
    (lambda : R) (n : nat) : Microstate :=
  after_blocks set lambda (S n) (equilibrated set lambda (start_of set x0 k)).

End Loop.

#[global] Arguments mkSimulation {Microstate} parameters microstate.
#[global] Arguments parameters {Microstate} s.
#[global] Arguments microstate {Microstate} s.
#[global] Arguments context_setParameter {Microstate} s name value.
#[global] Arguments simulation_step {Microstate} step s steps.
#[global] Arguments getPotentialEnergy {Microstate} potential_energy s.
#[global] Arguments evaluate_block {Microstate} potential_energy
  parameter_name lambda_values kT k n state.
#[global] Arguments production_block {Microstate} step potential_energy
  parameter_name lambda_values output_freq kT k lb1 state n.
#[global] Arguments sample_state {Microstate} step potential_energy
  parameter_name lambda_values equil_steps output_freq total_iterations kT
  state k_lb1.
#[global] Arguments alchemical_run {Microstate} step potential_energy
  parameter_name lambda_values equil_steps output_freq total_iterations kT
  simulation u_kln.
#[global] Arguments after_blocks {Microstate} step parameter_name output_freq
  set lambda blocks x.
#[global] Arguments equilibrated {Microstate} step parameter_name equil_steps
  set lambda x.
#[global] Arguments start_of {Microstate} step parameter_name lambda_values
  equil_steps output_freq total_iterations set x0 k.
#[global] Arguments sampled {Microstate} step parameter_name lambda_values
  equil_steps output_freq total_iterations set x0 k lambda n.

End Sampling.
Export Sampling.

(** ** Decorrelation

    The analysis cell calls two functions of the time-series utility.
    [detectEquilibration] is a parameter of the model: it returns the
    number of burn-in samples, the statistical inefficiency [g] of what
    follows them, and the number of effective samples.
    [subsampleCorrelatedData] is its loop over [n = 0, 1, 2, ...] that
    keeps the indices [round(n*g)] below the length of the series; [g]
    is a rational number here, and [fuel] bounds the iterations of the
    [while] loop ([None]: the bound was reached). *)

Module Timeseries.

(** [round(x)]: to the nearest integer, a tie going to the even one *)
Definition round_half_even (x : Q) : Z :=
  let f := Qfloor x in
  match (x - inject_Z f ?= 1 # 2)%Q with
  | Lt => f
  | Gt => (f + 1)%Z
  | Eq => if Z.even f then f else (f + 1)%Z
  end.

(** the index kept for [n]: [int(round(n * g))] *)
Definition kept (g : Q) (n : nat) : Z :=
  round_half_even (inject_Z (Z.of_nat n) * g).

(** [while int(round(n * g)) < T: ...] *)
Fixpoint subsample_loop (fuel : nat) (T : Z) (g : Q) (n : nat)
    (indices : list Z) : option (result (list Z)) :=
  match fuel with
  | 0 => None
  | S fuel' =>
      let t := kept g n in
      if (t <? T)%Z then
        (* ensure we don't sample the same point twice *)
        if Nat.eqb n 0 then subsample_loop fuel' T g (S n) (indices ++ [t])
        else
          match indices !! (n - 1) with
          | None => Some (Raise IndexError)
          | Some previous =>
              if (t =? previous)%Z
              then subsample_loop fuel' T g (S n) indices
              else subsample_loop fuel' T g (S n) (indices ++ [t])
          end
      else Some (Ok indices)
  end.

Section Series.

Variable A : Type.
Variable statisticalInefficiency : list A -> Q.

(** [subsampleCorrelatedData(A_t, g=g)] *)
Definition subsampleCorrelatedData (fuel : nat) (A_t : list A) (g : Q)
  : option (result (list Z)) :=
  let T := Z.of_nat (length A_t) in
  let g := if Qeq_bool g 0 then statisticalInefficiency A_t else g in
  subsample_loop fuel T g 0 [].

End Series.

#[global] Arguments subsampleCorrelatedData {A} statisticalInefficiency
  fuel A_t g.

(** An index into an axis of length [T]; a negative index counts from
    the end. *)
Definition axis_index (T : nat) (t : Z) : result nat :=
  if (0 <=? t)%Z && (t <? Z.of_nat T)%Z then Ok (Z.to_nat t)
  else if (- Z.of_nat T <=? t)%Z && (t <? 0)%Z
       then Ok (Z.to_nat (Z.of_nat T + t))
       else Raise IndexError.

Fixpoint axis_indices (T : nat) (indices : list Z) : result (list nat) :=
  match indices with
  | [] => Ok []
  | t :: rest =>
      column ← axis_index T t;
      columns ← axis_indices T rest;
      Ok (column :: columns)
  end.

Section Cell.

Variable detectEquilibration : list R -> nat * Q * Q.
Variable statisticalInefficiency : list R -> Q.
Variable n_lambda total_iterations : nat.

(** [u_kln[k, k, :]] *)
Definition diagonal_series (u_kln : matrix) (k : nat) : list R :=
  (fun n => u_kln k k n) <$> range total_iterations.

(** [N_k[k] = value] *)
Definition set_count (N_k : nat -> nat) (k value : nat) : nat -> nat :=
  fun k' => if decide (k' = k) then value else N_k k'.

(** [u_kln[k, :, 0:N] = u_kln[k, :, indices].T]: the right-hand side is
    a copy, read before anything is written. *)
Definition compact_row (u_kln : matrix) (k : nat) (columns : list nat)
  : matrix :=
  fun k' l j =>
    if decide (k' = k /\ l < n_lambda /\ j < length columns)
    then u_kln k l (default 0 (columns !! j))
    else u_kln k' l j.

(** the body of [for k in range(n_lambda): ...] *)
Definition decorrelate_state (fuel : nat) (k : nat)
    (state : (nat -> nat) * matrix)
  : option (result ((nat -> nat) * matrix)) :=
  let N_k := state.1 in
  let u_kln := state.2 in
  let nequil_g_Neff := detectEquilibration (diagonal_series u_kln k) in
  let g := nequil_g_Neff.1.2 in
  match subsampleCorrelatedData statisticalInefficiency fuel
          (diagonal_series u_kln k) g with
  | None => None
  | Some (Raise e) => Some (Raise e)
  | Some (Ok indices) =>
      let N_k := set_count N_k k (length indices) in
      match axis_indices total_iterations indices with
      | Raise e => Some (Raise e)
      | Ok columns =>
          if decide (length columns <= total_iterations)
          then Some (Ok (N_k, compact_row u_kln k columns))
          else Some (Raise ValueError)
      end
  end.

Fixpoint decorrelate_states (fuel : nat) (ks : list nat)
    (state : (nat -> nat) * matrix)
  : option (result ((nat -> nat) * matrix)) :=
  match ks with
  | [] => Some (Ok state)
  | k :: rest =>
      match decorrelate_state fuel k state with
      | None => None
      | Some (Raise e) => Some (Raise e)
      | Some (Ok state') => decorrelate_states fuel rest state'
      end
  end.

(** the decorrelation cell: [N_k = np.zeros([n_lambda], np.int32)] and
    the loop over the states *)
Definition decorrelation_cell (fuel : nat) (u_kln : matrix)
  : option (result ((nat -> nat) * matrix)) :=
  decorrelate_states fuel (range n_lambda) (fun _ => 0, u_kln).

End Cell.

End Timeseries.
Export Timeseries.

(** ** Notebook cells

    A kernel holds the names bound so far and what was printed.  A cell
    is a sequence of statements run in a kernel; when a statement
    raises, the cell stops and the kernel keeps what the statements
    before it did.  What an imported library does when it is called is
    given by [library], a parameter: the call returns a value or
    raises. *)

Module Jupyter.

Inductive value :=
| Str (s : string)
| Object (what : string).

Record kernel := mkKernel {
  names : gmap string value;
  stdout : list string
}.

Definition action (A : Type) : Type := kernel -> result A * kernel.

#[global] Instance action_ret : MRet action := fun A a k => (Ok a, k).
#[global] Instance action_bind : MBind action := fun A B f m k =>
  match m k with
  | (Ok a, k') => f a k'
  | (Raise e, k') => (Raise e, k')
  end.

(** reading a name *)
Definition load (name : string) : action value :=
  fun k =>
    match names k !! name with
    | Some v => (Ok v, k)
    | None => (Raise (NameError name), k)
    end.

(** [name = v] *)
Definition assign (name : string) (v : value) : action unit :=
  fun k => (Ok tt, mkKernel (<[name := v]> (names k)) (stdout k)).

(** [print(line)] *)
Definition print (line : string) : action unit :=
  fun k => (Ok tt, mkKernel (names k) (stdout k ++ [line])).

(** [str(v)], as an f-string or [print] shows a value *)
Definition str (v : value) : string :=
  match v with
  | Str s => s
  | Object what => what
  end.

Definition upper_ascii (c : Ascii.ascii) : Ascii.ascii :=
  let n := Ascii.nat_of_ascii c in
  if (97 <=? n) && (n <=? 122) then Ascii.ascii_of_nat (n - 32) else c.

(** [s.upper()], on ASCII letters *)
Fixpoint upper (s : string) : string :=
  match s with
  | EmptyString => EmptyString
  | String c rest => String (upper_ascii c) (upper rest)
  end.

Section Library.

Variable library : string -> list value -> result value.

(** a call into an imported library *)
Definition call (function : string) (arguments : list value) : action value :=
  fun k => (library function arguments, k).

(** [from module import names] (or [import module as name]) *)
Definition import_names (module : string) (imported : list string)
  : action unit :=
  _ ← call ("import " +:+ module) [];
  foldr (fun name rest => _ ← assign name (Object (module +:+ "." +:+ name)); rest)
        (mret tt) imported.

(** [def name(...): ...] *)
Definition def (name : string) : action unit :=
  assign name (Object ("function " +:+ name)).

(** *** 03-annihilate-Elec-bulk, the cells up to the construction of the
    system *)

(** cell a33041e9 *)
Definition elec_imports : action unit :=
  _ ← import_names "os" ["os"];
  _ ← import_names "numpy" ["np"];
  _ ← import_names "matplotlib.pyplot" ["plt"];
  _ ← import_names "pymbar" ["MBAR"; "timeseries"];
  _ ← import_names "simtk.unit" ["simtk_unit"];
  _ ← import_names "simtk.openmm.app"
        ["AmberPrmtopFile"; "AmberInpcrdFile"; "Simulation"; "HBonds"; "PME";
         "DCDReporter"; "StateDataReporter"; "PDBFile"];
  import_names "simtk.openmm"
    ["XmlSerializer"; "LangevinIntegrator"; "MonteCarloBarostat";
     "CustomNonbondedForce"; "CustomBondForce"; "NonbondedForce"; "Platform"].

(** cells 52d2fb74, a728ac97 and 7203433a *)
Definition elec_def_add_lambda_elec : action unit := def "add_lambda_elec".
Definition elec_def_create_custom_LJ : action unit := def "create_custom_LJ".
Definition elec_def_turn_off_nonbonded : action unit := def "turn_off_nonbonded".

(** cell a1a01c9f:
    [builf_folder = "build_files"], [work_folder = "elec-bulk"],
    [os.makedirs(work_folder, exist_ok=True)] *)
Definition elec_setup : action unit :=
  _ ← assign "builf_folder" (Str "build_files");
  _ ← assign "work_folder" (Str "elec-bulk");
  os ← load "os";
  work_folder ← load "work_folder";
  _ ← call "os.makedirs" [os; work_folder];
  mret tt.

(** cell 118a5f50 *)
Definition elec_platform : action unit :=
  Platform ← load "Platform";
  platform ← call "Platform.getPlatformByName" [Platform; Str "CUDA"];
  _ ← assign "platform" platform;
  platform ← load "platform";
  _ ← call "setPropertyDefaultValue" [platform; Str "DeviceIndex"; Str "1"];
  platform ← load "platform";
  _ ← call "setPropertyDefaultValue" [platform; Str "Precision"; Str "mixed"];
  mret tt.

(** cell 15cbc475:
    [prmtop = AmberPrmtopFile(f"{build_folder}/ethanol_tip3p.prmtop")],
    [inpcrd = AmberInpcrdFile(f"{build_folder}/ethanol_tip3p.rst7")];
    the callee is evaluated before its argument *)
Definition elec_load_inputs : action unit :=
  AmberPrmtopFile ← load "AmberPrmtopFile";
  build_folder ← load "build_folder";
  prmtop ← call "AmberPrmtopFile"
             [AmberPrmtopFile; Str (str build_folder +:+ "/ethanol_tip3p.prmtop")];
  _ ← assign "prmtop" prmtop;
  AmberInpcrdFile ← load "AmberInpcrdFile";
  build_folder ← load "build_folder";
  inpcrd ← call "AmberInpcrdFile"
             [AmberInpcrdFile; Str (str build_folder +:+ "/ethanol_tip3p.rst7")];
  assign "inpcrd" inpcrd.

(** cell c9e17174: the two comprehensions over [prmtop.topology.atoms()] *)
Definition elec_select_atoms : action unit :=
  prmtop ← load "prmtop";
  ethanol ← call "atoms of residue MOL" [prmtop];
  _ ← assign "ethanol" ethanol;
  prmtop ← load "prmtop";
  solvent ← call "atoms of residue HOH" [prmtop];
  assign "solvent" solvent.

(** cell e5fccfa3: [system = prmtop.createSystem(nonbondedMethod=PME, ...)] *)
Definition elec_create_system : action unit :=
  prmtop ← load "prmtop";
  PME ← load "PME";
  simtk_unit ← load "simtk_unit";
  HBonds ← load "HBonds";
  system ← call "createSystem" [prmtop; PME; simtk_unit; HBonds];
  assign "system" system.

(** the cells before the loading cell, in the order of the notebook *)
Definition elec_cells_before_loading : list (action unit) :=
  [elec_imports; elec_def_add_lambda_elec; elec_def_create_custom_LJ;
   elec_def_turn_off_nonbonded; elec_setup; elec_platform].

(** *** example-ray/01-create_openmm_system, cell 20f7ddbc *)

Definition select_force_field : action unit :=
  (* forcefield = openmm.app.ForceField("tip3p.xml") *)
  openmm ← load "openmm";
  forcefield ← call "openmm.app.ForceField" [openmm; Str "tip3p.xml"];
  _ ← assign "forcefield" forcefield;
  (* if forcefield_name.upper() == "GAFF": *)
  forcefield_name ← load "forcefield_name";
  _ ← (if String.eqb (upper (str forcefield_name)) "GAFF" then
         GAFFTemplateGenerator ← load "GAFFTemplateGenerator";
         off_mol ← load "off_mol";
         template ← call "GAFFTemplateGenerator" [GAFFTemplateGenerator; off_mol];
         assign "template" template
       else
         (* elif forcefield_name.upper() == "SAGE": *)
         forcefield_name ← load "forcefield_name";
         if String.eqb (upper (str forcefield_name)) "SAGE" then
           SMIRNOFFTemplateGenerator ← load "SMIRNOFFTemplateGenerator";
           off_mol ← load "off_mol";
           template ← call "SMIRNOFFTemplateGenerator"
                        [SMIRNOFFTemplateGenerator; Str "openff-2.0.0.offxml";
                         off_mol];
           assign "template" template
         else print "Unknow force field, cannot preceed.");
  (* print("Using force field:", forcefield_name) *)
  forcefield_name ← load "forcefield_name";
  _ ← print ("Using force field: " +:+ str forcefield_name);
  (* forcefield.registerTemplateGenerator(template.generator) *)
  forcefield ← load "forcefield";
  template ← load "template";
  _ ← call "registerTemplateGenerator" [forcefield; template];
  mret tt.

End Library.

(** Running the cells one after the other, each in the kernel left by
    the one before, whether it raised or not. *)
Fixpoint run_cells (cells : list (action unit)) (k : kernel)
  : list (result unit) * kernel :=
  match cells with
  | [] => ([], k)
  | cell :: rest =>
      let r := cell k in
      let rs := run_cells rest r.2 in
      (r.1 :: rs.1, rs.2)
  end.

(** "Run All": the run stops at the first cell that raises. *)
Fixpoint run_all (cells : list (action unit)) (k : kernel)
  : list (result unit) * kernel :=
  match cells with
  | [] => ([], k)
  | cell :: rest =>
      match cell k with
      | (Ok tt, k') => let rs := run_all rest k' in (Ok tt :: rs.1, rs.2)
      | (Raise e, k') => ([Raise e], k')
      end
  end.

(** a kernel that was just started *)
Definition fresh_kernel : kernel := mkKernel ∅ [].

(** an action under which a property of the bound names persists *)
Definition preserves {A : Type} (I : gmap string value -> Prop) (a : action A)
  : Prop :=
  forall k, I (names k) -> I (names (a k).2).

(** the names that stay unbound until the inputs are loaded *)
Definition inputs_unbound (m : gmap string value) : Prop :=
  m !! "build_folder" = None /\ m !! "prmtop" = None /\ m !! "system" = None.

(** the cells of the electrostatics notebook up to the construction of
    the system *)
Definition elec_cells (library : string -> list value -> result value)
  : list (action unit) :=
  elec_cells_before_loading library
    ++ [elec_load_inputs library; elec_select_atoms library;
        elec_create_system library].

(** a library in which every call returns *)
Definition obliging_library (function : string) (arguments : list value)
  : result value :=
  Ok (Object function).

End Jupyter.
Export Jupyter.

(** ** Small systems used to run the definitions *)

Module Examples.

(** two solute atoms joined by an exception, one solvent atom *)
Definition demo_nonbonded : NonbondedForce :=
  mkNonbondedForce
    [mkParticle (-1/2) 2 1; mkParticle (1/2) 2 1; mkParticle 0 2 1]
    [mkException 0 1 (-1/4) 2 1]
    [] [] [] 10 PME true.

Definition demo_system : System :=
  [OtherForce "HarmonicBondForce"; FNonbonded demo_nonbonded;
   OtherForce "MonteCarloBarostat"].

(** one solute atom and two solvent atoms, no exception *)
Definition toy_nonbonded : NonbondedForce :=
  mkNonbondedForce
    [mkParticle 0 2 1; mkParticle 0 2 1; mkParticle 0 2 1]
    [] [] [] [] 10 PME true.

(** two atoms with sigma = 0 and epsilon = 0, as force fields give to
    some hydrogens *)
Definition hydrogens_nonbonded : NonbondedForce :=
  mkNonbondedForce
    [mkParticle (1/2) 0 0; mkParticle (1/2) 0 0]
    [] [] [] [] 10 PME true.

(** the values read by the energies in a context where only
    [lambda_sterics] has been set *)
Definition sterics_at (lambda : R) : string -> option R :=
  stored (setParameter ∅ "lambda_sterics" lambda).

(** the values read in a context where nothing has been set *)
Definition nothing_set : string -> option R := stored ∅.

(** every pair of atoms at distance 1 *)
Definition unit_distances : nat -> nat -> R := fun _ _ => 1%R.

(** a one-dimensional dynamics that drifts with the control parameter,
    and an energy that depends on it *)
Definition drift_step (parameters : gmap string R) (steps : nat) (x : R) : R :=
  (x + INR steps * default 0 (parameters !! "lambda_sterics"))%R.

Definition drift_energy (parameters : gmap string R) (x : R) : R :=
  (default 0 (parameters !! "lambda_sterics") * x)%R.


(** the names a kernel holds before the selection cell of the example,
    for a force field the notebook does not know *)
Definition amber_kernel : kernel :=
  mkKernel (<["forcefield_name" := Str "amber14"]>
              (<["off_mol" := Object "openff.toolkit.Molecule"]>
                 (<["openmm" := Object "openmm"]> ∅))) [].

End Examples.
Export Examples.

(** ** Offsets that leave the Lennard-Jones parameters alone *)

Module Offsets.

(** no offset of the force changes a sigma or an epsilon *)
Definition LJ_unscaled (f : NonbondedForce) : Prop :=
  Forall (fun o => o_sigmaScale o = 0%R /\ o_epsilonScale o = 0%R)
         (nb_particleOffsets f)
  /\ Forall (fun o => o_sigmaScale o = 0%R /\ o_epsilonScale o = 0%R)
            (nb_exceptionOffsets f).

End Offsets.
Export Offsets.

(** ** Further small systems *)

Module Fixtures.

(** three atoms in a chain, as the vacuum notebook builds its system:
    no cutoff, exceptions between bonded neighbours, none between the
    two ends *)
Definition chain_nonbonded : NonbondedForce :=
  mkNonbondedForce
    [mkParticle (-1/2) 2 1; mkParticle (1/4) 2 1; mkParticle (1/4) 2 1]
    [mkException 0 1 0 2 0; mkException 1 2 0 2 0]
    [] [] [] 1 NoCutoff false.

Definition chain_system : System :=
  [OtherForce "HarmonicBondForce"; FNonbonded chain_nonbonded].

End Fixtures.
Export Fixtures.

(** ** 02-decouple-LJ-bulk, the setup and loading cells *)

Module LJNotebook.

Section Cells.

Variable library : string -> list value -> result value.

(** cell e5425af1:
    [build_folder = "build_files"], [work_folder = "vdw-bulk"],
    [os.makedirs(work_folder, exist_ok=True)] *)
Definition lj_setup : action unit :=
  _ ← assign "build_folder" (Str "build_files");
  _ ← assign "work_folder" (Str "vdw-bulk");
  os ← load "os";
  work_folder ← load "work_folder";
  _ ← call library "os.makedirs" [os; work_folder];
  mret tt.

(** cell 0bdfe631:
    [prmtop = AmberPrmtopFile(f"{build_folder}/ethanol_tip3p.prmtop")],
    [inpcrd = AmberInpcrdFile(f"{build_folder}/ethanol_tip3p.rst7")] *)
Definition lj_load_inputs : action unit :=
  AmberPrmtopFile ← load "AmberPrmtopFile";
  build_folder ← load "build_folder";
  prmtop ← call library "AmberPrmtopFile"
             [AmberPrmtopFile; Str (str build_folder +:+ "/ethanol_tip3p.prmtop")];
  _ ← assign "prmtop" prmtop;
  AmberInpcrdFile ← load "AmberInpcrdFile";
  build_folder ← load "build_folder";
  inpcrd ← call library "AmberInpcrdFile"
             [AmberInpcrdFile; Str (str build_folder +:+ "/ethanol_tip3p.rst7")];
  assign "inpcrd" inpcrd.

End Cells.

End LJNotebook.
Export LJNotebook.

(** ** example-ray/01-create_openmm_system, the names of the output files *)

Module OutputFiles.

Definition lower_ascii (c : Ascii.ascii) : Ascii.ascii :=
  let n := Ascii.nat_of_ascii c in
  if (65 <=? n) && (n <=? 90) then Ascii.ascii_of_nat (n + 32) else c.

(** [s.lower()], on ASCII letters *)
Fixpoint lower (s : string) : string :=
  match s with
  | EmptyString => EmptyString
  | String c rest => String (lower_ascii c) (lower rest)
  end.

(** cell 78ab3a8b, the f-strings that name the files *)

(** [f"{system_name}_forcefield_{forcefield_name}.xml"] *)
Definition system_ff_filename (system_name forcefield_name : string) : string :=
  system_name +:+ "_forcefield_" +:+ forcefield_name +:+ ".xml".

(** [f"{system_name}.vac.pdb"] *)
Definition system_pdb_filename (system_name : string) : string :=
  system_name +:+ ".vac.pdb".

(** [f"{system_name}.sol.pdb"] *)
Definition solvated_system_pdb_filename (system_name : string) : string :=
  system_name +:+ ".sol.pdb".

(** [f"{system_name}_vac_system_{forcefield_name.lower()}.xml"] *)
Definition saved_vacumm_system_file_name (system_name forcefield_name : string)
  : string :=
  system_name +:+ "_vac_system_" +:+ lower forcefield_name +:+ ".xml".

(** [f"{system_name}_sol_system_{forcefield_name.lower()}.xml"] *)
Definition saved_solvated_system_file_name (system_name forcefield_name : string)
  : string :=
  system_name +:+ "_sol_system_" +:+ lower forcefield_name +:+ ".xml".

(** the files that the cells df6fd2d4 and df1bf1e3 open for writing, in
    the order in which they are written *)
Definition written_files (system_name forcefield_name : string) : list string :=
  [saved_vacumm_system_file_name system_name forcefield_name;
   saved_solvated_system_file_name system_name forcefield_name;
   solvated_system_pdb_filename system_name;
   system_pdb_filename system_name].

End OutputFiles.
Export OutputFiles.
(* ================================================================== *)
(** * Properties *)

(** ** Loops *)

Lemma for_app {A S : Type} (xs ys : list A) (body : A -> S -> result S) (s : S) :
  for_ (xs ++ ys) body s = (s' ← for_ xs body s; for_ ys body s').
Proof.
  revert s. induction xs as [|x xs IH]; intros s; simpl; [done|].
  destruct (body x s) as [s1|e]; simpl; [apply IH | done].
Qed.

(** A loop over [range(len(l))] that starts by reading [l[i]] is a loop
    over the elements of [l]. *)
Lemma for_range_elements {A S : Type} (l1 l2 : list A)
    (get : nat -> result A) (body : A -> S -> result S) (s : S) :
  (forall i x, (l1 ++ l2) !! i = Some x -> get i = Ok x) ->
  for_ (seq (length l1) (length l2)) (fun i s => x ← get i; body x s) s
  = for_ l2 body s.
Proof.
  revert l1 s. induction l2 as [|y l2 IH]; intros l1 s Hget; simpl; [done|].
  rewrite (Hget (length l1) y); simpl.
  2:{ rewrite lookup_app_r by lia. by rewrite Nat.sub_diag. }
  destruct (body y s) as [s1|e]; simpl; [|done].
  specialize (IH (l1 ++ [y]) s1).
  rewrite length_app, Nat.add_1_r in IH. apply IH.
  intros i x. rewrite <- app_assoc. apply Hget.
Qed.

Lemma for_ext {A S : Type} (l : list A) (f g : A -> S -> result S) (s : S) :
  (forall x s, f x s = g x s) -> for_ l f s = for_ l g s.
Proof.
  intros E. revert s. induction l as [|x l IH]; intros s; simpl; [done|].
  rewrite E. destruct (g x s); simpl; [apply IH | done].
Qed.

Lemma for_cons {A S : Type} (x : A) (xs : list A) (body : A -> S -> result S) (s : S) :
  for_ (x :: xs) body s = (s' ← body x s; for_ xs body s').
Proof. reflexivity. Qed.

Lemma bind_Ok {A B : Type} (a : A) (f : A -> result B) : (Ok a ≫= f) = f a.
Proof. reflexivity. Qed.

Lemma bind_Raise {A B : Type} (e : exn) (f : A -> result B) :
  (Raise e ≫= f) = Raise e.
Proof. reflexivity. Qed.

Lemma getParticleParameters_Some f i p :
  nb_particles f !! i = Some p -> getParticleParameters f i = Ok p.
Proof. intros H. unfold getParticleParameters. by rewrite H. Qed.

Lemma getParticleParameters_None f i :
  nb_particles f !! i = None -> getParticleParameters f i = Raise index_out_of_range.
Proof. intros H. unfold getParticleParameters. by rewrite H. Qed.

Lemma getExceptionParameters_Some f i e :
  nb_exceptions f !! i = Some e -> getExceptionParameters f i = Ok e.
Proof. intros H. unfold getExceptionParameters. by rewrite H. Qed.

(** A loop whose body never raises is a left fold. *)
Lemma for_total {A S : Type} (l : list A) (g : S -> A -> S) (s : S) :
  for_ l (fun x s => Ok (g s x)) s = Ok (foldl g s l).
Proof. revert s. induction l as [|x l IH]; intros s; simpl; [done | apply IH]. Qed.

(** ** The loops of the LJ functions *)

Lemma add_particles_fold nonbonded f :
  add_particles nonbonded f = Ok (foldl push_particle f (nb_particles nonbonded)).
Proof.
  unfold add_particles, range, getNumParticles.
  rewrite <- for_total.
  apply (for_range_elements [] (nb_particles nonbonded)
           (getParticleParameters nonbonded)
           (fun p f => Ok (push_particle f p))).
  intros i x Hx. unfold getParticleParameters. simpl in Hx. by rewrite Hx.
Qed.

Lemma copy_exceptions_fold nonbonded f :
  copy_exceptions nonbonded f = Ok (foldl push_exclusion f (nb_exceptions nonbonded)).
Proof.
  unfold copy_exceptions, range, getNumExceptions.
  rewrite <- for_total.
  apply (for_range_elements [] (nb_exceptions nonbonded)
           (getExceptionParameters nonbonded)
           (fun e f => Ok (push_exclusion f e))).
  intros i x Hx. unfold getExceptionParameters. simpl in Hx. by rewrite Hx.
Qed.

Lemma add_bonds_fold nonbonded molecule f :
  add_bonds nonbonded molecule f
  = Ok (foldl (push_bond molecule) f (nb_exceptions nonbonded)).
Proof.
  unfold add_bonds, range, getNumExceptions.
  rewrite <- for_total.
  rewrite <- (for_range_elements [] (nb_exceptions nonbonded)
           (getExceptionParameters nonbonded)
           (fun e f => Ok (push_bond molecule f e))).
  - simpl. apply for_ext; intros i b.
    destruct (getExceptionParameters nonbonded i) as [e|]; simpl; [|done].
    unfold push_bond, in_solute. by destruct (_ && _).
  - intros i x Hx. unfold getExceptionParameters. simpl in Hx. by rewrite Hx.
Qed.

Lemma foldl_push_particle f ps :
  foldl push_particle f ps
  = mkCustomNonbondedForce (cnb_energy f) (cnb_globalParameters f)
      (cnb_perParticleParameters f)
      (cnb_particles f ++ ((fun p => [p_sigma p; p_epsilon p]) <$> ps))
      (cnb_exclusions f) (cnb_interactionGroups f) (cnb_cutoffDistance f)
      (cnb_nonbondedMethod f) (cnb_useLongRangeCorrection f) (cnb_forceGroup f).
Proof.
  revert f. induction ps as [|p ps IH]; intros f; simpl.
  - destruct f; simpl. by rewrite app_nil_r.
  - rewrite IH. simpl. by rewrite <- app_assoc.
Qed.

Lemma foldl_push_exclusion f es :
  foldl push_exclusion f es
  = mkCustomNonbondedForce (cnb_energy f) (cnb_globalParameters f)
      (cnb_perParticleParameters f) (cnb_particles f)
      (cnb_exclusions f ++ (exclusion_of <$> es))
      (cnb_interactionGroups f) (cnb_cutoffDistance f)
      (cnb_nonbondedMethod f) (cnb_useLongRangeCorrection f) (cnb_forceGroup f).
Proof.
  revert f. induction es as [|e es IH]; intros f; simpl.
  - destruct f; simpl. by rewrite app_nil_r.
  - rewrite IH. simpl. by rewrite <- app_assoc.
Qed.

Lemma foldl_push_bond molecule f es :
  foldl (push_bond molecule) f es
  = mkCustomBondForce (cb_energy f) (cb_perBondParameters f)
      (cb_bonds f ++ (bond_of <$> filter (fun e => in_solute molecule e = true) es))
      (cb_forceGroup f).
Proof.
  revert f. induction es as [|e es IH]; intros f; simpl.
  - destruct f; simpl. by rewrite app_nil_r.
  - rewrite IH. unfold push_bond. rewrite filter_cons.
    case_decide as E.
    + rewrite E. simpl. by rewrite <- app_assoc.
    + apply not_true_is_false in E. by rewrite E.
Qed.

Lemma intramolecular_LJ_closed nonbonded molecule force_group :
  intramolecular_LJ nonbonded molecule force_group
  = Ok (intramolecular_force nonbonded molecule force_group).
Proof.
  unfold intramolecular_LJ. rewrite add_bonds_fold, foldl_push_bond. done.
Qed.

Lemma add_LJ_scaling_closed system molecule solvent lambda_value g1 g2 :
  add_LJ_scaling system molecule solvent lambda_value g1 g2
  = match nonbonded_forces system with
    | [] => Raise IndexError
    | (k, nonbonded) :: _ =>
        Ok (system ++
              [FCustomNonbonded (softcore_force nonbonded molecule solvent lambda_value g1);
               FCustomBond (intramolecular_force nonbonded molecule g2)])
    end.
Proof.
  unfold add_LJ_scaling.
  destruct (nonbonded_forces system) as [|[k nonbonded] rest]; simpl; [done|].
  rewrite add_particles_fold; simpl.
  rewrite copy_exceptions_fold; simpl.
  rewrite intramolecular_LJ_closed; simpl.
  rewrite foldl_push_exclusion, foldl_push_particle; simpl.
  unfold addForce. rewrite <- app_assoc. done.
Qed.

Lemma create_custom_LJ_closed system molecule solvent g1 g2 :
  create_custom_LJ system molecule solvent g1 g2
  = match nonbonded_forces system with
    | [] => Raise IndexError
    | (k, nonbonded) :: _ =>
        Ok (system ++
              [FCustomNonbonded (intermolecular_force nonbonded molecule solvent g1);
               FCustomBond (intramolecular_force nonbonded molecule g2)])
    end.
Proof.
  unfold create_custom_LJ.
  destruct (nonbonded_forces system) as [|[k nonbonded] rest]; simpl; [done|].
  rewrite add_particles_fold; simpl.
  rewrite copy_exceptions_fold; simpl.
  rewrite intramolecular_LJ_closed; simpl.
  rewrite foldl_push_exclusion, foldl_push_particle; simpl.
  unfold addForce. rewrite <- app_assoc. done.
Qed.

Lemma create_custom_LJ_vacuum_closed system molecule g :
  create_custom_LJ_vacuum system molecule g
  = match nonbonded_forces system with
    | [] => Raise IndexError
    | (k, nonbonded) :: _ =>
        Ok (system ++ [FCustomBond (intramolecular_force nonbonded molecule g)])
    end.
Proof.
  unfold create_custom_LJ_vacuum.
  destruct (nonbonded_forces system) as [|[k nonbonded] rest]; simpl; [done|].
  rewrite intramolecular_LJ_closed; simpl. done.
Qed.

(** ** Selecting the base force *)

Lemma nonbonded_from_app k s1 s2 :
  nonbonded_from k (s1 ++ s2)
  = nonbonded_from k s1 ++ nonbonded_from (k + length s1) s2.
Proof.
  revert k. induction s1 as [|f s1 IH]; intros k; simpl.
  - by rewrite Nat.add_0_r.
  - replace (k + S (length s1)) with (S k + length s1) by lia.
    destruct f; simpl; by rewrite IH.
Qed.

Lemma nonbonded_from_lookup k0 system k nonbonded rest :
  nonbonded_from k0 system = (k, nonbonded) :: rest ->
  k0 <= k /\ system !! (k - k0) = Some (FNonbonded nonbonded).
Proof.
  revert k0. induction system as [|f system IH]; intros k0 H; simpl in H; [done|].
  destruct f as [f| | |].
  2-4: apply IH in H as [Hle Hl]; split; [lia|];
       replace (k - k0) with (S (k - S k0)) by lia; exact Hl.
  injection H as -> -> _. split; [lia|]. by rewrite Nat.sub_diag.
Qed.

Lemma nonbonded_from_insert k0 system k nonbonded rest nonbonded' :
  nonbonded_from k0 system = (k, nonbonded) :: rest ->
  nonbonded_from k0 (<[k - k0 := FNonbonded nonbonded']> system)
  = (k, nonbonded') :: rest.
Proof.
  revert k0. induction system as [|f system IH]; intros k0 H; simpl in H; [done|].
  destruct f as [f| | |].
  2-4: pose proof (nonbonded_from_lookup _ _ _ _ _ H) as [Hle _];
       apply IH in H;
       replace (k - k0) with (S (k - S k0)) by lia; simpl; exact H.
  injection H as -> -> <-. by rewrite Nat.sub_diag.
Qed.

Lemma nonbonded_forces_insert system k nonbonded rest nonbonded' :
  nonbonded_forces system = (k, nonbonded) :: rest ->
  nonbonded_forces (<[k := FNonbonded nonbonded']> system)
  = (k, nonbonded') :: rest.
Proof.
  intros H. pose proof (nonbonded_from_insert 0 system k nonbonded rest nonbonded' H) as E.
  by rewrite Nat.sub_0_r in E.
Qed.

Lemma nonbonded_forces_lookup system k nonbonded rest :
  nonbonded_forces system = (k, nonbonded) :: rest ->
  system !! k = Some (FNonbonded nonbonded).
Proof.
  intros H. apply nonbonded_from_lookup in H as [_ H]. by rewrite Nat.sub_0_r in H.
Qed.

Lemma nonbonded_forces_custom system fs :
  Forall (fun f => match f with FNonbonded _ => False | _ => True end) fs ->
  nonbonded_forces (system ++ fs) = nonbonded_forces system.
Proof.
  intros H. unfold nonbonded_forces. rewrite nonbonded_from_app. simpl.
  generalize (length system). intros k.
  replace (nonbonded_from k fs) with (@nil (nat * NonbondedForce)).
  { by rewrite app_nil_r. }
  revert k. induction H as [|f fs Hf _ IH]; intros k; simpl; [done|].
  destruct f; try done; apply IH.
Qed.

(** ** The loops of [turn_off_nonbonded] *)

Lemma valid_atoms_with_particles f ps molecule :
  length ps = length (nb_particles f) ->
  valid_atoms (with_particles f ps) molecule = valid_atoms f molecule.
Proof. intros E. unfold valid_atoms, getNumParticles. simpl. by rewrite E. Qed.

Lemma zeroed_particles_cons x p molecule ps :
  ps !! x = Some p ->
  zeroed_particles molecule (<[x := zero_particle p]> ps)
  = zeroed_particles (x :: molecule) ps.
Proof.
  intros Hx. apply list_eq; intros i. unfold zeroed_particles.
  rewrite !list_lookup_imap. unfold contains.
  destruct (decide (i = x)) as [->|Hne].
  - rewrite list_lookup_insert_eq by (by eapply lookup_lt_Some).
    rewrite Hx. simpl.
    rewrite (bool_decide_eq_true_2 (x ∈ x :: molecule))
      by (apply elem_of_cons; by left).
    by destruct (bool_decide (x ∈ molecule)).
  - rewrite list_lookup_insert_ne by done.
    destruct (ps !! i) as [q|]; simpl; [|done].
    destruct (decide (i ∈ molecule)) as [Hin|Hin].
    + rewrite (bool_decide_eq_true_2 _ Hin).
      rewrite bool_decide_eq_true_2 by (apply elem_of_cons; by right). done.
    + rewrite (bool_decide_eq_false_2 _ Hin).
      rewrite bool_decide_eq_false_2; [done|].
      intros [?|?]%elem_of_cons; done.
Qed.

Lemma turn_off_particles_closed molecule nonbonded :
  turn_off_particles molecule nonbonded
  = if valid_atoms nonbonded molecule
    then Ok (with_particles nonbonded
               (zeroed_particles molecule (nb_particles nonbonded)))
    else Raise index_out_of_range.
Proof.
  unfold turn_off_particles.
  revert nonbonded. induction molecule as [|x molecule IH]; intros nonbonded; simpl.
  - f_equal. destruct nonbonded; unfold with_particles, zeroed_particles; simpl.
    f_equal. apply list_eq; intros i. rewrite list_lookup_imap.
    by destruct (_ !! i).
  - unfold getParticleParameters, getNumParticles.
    destruct (nb_particles nonbonded !! x) as [p|] eqn:Hx; simpl.
    + pose proof (lookup_lt_Some _ _ _ Hx) as Hlt.
      rewrite (bool_decide_eq_true_2 _ Hlt). simpl.
      unfold setParticleParameters. rewrite decide_True by done. simpl.
      fold (zero_particle p).
      fold (with_particles nonbonded (<[x:=zero_particle p]> (nb_particles nonbonded))).
      rewrite IH.
      rewrite valid_atoms_with_particles by apply length_insert.
      unfold valid_atoms, getNumParticles.
      destruct (forallb _ molecule); [|done].
      simpl. by rewrite zeroed_particles_cons.
    + apply lookup_ge_None in Hx.
      rewrite bool_decide_eq_false_2 by lia. done.
Qed.

Lemma setExceptionParameters_with f es i a b c s e :
  setExceptionParameters (with_exceptions f es) i a b c s e
  = if decide (i < length es)
    then Ok (with_exceptions f (<[i := mkException a b c s e]> es))
    else Raise index_out_of_range.
Proof. reflexivity. Qed.

Lemma turn_off_exceptions_from molecule nonbonded l1 l2 :
  for_ (seq (length l1) (length l2))
       (fun exception_i nonbonded =>
          e ← getExceptionParameters nonbonded exception_i;
          if contains molecule (e_atom_i e) && contains molecule (e_atom_j e)
          then setExceptionParameters nonbonded exception_i
                 (e_atom_i e) (e_atom_j e) 0 (e_sigma e) 0
          else Ok nonbonded)
       (with_exceptions nonbonded (l1 ++ l2))
  = Ok (with_exceptions nonbonded (l1 ++ zeroed_exceptions molecule l2)).
Proof.
  revert l1. induction l2 as [|e l2 IH]; intros l1; [done|].
  cbn [length seq]. rewrite for_cons.
  rewrite (getExceptionParameters_Some _ _ e), bind_Ok.
  2:{ simpl. by rewrite lookup_app_r, Nat.sub_diag by lia. }
  fold (in_solute molecule e). cbn [zeroed_exceptions fmap list_fmap].
  destruct (in_solute molecule e).
  - rewrite setExceptionParameters_with.
    rewrite decide_True by (rewrite length_app; simpl; lia).
    fold (zero_exception e). rewrite bind_Ok.
    replace (<[length l1:=zero_exception e]> (l1 ++ e :: l2))
      with ((l1 ++ [zero_exception e]) ++ l2).
    2:{ rewrite insert_app_r_alt, Nat.sub_diag by lia. simpl.
        by rewrite <- app_assoc. }
    specialize (IH (l1 ++ [zero_exception e])).
    rewrite length_app, Nat.add_1_r in IH.
    rewrite IH. by rewrite <- app_assoc.
  - rewrite bind_Ok. specialize (IH (l1 ++ [e])).
    rewrite length_app, Nat.add_1_r, <- app_assoc in IH. simpl in IH.
    rewrite IH. by rewrite <- app_assoc.
Qed.

Lemma turn_off_exceptions_closed molecule nonbonded :
  turn_off_exceptions molecule nonbonded
  = Ok (with_exceptions nonbonded
          (zeroed_exceptions molecule (nb_exceptions nonbonded))).
Proof.
  pose proof (turn_off_exceptions_from molecule nonbonded [] (nb_exceptions nonbonded)) as H.
  simpl in H. unfold turn_off_exceptions, range, getNumExceptions.
  replace (with_exceptions nonbonded (nb_exceptions nonbonded)) with nonbonded in H
    by (by destruct nonbonded).
  exact H.
Qed.

(** what [turn_off_nonbonded] leaves of the base force *)
Lemma turn_off_nonbonded_closed system molecule :
  turn_off_nonbonded system molecule
  = match nonbonded_forces system with
    | [] => Raise IndexError
    | (k, nonbonded) :: _ =>
        if valid_atoms nonbonded molecule
        then Ok (<[k := FNonbonded (turned_off molecule nonbonded)]> system)
        else Raise index_out_of_range
    end.
Proof.
  unfold turn_off_nonbonded.
  destruct (nonbonded_forces system) as [|[k nonbonded] rest]; simpl; [done|].
  rewrite turn_off_particles_closed.
  destruct (valid_atoms nonbonded molecule); simpl; [|done].
  rewrite turn_off_exceptions_closed. simpl. done.
Qed.

(** ** The loops of [add_lambda_elec] *)

Lemma has_global_added f name value :
  has_global (addGlobalParameter f name value) name = true.
Proof.
  unfold has_global. apply bool_decide_eq_true_2. simpl.
  rewrite fmap_app. apply elem_of_app. right. simpl. apply elem_of_cons. by left.
Qed.

Lemma addParticleParameterOffset_with f os parameter i c s e :
  addParticleParameterOffset (with_particleOffsets f os) parameter i c s e
  = if has_global f parameter
    then Ok (with_particleOffsets f (os ++ [mkOffset parameter i c s e]))
    else Raise (OpenMMException "There is no global parameter with that name").
Proof. reflexivity. Qed.

Lemma addExceptionParameterOffset_with f os parameter i c s e :
  addExceptionParameterOffset (with_exceptionOffsets f os) parameter i c s e
  = if has_global f parameter
    then Ok (with_exceptionOffsets f (os ++ [mkOffset parameter i c s e]))
    else Raise (OpenMMException "There is no global parameter with that name").
Proof. reflexivity. Qed.

Lemma offset_particles_from f os molecule :
  has_global f "lambda_electrostatics" = true ->
  offset_particles molecule (with_particleOffsets f os)
  = if valid_atoms f molecule
    then Ok (with_particleOffsets f (os ++ particle_offsets molecule (nb_particles f)))
    else Raise index_out_of_range.
Proof.
  intros Hg. unfold offset_particles.
  revert os. induction molecule as [|x molecule IH]; intros os.
  - simpl. by rewrite app_nil_r.
  - rewrite for_cons. cbn [valid_atoms forallb particle_offsets omap list_omap].
    unfold getNumParticles.
    destruct (nb_particles f !! x) as [p|] eqn:Hx.
    + rewrite (getParticleParameters_Some _ _ p), bind_Ok by exact Hx.
      rewrite addParticleParameterOffset_with, Hg, bind_Ok, IH.
      rewrite (bool_decide_eq_true_2 _ (lookup_lt_Some _ _ _ Hx)).
      cbn [andb mbind option_bind]. unfold valid_atoms, getNumParticles.
      destruct (forallb _ molecule); [|done].
      by rewrite <- app_assoc.
    + rewrite getParticleParameters_None, bind_Raise by exact Hx.
      apply lookup_ge_None in Hx. by rewrite bool_decide_eq_false_2 by lia.
Qed.

Lemma offset_exceptions_from f os molecule l1 l2 :
  has_global f "lambda_electrostatics" = true ->
  nb_exceptions f = l1 ++ l2 ->
  for_ (seq (length l1) (length l2))
       (fun exception_i nonbonded =>
          e ← getExceptionParameters nonbonded exception_i;
          if contains molecule (e_atom_i e) && contains molecule (e_atom_j e)
          then addExceptionParameterOffset nonbonded "lambda_electrostatics"
                 exception_i (e_chargeprod e) 0 0
          else Ok nonbonded)
       (with_exceptionOffsets f os)
  = Ok (with_exceptionOffsets f (os ++ exception_offsets molecule (length l1) l2)).
Proof.
  intros Hg. revert l1 os. induction l2 as [|e l2 IH]; intros l1 os Hes.
  - simpl. by rewrite app_nil_r.
  - cbn [length seq]. rewrite for_cons.
    rewrite (getExceptionParameters_Some _ _ e), bind_Ok.
    2:{ simpl. rewrite Hes. by rewrite lookup_app_r, Nat.sub_diag by lia. }
    fold (in_solute molecule e). cbn [exception_offsets].
    specialize (IH (l1 ++ [e])).
    rewrite length_app, Nat.add_1_r, <- app_assoc in IH.
    destruct (in_solute molecule e).
    + rewrite addExceptionParameterOffset_with, Hg, bind_Ok.
      rewrite IH by exact Hes. by rewrite <- app_assoc.
    + rewrite bind_Ok, IH by exact Hes. done.
Qed.

(** what [add_lambda_elec] registers on the base force *)
Lemma add_lambda_elec_closed system molecule lambda_value :
  add_lambda_elec system molecule lambda_value
  = match nonbonded_forces system with
    | [] => Raise IndexError
    | (k, nonbonded) :: _ =>
        if valid_atoms nonbonded molecule
        then Ok (<[k := FNonbonded
                     (with_lambda_elec molecule lambda_value nonbonded)]> system)
        else Raise index_out_of_range
    end.
Proof.
  unfold add_lambda_elec.
  destruct (nonbonded_forces system) as [|[k nonbonded] rest]; simpl; [done|].
  set (f := addGlobalParameter nonbonded "lambda_electrostatics" lambda_value).
  pose proof (has_global_added nonbonded "lambda_electrostatics" lambda_value) as Hg.
  fold f in Hg.
  replace f with (with_particleOffsets f (nb_particleOffsets f)) at 1
    by (by destruct nonbonded).
  rewrite offset_particles_from by exact Hg.
  replace (valid_atoms f molecule) with (valid_atoms nonbonded molecule) by done.
  destruct (valid_atoms nonbonded molecule); [|done].
  rewrite bind_Ok. unfold offset_exceptions, range, getNumExceptions.
  set (g := with_particleOffsets f _).
  pose proof (offset_exceptions_from g (nb_exceptionOffsets g) molecule []
                (nb_exceptions g) Hg eq_refl) as H.
  replace (with_exceptionOffsets g (nb_exceptionOffsets g)) with g in H by done.
  simpl in H. simpl. rewrite H. done.
Qed.

(** ** Mirrored settings of the replacement force *)



(** ** Failure paths of the force-construction functions *)



(** ** Effective charges under [lambda_electrostatics] *)

Lemma offset_total_nil value scale index :
  offset_total value scale [] index = 0%R.
Proof. reflexivity. Qed.

Lemma offset_total_cons value scale o os index :
  offset_total value scale (o :: os) index
  = if decide (o_index o = index)
    then (value (o_parameter o) * scale o + offset_total value scale os index)%R
    else offset_total value scale os index.
Proof. reflexivity. Qed.

Lemma offset_total_particle_offsets_outside value scale molecule ps i :
  i ∉ molecule ->
  offset_total value scale (particle_offsets molecule ps) i = 0%R.
Proof.
  induction molecule as [|x molecule IH]; intros Hi; [done|].
  apply not_elem_of_cons in Hi as [Hne Hi].
  cbn [particle_offsets omap list_omap].
  destruct (ps !! x) as [p|]; cbn [mbind option_bind]; [|by apply IH].
  rewrite offset_total_cons. cbn [o_index].
  rewrite decide_False by congruence. by apply IH.
Qed.

Lemma offset_total_particle_offsets value molecule ps i p :
  NoDup molecule -> i ∈ molecule -> ps !! i = Some p ->
  offset_total value o_chargeScale (particle_offsets molecule ps) i
  = (value "lambda_electrostatics" * p_charge p)%R.
Proof.
  intros Hnd Hi Hp.
  induction molecule as [|x molecule IH]; [by apply elem_of_nil in Hi|].
  apply NoDup_cons in Hnd as [Hx Hnd].
  cbn [particle_offsets omap list_omap].
  apply elem_of_cons in Hi as [->|Hi].
  - rewrite Hp. cbn [mbind option_bind].
    rewrite offset_total_cons. cbn [o_index o_parameter o_chargeScale].
    rewrite decide_True by done.
    fold (particle_offsets molecule ps).
    rewrite offset_total_particle_offsets_outside by done. lra.
  - assert (x <> i) by (intros ->; done).
    destruct (ps !! x) as [q|]; cbn [mbind option_bind]; [|by apply IH].
    rewrite offset_total_cons. cbn [o_index].
    rewrite decide_False by done. by apply IH.
Qed.

Lemma offset_total_exception_offsets_before value scale molecule k es x :
  x < k -> offset_total value scale (exception_offsets molecule k es) x = 0%R.
Proof.
  revert k. induction es as [|e es IH]; intros k Hx; [done|].
  cbn [exception_offsets].
  destruct (in_solute molecule e); cbn [app].
  - rewrite offset_total_cons. cbn [o_index].
    rewrite decide_False by lia. apply IH. lia.
  - apply IH. lia.
Qed.

Lemma offset_total_exception_offsets value molecule k es j e :
  es !! j = Some e ->
  offset_total value o_chargeScale (exception_offsets molecule k es) (k + j)
  = if in_solute molecule e
    then (value "lambda_electrostatics" * e_chargeprod e)%R
    else 0%R.
Proof.
  revert k j. induction es as [|e0 es IH]; intros k j Hj; [done|].
  cbn [exception_offsets].
  destruct j as [|j]; simpl in Hj.
  - injection Hj as ->. rewrite Nat.add_0_r.
    destruct (in_solute molecule e); cbn [app].
    + rewrite offset_total_cons. cbn [o_index o_parameter o_chargeScale].
      rewrite decide_True by done.
      rewrite offset_total_exception_offsets_before by lia. lra.
    + apply offset_total_exception_offsets_before. lia.
  - replace (k + S j) with (S k + j) by lia.
    destruct (in_solute molecule e0); cbn [app].
    + rewrite offset_total_cons. cbn [o_index].
      rewrite decide_False by lia. by apply IH.
    + by apply IH.
Qed.

(** C2. On a system whose base force carries no earlier offsets, after
    [add_lambda_elec] followed by [turn_off_nonbonded] for a molecule
    given without repetition, the effective charge of every solute atom
    and the effective charge product of every solute-solute exception
    are lambda times the original values: the original values at
    lambda_electrostatics = 1 and zero at lambda_electrostatics = 0. *)
Theorem solute_charges_scale_with_lambda
    system molecule lambda_value k nonbonded rest system1 system2 :
  nonbonded_forces system = (k, nonbonded) :: rest ->
  nb_particleOffsets nonbonded = [] ->
  nb_exceptionOffsets nonbonded = [] ->
  NoDup molecule ->
  add_lambda_elec system molecule lambda_value = Ok system1 ->
  turn_off_nonbonded system1 molecule = Ok system2 ->
  exists nonbonded2,
    nonbonded_forces system2 = (k, nonbonded2) :: rest
    /\ forall value : string -> R,
        let lambda := value "lambda_electrostatics" in
        (forall atom_i p,
            atom_i ∈ molecule -> nb_particles nonbonded !! atom_i = Some p ->
            effective_charge nonbonded2 value atom_i
            = Some (lambda * p_charge p)%R
            /\ (lambda = 1%R ->
                effective_charge nonbonded2 value atom_i = Some (p_charge p))
            /\ (lambda = 0%R ->
                effective_charge nonbonded2 value atom_i = Some 0%R))
        /\ (forall exception_i e,
            nb_exceptions nonbonded !! exception_i = Some e ->
            e_atom_i e ∈ molecule -> e_atom_j e ∈ molecule ->
            effective_chargeprod nonbonded2 value exception_i
            = Some (lambda * e_chargeprod e)%R
            /\ (lambda = 1%R ->
                effective_chargeprod nonbonded2 value exception_i
                = Some (e_chargeprod e))
            /\ (lambda = 0%R ->
                effective_chargeprod nonbonded2 value exception_i = Some 0%R)).
Proof.
  intros Hnb Hpo Heo Hnd H1 H2.
  rewrite add_lambda_elec_closed, Hnb in H1.
  destruct (valid_atoms nonbonded molecule) eqn:Hvalid; [|done].
  injection H1 as <-.
  rewrite turn_off_nonbonded_closed in H2.
  rewrite (nonbonded_forces_insert _ _ _ _ _ Hnb) in H2.
  replace (valid_atoms _ molecule) with true in H2.
  injection H2 as <-.
  eexists. split.
  { eapply nonbonded_forces_insert. eapply nonbonded_forces_insert. exact Hnb. }
  intros value lambda. split.
  - intros atom_i p Hin Hp.
    match goal with |- ?x = _ /\ _ =>
      assert (x = Some (lambda * p_charge p)%R) as E end.
    { unfold effective_charge, turned_off, with_lambda_elec.
      cbn [nb_particles nb_particleOffsets].
      unfold zeroed_particles. rewrite list_lookup_imap, Hp.
      unfold contains. rewrite (bool_decide_eq_true_2 _ Hin).
      cbn [fmap option_fmap option_map mbind option_bind zero_particle p_charge].
      rewrite Hpo. cbn [app].
      rewrite (offset_total_particle_offsets value molecule _ atom_i p) by done.
      f_equal. unfold lambda. lra. }
    rewrite E. split; [done|]. split; intros ->; f_equal; lra.
  - intros exception_i e He Hi Hj.
    assert (in_solute molecule e = true) as Hsol.
    { unfold in_solute, contains.
      by rewrite (bool_decide_eq_true_2 _ Hi), (bool_decide_eq_true_2 _ Hj). }
    match goal with |- ?x = _ /\ _ =>
      assert (x = Some (lambda * e_chargeprod e)%R) as E end.
    { unfold effective_chargeprod, turned_off, with_lambda_elec.
      cbn [nb_exceptions nb_exceptionOffsets].
      unfold zeroed_exceptions. rewrite list_lookup_fmap, He.
      cbn [fmap option_fmap option_map mbind option_bind].
      rewrite Hsol. cbn [zero_exception e_chargeprod].
      rewrite Heo. cbn [app].
      pose proof (offset_total_exception_offsets value molecule 0 _ _ _ He) as T.
      rewrite Nat.add_0_l, Hsol in T. rewrite T.
      f_equal. unfold lambda. lra. }
    rewrite E. split; [done|]. split; intros ->; f_equal; lra.
Qed.

Lemma solute_charges_scale_with_lambda_witness :
  let system1 :=
    <[1 := FNonbonded (with_lambda_elec [0; 1] 0 demo_nonbonded)]> demo_system in
  let system2 :=
    <[1 := FNonbonded
             (turned_off [0; 1] (with_lambda_elec [0; 1] 0 demo_nonbonded))]>
      system1 in
  add_lambda_elec demo_system [0; 1] 0 = Ok system1
  /\ turn_off_nonbonded system1 [0; 1] = Ok system2
  /\ exists nonbonded2,
    nonbonded_forces system2 = [(1, nonbonded2)]
    /\ forall value : string -> R,
        let lambda := value "lambda_electrostatics" in
        (forall atom_i p,
            atom_i ∈ [0; 1] -> nb_particles demo_nonbonded !! atom_i = Some p ->
            effective_charge nonbonded2 value atom_i
            = Some (lambda * p_charge p)%R
            /\ (lambda = 1%R ->
                effective_charge nonbonded2 value atom_i = Some (p_charge p))
            /\ (lambda = 0%R ->
                effective_charge nonbonded2 value atom_i = Some 0%R))
        /\ (forall exception_i e,
            nb_exceptions demo_nonbonded !! exception_i = Some e ->
            e_atom_i e ∈ [0; 1] -> e_atom_j e ∈ [0; 1] ->
            effective_chargeprod nonbonded2 value exception_i
            = Some (lambda * e_chargeprod e)%R
            /\ (lambda = 1%R ->
                effective_chargeprod nonbonded2 value exception_i
                = Some (e_chargeprod e))
            /\ (lambda = 0%R ->
                effective_chargeprod nonbonded2 value exception_i = Some 0%R)).
Proof.
  intros system1 system2.
  assert (add_lambda_elec demo_system [0; 1] 0 = Ok system1) as H1.
  { rewrite add_lambda_elec_closed. reflexivity. }
  assert (turn_off_nonbonded system1 [0; 1] = Ok system2) as H2.
  { rewrite turn_off_nonbonded_closed. reflexivity. }
  split; [exact H1|]. split; [exact H2|].
  apply (solute_charges_scale_with_lambda demo_system [0; 1] 0%R
           1 demo_nonbonded [] system1 system2);
    [reflexivity | reflexivity | reflexivity
    | exact (bool_decide_unpack (NoDup [0; 1]) I) | exact H1 | exact H2].
Defined.

(** ** Arithmetic with undefined results *)

Lemma odiv_defined a b : b <> 0%R -> odiv a b = Some (a / b)%R.
Proof. intros H. unfold odiv. by rewrite decide_False. Qed.

Lemma odiv_zero a : odiv a 0 = None.
Proof. unfold odiv. by rewrite decide_True. Qed.

Lemma osqrt_defined a : (0 <= a)%R -> osqrt a = Some (sqrt a).
Proof. intros H. unfold osqrt. rewrite decide_False; [done | lra]. Qed.

Lemma IZR_pos_INR p : IZR (Z.pos p) = INR (Pos.to_nat p).
Proof. by rewrite INR_IZR_INZ, positive_nat_Z. Qed.

(** A positive integer exponent: repeated multiplication, whatever the
    sign of the base. *)
Lemma opow_positive x p : opow x (IZR (Z.pos p)) = Some (x ^ Pos.to_nat p)%R.
Proof.
  unfold opow.
  assert (0 < IZR (Z.pos p))%R as Hp by (apply IZR_lt; lia).
  rewrite decide_False by lra.
  destruct (decide (0 < x)%R) as [Hx|Hx].
  { f_equal. rewrite IZR_pos_INR. by apply Rpower_pow. }
  destruct (decide (x = 0%R)) as [->|Hx0].
  { rewrite decide_True by done. f_equal. symmetry. apply pow_i.
    apply Pos2Nat.is_pos. }
  assert (Int_part (IZR (Z.pos p)) = Z.pos p) as E.
  { rewrite IZR_pos_INR, Int_part_INR. apply positive_nat_Z. }
  rewrite E, decide_True by done. done.
Qed.

Lemma opow_root x y : (0 < x)%R -> y <> 0%R -> opow x y = Some (Rpower x y).
Proof.
  intros Hx Hy. unfold opow. rewrite decide_False by done.
  by rewrite decide_True.
Qed.

Lemma Rpower_root6 q : (0 < q)%R -> Rpower (q ^ 6) (1 / 6) = q.
Proof.
  intros Hq. change 6%nat with (Pos.to_nat 6).
  rewrite <- (Rpower_pow (Pos.to_nat 6) q Hq), Rpower_mult.
  replace (INR (Pos.to_nat 6) * (1 / 6))%R with 1%R.
  - by apply Rpower_1.
  - rewrite <- IZR_pos_INR. field.
Qed.

Lemma osum_cons t ts : osum (t :: ts) = (a ← t; b ← osum ts; Some (a + b)%R).
Proof. reflexivity. Qed.

Lemma osum_app ts1 ts2 a b :
  osum ts1 = Some a -> osum ts2 = Some b -> osum (ts1 ++ ts2) = Some (a + b)%R.
Proof.
  revert a. induction ts1 as [|t ts1 IH]; intros a H1 H2.
  - injection H1 as <-. simpl. rewrite H2. f_equal. lra.
  - rewrite osum_cons in H1. simpl.
    destruct t as [x|]; [|done]. simpl in *.
    destruct (osum ts1) as [y|] eqn:E; [|done]. simpl in H1. injection H1 as <-.
    fold (osum (ts1 ++ ts2)).
    rewrite (IH y eq_refl H2). simpl. f_equal. lra.
Qed.

(** Term by term: if every term of one sum is the sum of the terms of
    two others, so are the totals. *)
Lemma osum_pointwise {A : Type} (f g h : A -> option R) (l : list A) :
  (forall x, x ∈ l ->
     exists b c, g x = Some b /\ h x = Some c /\ f x = Some (b + c)%R) ->
  exists b c, osum (g <$> l) = Some b /\ osum (h <$> l) = Some c
              /\ osum (f <$> l) = Some (b + c)%R.
Proof.
  induction l as [|x l IH]; intros H.
  - exists 0%R, 0%R. simpl. repeat split. f_equal. lra.
  - destruct (H x) as (b & c & Hg & Hh & Hf); [apply elem_of_cons; by left|].
    destruct IH as (b' & c' & Hg' & Hh' & Hf').
    { intros y Hy. apply H. apply elem_of_cons. by right. }
    exists (b + b')%R, (c + c')%R.
    rewrite !fmap_cons, !osum_cons, Hg, Hh, Hf, Hg', Hh', Hf'. simpl.
    repeat split. f_equal. lra.
Qed.

(** ** The soft-core expression *)

#[global] Arguments odiv : simpl never.
#[global] Arguments osqrt : simpl never.
#[global] Arguments opow : simpl never.

Ltac normalize_names :=
  change ("sigma" +:+ "1") with "sigma1" in *;
  change ("sigma" +:+ "2") with "sigma2" in *;
  change ("epsilon" +:+ "1") with "epsilon1" in *;
  change ("epsilon" +:+ "2") with "epsilon2" in *;
  change ("sigma" +:+ "") with "sigma" in *;
  change ("epsilon" +:+ "") with "epsilon" in *.

Ltac case_partial :=
  match goal with
  | |- context [osqrt ?a] => destruct (osqrt a); cbn
  | |- context [odiv ?a ?b] => destruct (odiv a b); cbn
  | |- context [opow ?a ?b] => destruct (opow a b); cbn
  end.

(** The expression registered by [add_LJ_scaling], evaluated for a pair,
    is the soft-core formula at the combined sigma and epsilon. *)
Lemma softcore_pair_energy nb molecule solvent lambda_value g ctx r
    sigma1 epsilon1 sigma2 epsilon2 :
  custom_pair_energy (softcore_force nb molecule solvent lambda_value g) ctx r
    [sigma1; epsilon1] [sigma2; epsilon2]
  = (epsilon ← osqrt (epsilon1 * epsilon2);
     spec_softcore (default lambda_value (ctx "lambda_sterics"))
       (default 1%R (ctx "softcore_a")) (default 1%R (ctx "softcore_b"))
       (default 6%R (ctx "softcore_c")) (default (1 / 2)%R (ctx "softcore_alpha"))
       epsilon (1 / 2 * (sigma1 + sigma2)) r).
Proof.
  unfold custom_pair_energy, eval_energy, spec_softcore.
  cbn [softcore_force cnb_energy cnb_perParticleParameters cnb_globalParameters
       softcore_energy ef_defs ef_value bind_parameters].
  normalize_names.
  unfold bind_definitions, context_parameters, bind_var.
  cbn. repeat case_partial; reflexivity.
Qed.

Lemma pow6_nonneg x : (0 <= x ^ 6)%R.
Proof. replace (x ^ 6)%R with ((x * x * x) ^ 2)%R by ring. apply pow2_ge_0. Qed.

Lemma Rpower_positive x y : (0 < Rpower x y)%R.
Proof. unfold Rpower. apply exp_pos. Qed.

(** At lambda = 0 the formula is defined and zero whenever sigma is not
    zero. *)
Lemma spec_softcore_at_zero epsilon sigma r :
  sigma <> 0%R ->
  spec_softcore 0 1 1 6 (1 / 2) epsilon sigma r = Some 0%R.
Proof.
  intros Hs. unfold spec_softcore.
  rewrite !(opow_positive _ 1). cbn [mbind option_bind].
  rewrite (odiv_defined r sigma Hs). cbn [mbind option_bind].
  rewrite (opow_positive _ 6). cbn [mbind option_bind].
  rewrite (odiv_defined 1 6) by lra. cbn [mbind option_bind].
  change (Pos.to_nat 1) with 1. change (Pos.to_nat 6) with 6.
  set (B := (1 / 2 * (1 - 0) ^ 1 + (r / sigma) ^ 6)%R).
  assert (0 < B)%R as HB.
  { unfold B. pose proof (pow6_nonneg (r / sigma)). simpl. lra. }
  rewrite (opow_root B (1 / 6)) by (done || lra). cbn [mbind option_bind].
  pose proof (Rpower_positive B (1 / 6)) as Hroot.
  rewrite odiv_defined by (apply Rmult_integral_contrapositive; split; lra).
  cbn [mbind option_bind].
  rewrite (opow_positive _ 6). cbn [mbind option_bind].
  f_equal. simpl. ring.
Qed.

(** At lambda = 1 the formula is the Lennard-Jones energy. *)
Lemma spec_softcore_at_one epsilon sigma r :
  (0 < sigma)%R -> (0 < r)%R ->
  spec_softcore 1 1 1 6 (1 / 2) epsilon sigma r = lennard_jones sigma epsilon r.
Proof.
  intros Hs Hr. unfold spec_softcore, lennard_jones.
  rewrite !(opow_positive _ 1). cbn [mbind option_bind].
  rewrite (odiv_defined r sigma) by lra. cbn [mbind option_bind].
  rewrite (opow_positive _ 6). cbn [mbind option_bind].
  rewrite (odiv_defined 1 6) by lra. cbn [mbind option_bind].
  change (Pos.to_nat 1) with 1. change (Pos.to_nat 6) with 6.
  assert (0 < r / sigma)%R as Hq by (apply Rdiv_lt_0_compat; lra).
  replace (1 / 2 * (1 - 1) ^ 1 + (r / sigma) ^ 6)%R with ((r / sigma) ^ 6)%R
    by (simpl; ring).
  rewrite opow_root by (first [apply pow_lt; done | lra]).
  cbn [mbind option_bind].
  rewrite Rpower_root6 by done.
  replace (sigma * (r / sigma))%R with r by (field; lra).
  rewrite (odiv_defined sigma r) by lra. cbn [mbind option_bind].
  rewrite (opow_positive _ 6). cbn [mbind option_bind].
  change (Pos.to_nat 6) with 6.
  f_equal. ring.
Qed.

Lemma sterics_context_set lambda : sterics_context (sterics_at lambda) lambda.
Proof.
  unfold sterics_context, sterics_at, stored, setParameter.
  split; [apply lookup_insert_eq|].
  repeat split; by rewrite lookup_insert_ne, lookup_empty.
Qed.

(** C3, with the side conditions the expression needs.  The force that
    [add_LJ_scaling] appends registers lambda_sterics and the soft-core
    parameters a = 1, b = 1, c = 6, alpha = 0.5; its expression evaluates,
    for every pair, to the soft-core formula
    [lambda^a * 4*epsilon*x*(x-1)], [x = (sigma/r_eff)^6],
    [r_eff = sigma*(alpha*(1-lambda)^b + (r/sigma)^c)^(1/c)]
    at sigma = 0.5*(sigma1+sigma2) and epsilon = sqrt(epsilon1*epsilon2);
    and at lambda_sterics = 0, with the soft-core parameters left at
    their registered values, it evaluates to exactly zero for every
    pair whose combined sigma is not zero and whose product of epsilons
    is not negative, at every separation r > 0. *)
Theorem softcore_expression_and_zero_endpoint
    system molecule solvent lambda_value force_group_1 force_group_2
    k nonbonded rest :
  nonbonded_forces system = (k, nonbonded) :: rest ->
  exists intermol_LJ intramol_LJ,
    add_LJ_scaling system molecule solvent lambda_value
      force_group_1 force_group_2
    = Ok (system ++ [FCustomNonbonded intermol_LJ; FCustomBond intramol_LJ])
    /\ cnb_globalParameters intermol_LJ
       = [("lambda_sterics", lambda_value); ("softcore_a", 1%R);
          ("softcore_b", 1%R); ("softcore_c", 6%R);
          ("softcore_alpha", (1 / 2)%R)]
    /\ (forall ctx r sigma1 epsilon1 sigma2 epsilon2,
          custom_pair_energy intermol_LJ ctx r
            [sigma1; epsilon1] [sigma2; epsilon2]
          = (epsilon ← osqrt (epsilon1 * epsilon2);
             spec_softcore (default lambda_value (ctx "lambda_sterics"))
               (default 1%R (ctx "softcore_a")) (default 1%R (ctx "softcore_b"))
               (default 6%R (ctx "softcore_c"))
               (default (1 / 2)%R (ctx "softcore_alpha"))
               epsilon (1 / 2 * (sigma1 + sigma2)) r))
    /\ (forall ctx r sigma1 epsilon1 sigma2 epsilon2,
          ctx "lambda_sterics" = Some 0%R ->
          ctx "softcore_a" = None -> ctx "softcore_b" = None ->
          ctx "softcore_c" = None -> ctx "softcore_alpha" = None ->
          (0 < r)%R ->
          (sigma1 + sigma2 <> 0)%R -> (0 <= epsilon1 * epsilon2)%R ->
          custom_pair_energy intermol_LJ ctx r
            [sigma1; epsilon1] [sigma2; epsilon2]
          = Some 0%R).
Proof.
  intros Hnb. rewrite add_LJ_scaling_closed, Hnb.
  eexists _, _. split; [reflexivity|]. split; [reflexivity|].
  split.
  - intros. apply softcore_pair_energy.
  - intros ctx r sigma1 epsilon1 sigma2 epsilon2 Hl Ha Hb Hc Halpha Hr Hs He.
    rewrite softcore_pair_energy, Hl, Ha, Hb, Hc, Halpha.
    rewrite osqrt_defined by done. cbn [mbind option_bind default Datatypes.id].
    apply spec_softcore_at_zero. lra.
Qed.

Lemma softcore_expression_and_zero_endpoint_witness :
  exists intermol_LJ intramol_LJ,
    add_LJ_scaling demo_system [0; 1] [2] 0 6 5
    = Ok (demo_system ++ [FCustomNonbonded intermol_LJ; FCustomBond intramol_LJ])
    /\ cnb_globalParameters intermol_LJ
       = [("lambda_sterics", 0%R); ("softcore_a", 1%R);
          ("softcore_b", 1%R); ("softcore_c", 6%R);
          ("softcore_alpha", (1 / 2)%R)]
    /\ (forall ctx r sigma1 epsilon1 sigma2 epsilon2,
          custom_pair_energy intermol_LJ ctx r
            [sigma1; epsilon1] [sigma2; epsilon2]
          = (epsilon ← osqrt (epsilon1 * epsilon2);
             spec_softcore (default 0%R (ctx "lambda_sterics"))
               (default 1%R (ctx "softcore_a")) (default 1%R (ctx "softcore_b"))
               (default 6%R (ctx "softcore_c"))
               (default (1 / 2)%R (ctx "softcore_alpha"))
               epsilon (1 / 2 * (sigma1 + sigma2)) r))
    /\ custom_pair_energy intermol_LJ (sterics_at 0) 1 [2%R; 1%R] [2%R; 1%R]
       = Some 0%R.
Proof.
  destruct (softcore_expression_and_zero_endpoint demo_system [0; 1] [2] 0%R 6 5
              1 demo_nonbonded [] eq_refl)
    as (intermol_LJ & intramol_LJ & H1 & H2 & H3 & H4).
  exists intermol_LJ, intramol_LJ.
  split; [exact H1|]. split; [exact H2|]. split; [exact H3|].
  destruct (sterics_context_set 0) as (Hl & Ha & Hb & Hc & Halpha).
  apply H4; [exact Hl | exact Ha | exact Hb | exact Hc | exact Halpha
            | lra | lra | lra].
Defined.

(** C3 as stated fails for a pair of atoms that both have sigma = 0: the
    expression divides by the combined sigma, and has no value there. *)
Lemma softcore_undefined_for_zero_sigma :
  exists intermol_LJ intramol_LJ,
    add_LJ_scaling [FNonbonded hydrogens_nonbonded] [0] [1] 0 6 5
    = Ok ([FNonbonded hydrogens_nonbonded]
            ++ [FCustomNonbonded intermol_LJ; FCustomBond intramol_LJ])
    /\ cnb_particles intermol_LJ = [[0%R; 0%R]; [0%R; 0%R]]
    /\ custom_pair_energy intermol_LJ (sterics_at 0) 1 [0%R; 0%R] [0%R; 0%R]
       = None
    /\ custom_pair_energy intermol_LJ (sterics_at 0) 1 [0%R; 0%R] [0%R; 0%R]
       <> Some 0%R.
Proof.
  rewrite add_LJ_scaling_closed.
  eexists _, _. split; [reflexivity|]. split; [reflexivity|].
  assert (custom_pair_energy
            (softcore_force hydrogens_nonbonded [0] [1] 0 6)
            (sterics_at 0) 1 [0%R; 0%R] [0%R; 0%R]
          = None) as E.
  { rewrite softcore_pair_energy.
    rewrite osqrt_defined by lra. cbn [mbind option_bind].
    unfold spec_softcore.
    destruct (sterics_context_set 0) as (-> & _ & -> & _).
    cbn [default Datatypes.id].
    rewrite (opow_positive (1 - 0) 1). cbn [mbind option_bind].
    replace (1 / 2 * (0 + 0))%R with 0%R by lra.
    rewrite odiv_zero. reflexivity. }
  simpl. rewrite E. done.
Qed.

(** ** Lennard-Jones energy before and after the transformation *)

Lemma elem_of_pairs n i j : (i, j) ∈ pairs n -> i < j < n.
Proof.
  unfold pairs. intros H.
  apply list_elem_of_bind in H as (i' & H & Hi').
  apply list_elem_of_fmap in H as (j' & E & Hj').
  injection E as -> ->.
  apply elem_of_seq in Hi'. apply elem_of_seq in Hj'. lia.
Qed.

Lemma osum_zero_terms {A : Type} (l : list A) :
  osum ((fun _ => Some 0%R) <$> l) = Some 0%R.
Proof.
  induction l as [|x l IH]; [done|].
  rewrite fmap_cons, osum_cons, IH. simpl. f_equal. lra.
Qed.

Lemma osum_ext {A : Type} (f g : A -> option R) (l : list A) :
  (forall x, x ∈ l -> f x = g x) -> osum (f <$> l) = osum (g <$> l).
Proof.
  induction l as [|x l IH]; intros H; [done|].
  rewrite !fmap_cons, !osum_cons, H by (apply elem_of_cons; by left).
  rewrite IH; [done|]. intros y Hy. apply H. apply elem_of_cons. by right.
Qed.

(** Summing over the indices of a list is summing over its elements. *)
Lemma osum_indices {A : Type} (F : A -> option R) (l1 l2 : list A) :
  osum ((fun x => e ← (l1 ++ l2) !! x; F e) <$> seq (length l1) (length l2))
  = osum (F <$> l2).
Proof.
  revert l1. induction l2 as [|e l2 IH]; intros l1; [done|].
  cbn [length seq]. rewrite !fmap_cons, !osum_cons.
  rewrite lookup_app_r, Nat.sub_diag by lia. cbn [lookup list_lookup mbind option_bind].
  specialize (IH (l1 ++ [e])).
  rewrite length_app, Nat.add_1_r, <- app_assoc in IH. simpl in IH.
  by rewrite IH.
Qed.

(** Terms that are zero outside a filter can be left out. *)
Lemma osum_filter {A : Type} (P : A -> bool) (T : A -> option R) (l : list A) c :
  osum ((fun e => if P e then T e else Some 0%R) <$> l) = Some c ->
  osum (T <$> filter (fun e => P e = true) l) = Some c.
Proof.
  revert c. induction l as [|e l IH]; intros c H; [done|].
  rewrite fmap_cons, osum_cons in H. rewrite filter_cons.
  destruct (P e) eqn:E.
  - rewrite decide_True by done. rewrite fmap_cons, osum_cons.
    destruct (T e) as [a|]; [|done]. cbn [mbind option_bind] in *.
    destruct (osum _) as [b|] eqn:Eb in H; [|done].
    rewrite (IH b Eb). exact H.
  - rewrite decide_False by done. cbn [mbind option_bind] in H.
    destruct (osum _) as [b|] eqn:Eb in H; [|done].
    cbn [mbind option_bind] in H. injection H as <-.
    rewrite (IH b Eb). f_equal. lra.
Qed.

Lemma lennard_jones_defined sigma epsilon r :
  r <> 0%R ->
  lennard_jones sigma epsilon r
  = Some (4 * epsilon * ((sigma / r) ^ 12 - (sigma / r) ^ 6))%R.
Proof. intros H. unfold lennard_jones. by rewrite odiv_defined. Qed.

Lemma lennard_jones_zero_epsilon sigma r :
  r <> 0%R -> lennard_jones sigma 0 r = Some 0%R.
Proof. intros H. rewrite lennard_jones_defined by done. f_equal. ring. Qed.

(** The bonded expression is the Lennard-Jones formula at the
    parameters of the exception. *)
Lemma custom_bond_term_lennard_jones nonbonded molecule g dist e :
  custom_bond_term (intramolecular_force nonbonded molecule g) dist (bond_of e)
  = lennard_jones (e_sigma e) (e_epsilon e) (dist (e_atom_i e) (e_atom_j e)).
Proof.
  unfold custom_bond_term, eval_energy, lennard_jones.
  cbn [intramolecular_force cb_energy cb_perBondParameters bond_of
       intramolecular_energy ef_defs ef_value bind_parameters fst snd].
  normalize_names.
  unfold bind_definitions, bind_var, lennard_jones_expression.
  cbn.
  destruct (odiv _ _) as [q|]; cbn; [|done].
  rewrite (opow_positive q 12), (opow_positive q 6). cbn. done.
Qed.

Lemma excepted_turned_off molecule f i j :
  excepted (turned_off molecule f) i j = excepted f i j.
Proof.
  unfold excepted, turned_off, zeroed_exceptions. cbn [nb_exceptions].
  induction (nb_exceptions f) as [|e es IH]; [done|].
  rewrite fmap_cons. cbn [existsb]. rewrite IH. f_equal.
  by destruct (in_solute molecule e).
Qed.

Lemma excluded_softcore_force f molecule solvent lambda_value g i j :
  excluded (softcore_force f molecule solvent lambda_value g) i j
  = excepted f i j.
Proof.
  unfold excluded, excepted. cbn [softcore_force cnb_exclusions].
  induction (nb_exceptions f) as [|e es IH]; [done|].
  rewrite fmap_cons. cbn [existsb]. by rewrite IH.
Qed.

Lemma in_groups_softcore_force f molecule solvent lambda_value g i j :
  in_groups (softcore_force f molecule solvent lambda_value g) i j
  = (contains molecule i && contains solvent j)
    || (contains molecule j && contains solvent i).
Proof.
  unfold in_groups. cbn [softcore_force cnb_interactionGroups existsb fst snd].
  by rewrite orb_false_r.
Qed.

Lemma within_cutoff_periodic method cutoff r :
  method <> NoCutoff ->
  within_cutoff method cutoff r = within_cutoff CutoffPeriodic cutoff r.
Proof. intros H. by destruct method. Qed.

Lemma effective_sigma_base f value i :
  nb_particleOffsets f = [] ->
  effective_sigma f value i = p_sigma <$> nb_particles f !! i.
Proof.
  intros H. unfold effective_sigma. rewrite H.
  destruct (_ !! i) as [p|]; [|done]. simpl. f_equal. lra.
Qed.

Lemma effective_epsilon_base f value i :
  nb_particleOffsets f = [] ->
  effective_epsilon f value i = p_epsilon <$> nb_particles f !! i.
Proof.
  intros H. unfold effective_epsilon. rewrite H.
  destruct (_ !! i) as [p|]; [|done]. simpl. f_equal. lra.
Qed.

Lemma nonbonded_exception_term_base f ctx dist x :
  nb_exceptionOffsets f = [] ->
  nonbonded_exception_term f ctx dist x
  = (e ← nb_exceptions f !! x;
     lennard_jones (e_sigma e) (e_epsilon e) (dist (e_atom_i e) (e_atom_j e))).
Proof.
  intros H. unfold nonbonded_exception_term, effective_exception_sigma,
    effective_exception_epsilon. rewrite H.
  destruct (_ !! x) as [e|]; [|done]. simpl.
  by rewrite !Rplus_0_r.
Qed.

Lemma contains_true l x : x ∈ l -> contains l x = true.
Proof. intros H. unfold contains. by apply bool_decide_eq_true_2. Qed.

Lemma contains_false l x : x ∉ l -> contains l x = false.
Proof. intros H. unfold contains. by apply bool_decide_eq_false_2. Qed.

(** The base term of a pair without exception, inside the cutoff. *)
Lemma nonbonded_pair_energy f ctx dist i j p q :
  nb_particleOffsets f = [] ->
  nb_particles f !! i = Some p -> nb_particles f !! j = Some q ->
  excepted f i j = false ->
  within_cutoff (nb_nonbondedMethod f) (nb_cutoffDistance f) (dist i j) = true ->
  nonbonded_pair_term f ctx dist (i, j)
  = (epsilon ← osqrt (p_epsilon p * p_epsilon q);
     lennard_jones (1 / 2 * (p_sigma p + p_sigma q)) epsilon (dist i j)).
Proof.
  intros Ho Hp Hq Hex Hcut. unfold nonbonded_pair_term. cbn [fst snd].
  rewrite Hex, Hcut. cbn [negb andb].
  rewrite !effective_sigma_base, !effective_epsilon_base by done.
  rewrite Hp, Hq. reflexivity.
Qed.

Lemma nonbonded_pair_skipped f ctx dist i j :
  negb (excepted f i j)
  && within_cutoff (nb_nonbondedMethod f) (nb_cutoffDistance f) (dist i j) = false ->
  nonbonded_pair_term f ctx dist (i, j) = Some 0%R.
Proof. intros H. unfold nonbonded_pair_term. cbn [fst snd]. by rewrite H. Qed.

(** The soft-core term of a solute-solvent pair at lambda_sterics = 1. *)
Lemma softcore_term_at_one f molecule solvent lambda_value g ctx dist i j p q :
  sterics_context ctx 1 ->
  nb_particles f !! i = Some p -> nb_particles f !! j = Some q ->
  excepted f i j = false ->
  within_cutoff CutoffPeriodic (nb_cutoffDistance f) (dist i j) = true ->
  (contains molecule i && contains solvent j)
  || (contains molecule j && contains solvent i) = true ->
  (0 <= p_epsilon p * p_epsilon q)%R ->
  (0 < p_sigma p + p_sigma q)%R -> (0 < dist i j)%R ->
  custom_nonbonded_term (softcore_force f molecule solvent lambda_value g)
    ctx dist (i, j)
  = lennard_jones (1 / 2 * (p_sigma p + p_sigma q))
      (sqrt (p_epsilon p * p_epsilon q)) (dist i j).
Proof.
  intros (Hl & Ha & Hb & Hc & Halpha) Hp Hq Hex Hcut Hgroup He Hs Hr.
  unfold custom_nonbonded_term. cbn [fst snd].
  rewrite excluded_softcore_force, in_groups_softcore_force, Hex, Hgroup.
  cbn [softcore_force cnb_nonbondedMethod cnb_cutoffDistance cnb_particles].
  rewrite Hcut. cbn [negb andb].
  rewrite !list_lookup_fmap, Hp, Hq. cbn [fmap option_fmap option_map mbind option_bind].
  rewrite softcore_pair_energy, Hl, Ha, Hb, Hc, Halpha.
  rewrite osqrt_defined by done. cbn [mbind option_bind default Datatypes.id].
  apply spec_softcore_at_one; lra.
Qed.

Lemma softcore_term_skipped f molecule solvent lambda_value g ctx dist i j :
  ((contains molecule i && contains solvent j)
   || (contains molecule j && contains solvent i))
  && negb (excepted f i j)
  && within_cutoff CutoffPeriodic (nb_cutoffDistance f) (dist i j) = false ->
  custom_nonbonded_term (softcore_force f molecule solvent lambda_value g)
    ctx dist (i, j)
  = Some 0%R.
Proof.
  intros H. unfold custom_nonbonded_term. cbn [fst snd].
  rewrite excluded_softcore_force, in_groups_softcore_force.
  cbn [softcore_force cnb_nonbondedMethod cnb_cutoffDistance].
  by rewrite H.
Qed.


Lemma nonbonded_exception_sum f ctx dist :
  nb_exceptionOffsets f = [] ->
  osum (nonbonded_exception_term f ctx dist <$> seq 0 (getNumExceptions f))
  = osum ((fun e => lennard_jones (e_sigma e) (e_epsilon e)
                      (dist (e_atom_i e) (e_atom_j e)))
            <$> nb_exceptions f).
Proof.
  intros Ho.
  rewrite (osum_ext _ _ _
             (fun x _ => nonbonded_exception_term_base f ctx dist x Ho)).
  apply (osum_indices _ [] (nb_exceptions f)).
Qed.

(** Every exception term of the original force is the sum of what
    remains in the base force and of the bond that replaces it. *)
Lemma exception_term_split f molecule g dist e :
  (0 < dist (e_atom_i e) (e_atom_j e))%R ->
  let e' := if in_solute molecule e then zero_exception e else e in
  exists b c,
    lennard_jones (e_sigma e') (e_epsilon e') (dist (e_atom_i e') (e_atom_j e'))
    = Some b
    /\ (if in_solute molecule e
        then custom_bond_term (intramolecular_force f molecule g) dist (bond_of e)
        else Some 0%R) = Some c
    /\ lennard_jones (e_sigma e) (e_epsilon e) (dist (e_atom_i e) (e_atom_j e))
       = Some (b + c)%R.
Proof.
  intros Hr e'. unfold e'.
  destruct (in_solute molecule e).
  - cbn [zero_exception e_sigma e_epsilon e_atom_i e_atom_j].
    rewrite custom_bond_term_lennard_jones.
    rewrite lennard_jones_zero_epsilon, lennard_jones_defined by lra.
    eexists _, _. repeat split. f_equal. lra.
  - rewrite lennard_jones_defined by lra.
    eexists _, _. repeat split. f_equal. lra.
Qed.


(** *** The energies of the small systems *)

Lemma within_cutoff_unit method :
  within_cutoff method 10 (unit_distances 0 0) = true.
Proof.
  unfold within_cutoff, unit_distances. destruct method; [done|..];
    apply bool_decide_eq_true_2; lra.
Qed.

Lemma sqrt_1_1 : sqrt (1 * 1) = 1%R.
Proof. rewrite Rmult_1_l. apply sqrt_1. Qed.

(** The Lennard-Jones energy of two atoms with sigma = 2 and epsilon = 1
    at distance 1. *)
Lemma lennard_jones_2_1_1 :
  lennard_jones (1 / 2 * (2 + 2)) (sqrt (1 * 1)) 1 = Some 16128%R.
Proof.
  rewrite lennard_jones_defined by lra. rewrite sqrt_1_1. f_equal.
  replace (1 / 2 * (2 + 2) / 1)%R with 2%R by lra. simpl. lra.
Qed.

Lemma toy_pair_term i j :
  i < 3 -> j < 3 ->
  nonbonded_pair_term toy_nonbonded nothing_set unit_distances (i, j)
  = Some 16128%R.
Proof.
  intros Hi Hj.
  destruct (lookup_lt_is_Some_2 (nb_particles toy_nonbonded) i Hi) as [p Hp].
  destruct (lookup_lt_is_Some_2 (nb_particles toy_nonbonded) j Hj) as [q Hq].
  rewrite (nonbonded_pair_energy toy_nonbonded _ _ i j p q); try done.
  2:{ apply (within_cutoff_unit PME). }
  assert (p = mkParticle 0 2 1) as ->.
  { destruct i as [|[|[|]]]; simpl in Hp; try lia; by injection Hp. }
  assert (q = mkParticle 0 2 1) as ->.
  { destruct j as [|[|[|]]]; simpl in Hq; try lia; by injection Hq. }
  cbn [p_epsilon p_sigma]. rewrite osqrt_defined by lra.
  apply lennard_jones_2_1_1.
Qed.




(** ** A solute pair that has no exception *)

Lemma toy_softcore_pair_term j :
  j < 2 ->
  custom_nonbonded_term (softcore_force toy_nonbonded [0; 1] [2] 0 6)
    (sterics_at 1) unit_distances (j, 2)
  = Some 16128%R.
Proof.
  intros Hj.
  assert (nb_particles toy_nonbonded !! j = Some (mkParticle 0 2 1)) as Hp.
  { destruct j as [|[|]]; try lia; done. }
  rewrite (softcore_term_at_one toy_nonbonded [0; 1] [2] 0 6 _ _ j 2
             (mkParticle 0 2 1) (mkParticle 0 2 1));
    [ apply lennard_jones_2_1_1
    | apply sterics_context_set
    | exact Hp
    | reflexivity
    | reflexivity
    | apply (within_cutoff_unit CutoffPeriodic)
    | destruct j as [|[|]]; try lia; reflexivity
    | simpl; lra
    | simpl; lra
    | unfold unit_distances; lra ].
Qed.

Lemma toy_turned_off_term i j :
  i < 2 -> j < 3 ->
  nonbonded_pair_term (turned_off [0; 1] toy_nonbonded) (sterics_at 1)
    unit_distances (i, j)
  = Some 0%R.
Proof.
  intros Hi Hj.
  assert (exists q, nb_particles (turned_off [0; 1] toy_nonbonded) !! j = Some q
                    /\ (p_epsilon q = 0 \/ p_epsilon q = 1)%R) as (q & Hq & He).
  { destruct j as [|[|[|]]]; try lia; eexists; (split; [reflexivity|]);
      simpl; auto. }
  assert (nb_particles (turned_off [0; 1] toy_nonbonded) !! i
          = Some (mkParticle 0 2 0)) as Hp.
  { destruct i as [|[|]]; try lia; done. }
  rewrite (nonbonded_pair_energy _ _ _ i j (mkParticle 0 2 0) q); try done.
  2:{ apply (within_cutoff_unit PME). }
  cbn [p_epsilon p_sigma]. rewrite Rmult_0_l.
  rewrite osqrt_defined by lra. rewrite sqrt_0.
  cbn [mbind option_bind]. apply lennard_jones_zero_epsilon.
  unfold unit_distances. lra.
Qed.

(** The solute atoms 0 and 1 of this force are not joined by an
    exception.  After the two functions their Lennard-Jones pair is in
    none of the three forces: the energy of three pairs becomes that of
    two. *)
Lemma solute_pair_without_exception_is_dropped :
  let ctx := sterics_at 1 in
  let intermol_LJ := softcore_force toy_nonbonded [0; 1] [2] 0 6 in
  let intramol_LJ := intramolecular_force toy_nonbonded [0; 1] 5 in
  let system1 :=
    [FNonbonded toy_nonbonded; FCustomNonbonded intermol_LJ;
     FCustomBond intramol_LJ] in
  add_LJ_scaling [FNonbonded toy_nonbonded] [0; 1] [2] 0 6 5 = Ok system1
  /\ turn_off_nonbonded system1 [0; 1]
     = Ok [FNonbonded (turned_off [0; 1] toy_nonbonded);
           FCustomNonbonded intermol_LJ; FCustomBond intramol_LJ]
  /\ nonbonded_LJ_energy (turned_off [0; 1] toy_nonbonded) ctx unit_distances
     = Some 0%R
  /\ custom_nonbonded_energy intermol_LJ ctx unit_distances = Some 32256%R
  /\ custom_bond_energy intramol_LJ unit_distances = Some 0%R
  /\ nonbonded_LJ_energy toy_nonbonded nothing_set unit_distances
     = Some 48384%R.
Proof.
  intros ctx intermol_LJ intramol_LJ system1.
  split; [by rewrite add_LJ_scaling_closed|].
  split; [by rewrite turn_off_nonbonded_closed|].
  split; [|split; [|split]].
  - unfold nonbonded_LJ_energy, ctx.
    change (pairs _) with [(0, 1); (0, 2); (1, 2)].
    rewrite !fmap_cons, !osum_cons, !toy_turned_off_term by lia.
    simpl. f_equal. lra.
  - unfold custom_nonbonded_energy.
    change (pairs _) with [(0, 1); (0, 2); (1, 2)].
    rewrite !fmap_cons, !osum_cons. unfold intermol_LJ, ctx.
    rewrite !toy_softcore_pair_term by lia.
    rewrite softcore_term_skipped by done.
    simpl. f_equal. lra.
  - done.
  - unfold nonbonded_LJ_energy.
    change (pairs _) with [(0, 1); (0, 2); (1, 2)].
    rewrite !fmap_cons, !osum_cons, !toy_pair_term by lia.
    simpl. f_equal. lra.
Qed.


(** ** The production loop *)

Section Loop_properties.

Variable Microstate : Type.
Variable step : gmap string R -> nat -> Microstate -> Microstate.
Variable potential_energy : gmap string R -> Microstate -> R.
Variable parameter_name : string.
Variable lambda_values : list R.
Variable equil_steps output_freq total_iterations : nat.
Variable kT : R.

Local Abbreviation set p v := (setParameter p parameter_name v).
Local Abbreviation blocks := (after_blocks step parameter_name output_freq).
Local Abbreviation equil := (equilibrated step parameter_name equil_steps).

Lemma setParameter_twice (p : gmap string R) name v w :
  setParameter (setParameter p name w) name v = setParameter p name v.
Proof. unfold setParameter. apply insert_insert_eq. Qed.

Lemma after_blocks_add p lambda a b (x : Microstate) :
  blocks p lambda a (blocks p lambda b x) = blocks p lambda (a + b) x.
Proof. induction a as [|a IH]; simpl; [done | by rewrite IH]. Qed.

(** The evaluation loop leaves the microstate alone, changes only the
    control parameter, and writes one column of the matrix. *)
Lemma evaluate_from k n l0 (values : list R)
    (simulation : Simulation Microstate) (u : matrix) :
  let r :=
    foldl (fun (state : Simulation Microstate * matrix) (l_lb2 : nat * R) =>
             let simulation :=
               context_setParameter state.1 parameter_name l_lb2.2 in
             (simulation,
              store state.2 k l_lb2.1 n
                (getPotentialEnergy potential_energy simulation / kT)%R))
          (simulation, u) (enumerate_from l0 values) in
  microstate r.1 = microstate simulation
  /\ (forall v, set (parameters r.1) v = set (parameters simulation) v)
  /\ forall k' l' n',
      r.2 k' l' n'
      = if decide (k' = k /\ n' = n /\ l0 <= l')
        then match values !! (l' - l0) with
             | Some lambda =>
                 (potential_energy (set (parameters simulation) lambda)
                    (microstate simulation) / kT)%R
             | None => u k' l' n'
             end
        else u k' l' n'.
Proof.
  revert l0 simulation u.
  induction values as [|lb2 values IH]; intros l0 simulation u r.
  - subst r. simpl. repeat split. intros k' l' n'. by case_decide.
  - subst r. cbn [enumerate_from foldl fst snd].
    specialize (IH (S l0) (context_setParameter simulation parameter_name lb2)
                  (store u k l0 n
                     (getPotentialEnergy potential_energy
                        (context_setParameter simulation parameter_name lb2)
                      / kT)%R)).
    cbv zeta in IH. destruct IH as (Hx & Hp & Hu).
    split; [by rewrite Hx|]. split.
    { intros v. rewrite Hp. cbn [context_setParameter parameters].
      apply setParameter_twice. }
    intros k' l' n'. rewrite Hu. clear Hu Hp Hx.
    cbn [context_setParameter parameters microstate].
    unfold store, getPotentialEnergy.
    cbn [context_setParameter parameters microstate].
    destruct (decide (k' = k /\ n' = n /\ l0 <= l')) as [(-> & -> & Hl)|Hn].
    + destruct (decide (l' = l0)) as [->|Hne].
      * rewrite decide_False by lia. rewrite decide_True by done.
        by rewrite Nat.sub_diag.
      * rewrite decide_True by lia.
        replace (l' - l0) with (S (l' - S l0)) by lia. cbn [lookup list_lookup].
        destruct (values !! (l' - S l0)) as [lambda|].
        -- by rewrite setParameter_twice.
        -- by rewrite decide_False by lia.
    + rewrite decide_False by lia. rewrite decide_False by lia. done.
Qed.

(** The production blocks of one state: the microstate advances under
    the state's own value of the control parameter, and block [n] fills
    the entries [u[k, l, n]] for every [l]. *)
Lemma production_from k lb1 p0 n0 m
    (simulation : Simulation Microstate) (u : matrix) :
  (forall v, set (parameters simulation) v = set p0 v) ->
  let r :=
    foldl (production_block step potential_energy parameter_name lambda_values
             output_freq kT k lb1)
          (simulation, u) (seq n0 m) in
  microstate r.1 = blocks p0 lb1 m (microstate simulation)
  /\ (forall v, set (parameters r.1) v = set p0 v)
  /\ forall k' l' n',
      r.2 k' l' n'
      = if decide (k' = k /\ n0 <= n' < n0 + m)
        then match lambda_values !! l' with
             | Some lambda =>
                 (potential_energy (set p0 lambda)
                    (blocks p0 lb1 (S (n' - n0)) (microstate simulation))
                  / kT)%R
             | None => u k' l' n'
             end
        else u k' l' n'.
Proof.
  revert n0 simulation u.
  induction m as [|m IH]; intros n0 simulation u Hp r.
  - subst r. simpl. repeat split; [done|].
    intros k' l' n'. rewrite decide_False by lia. done.
  - subst r. cbn [seq foldl].
    unfold production_block at 2. cbn [fst snd]. unfold evaluate_block, enumerate.
    pose proof (evaluate_from k n0 0 lambda_values
                  (simulation_step step
                     (context_setParameter simulation parameter_name lb1)
                     output_freq) u) as He.
    cbv zeta in He.
    set (after := foldl _ (simulation_step step _ output_freq, u) _) in *.
    destruct He as (Hx & Hq & Hu).
    cbn [simulation_step context_setParameter parameters microstate] in Hx, Hq, Hu.
    rewrite Hp in Hx, Hu.
    assert (forall v, set (parameters after.1) v = set p0 v) as Hp'.
    { intros v. rewrite Hq, setParameter_twice. apply Hp. }
    specialize (IH (S n0) after.1 after.2 Hp'). cbv zeta in IH.
    replace (after.1, after.2) with after in IH by (by destruct after).
    destruct IH as (Hx2 & Hp2 & Hu2).
    split.
    { rewrite Hx2, Hx. change (step (set p0 lb1) output_freq (microstate simulation))
        with (blocks p0 lb1 1 (microstate simulation)).
      rewrite after_blocks_add. f_equal. lia. }
    split; [exact Hp2|].
    intros k' l' n'. rewrite Hu2, Hu. clear Hu2 Hu.
    destruct (decide (k' = k /\ n0 <= n' < n0 + S m)) as [(-> & Hn)|Hn].
    + destruct (decide (n' = n0)) as [->|Hne].
      * rewrite decide_False by lia. rewrite decide_True by lia.
        rewrite Nat.sub_0_r, Nat.sub_diag.
        destruct (lambda_values !! l'); [|done].
        by rewrite setParameter_twice.
      * rewrite decide_True by lia.
        destruct (lambda_values !! l') as [lambda|].
        -- rewrite Hx.
           change (step (set p0 lb1) output_freq (microstate simulation))
             with (blocks p0 lb1 1 (microstate simulation)).
           rewrite after_blocks_add. do 3 f_equal. lia.
        -- by rewrite decide_False by lia.
    + rewrite decide_False by lia. rewrite decide_False by lia. done.
Qed.

(** The states of the schedule, one after the other. *)
Lemma run_from p0 k0 (todo : list R)
    (simulation : Simulation Microstate) (u : matrix) :
  (forall v, set (parameters simulation) v = set p0 v) ->
  let next x lambda := blocks p0 lambda total_iterations (equil p0 lambda x) in
  let r :=
    foldl (sample_state step potential_energy parameter_name lambda_values
             equil_steps output_freq total_iterations kT)
          (simulation, u) (enumerate_from k0 todo) in
  microstate r.1 = foldl next (microstate simulation) todo
  /\ (forall v, set (parameters r.1) v = set p0 v)
  /\ forall k' l' n',
      r.2 k' l' n'
      = if decide (k0 <= k' /\ n' < total_iterations)
        then match todo !! (k' - k0), lambda_values !! l' with
             | Some lb1, Some lb2 =>
                 (potential_energy (set p0 lb2)
                    (blocks p0 lb1 (S n')
                       (equil p0 lb1
                          (foldl next (microstate simulation)
                             (take (k' - k0) todo))))
                  / kT)%R
             | _, _ => u k' l' n'
             end
        else u k' l' n'.
Proof.
  intros Hp next. revert k0 simulation u Hp.
  induction todo as [|lb1 todo IH]; intros k0 simulation u Hp r.
  - subst r. simpl. repeat split; [done|].
    intros k' l' n'. by case_decide.
  - subst r. cbn [enumerate_from foldl].
    unfold sample_state at 2. cbn [fst snd]. unfold range.
    assert (forall v,
               set (parameters
                      (simulation_step step
                         (context_setParameter simulation parameter_name lb1)
                         equil_steps)) v = set p0 v) as Hp1.
    { intros v. cbn [simulation_step context_setParameter parameters].
      rewrite setParameter_twice. apply Hp. }
    pose proof (production_from k0 lb1 p0 0 total_iterations
                  (simulation_step step
                     (context_setParameter simulation parameter_name lb1)
                     equil_steps) u Hp1) as Hb.
    cbv zeta in Hb.
    set (after := foldl _ (simulation_step step _ equil_steps, u) _) in *.
    destruct Hb as (Hx & Hq & Hu).
    cbn [simulation_step context_setParameter parameters microstate] in Hx, Hu.
    rewrite Hp in Hx, Hu.
    specialize (IH (S k0) after.1 after.2 Hq). cbv zeta in IH.
    replace (after.1, after.2) with after in IH by (by destruct after).
    destruct IH as (Hx2 & Hp2 & Hu2).
    assert (microstate after.1 = next (microstate simulation) lb1) as Hnext
      by exact Hx.
    split; [by rewrite Hx2, Hnext|]. split; [exact Hp2|].
    intros k' l' n'. rewrite Hu2, Hu. clear Hu2 Hu.
    destruct (decide (k0 <= k' /\ n' < total_iterations)) as [[Hk Hn]|Hn].
    + destruct (decide (k' = k0)) as [->|Hne].
      * rewrite decide_False by lia. rewrite decide_True by lia.
        rewrite Nat.sub_diag, Nat.sub_0_r. cbn [lookup list_lookup take foldl].
        done.
      * rewrite decide_True by lia.
        replace (k' - k0) with (S (k' - S k0)) by lia.
        cbn [lookup list_lookup take foldl]. rewrite Hnext.
        destruct (todo !! (k' - S k0)) as [lb|]; [|by rewrite decide_False by lia].
        destruct (lambda_values !! l'); [done|].
        by rewrite decide_False by lia.
    + rewrite decide_False by lia. rewrite decide_False by lia. done.
Qed.

(** C4. After the production loop, every entry [u[k, l, n]] is the
    potential energy, divided by kT, evaluated at lambda_values[l] on the
    microstate [sampled k n]: the one reached by stepping under
    lambda_values[k] only (the short equilibration, then n+1 production
    blocks, from the microstate left by the states before k).  The
    trajectory, and the microstate the simulation ends in, are those of
    the stepping alone: the evaluations at the other values of the
    control parameter leave no trace in them. *)
Theorem samples_share_the_microstate_of_their_state
    (simulation : Simulation Microstate) (u_kln : matrix) :
  let p0 := parameters simulation in
  let x0 := microstate simulation in
  let r :=
    alchemical_run step potential_energy parameter_name lambda_values
      equil_steps output_freq total_iterations kT simulation u_kln in
  (forall k l n lb1 lb2,
      lambda_values !! k = Some lb1 -> lambda_values !! l = Some lb2 ->
      n < total_iterations ->
      r.2 k l n
      = (potential_energy (setParameter p0 parameter_name lb2)
           (sampled step parameter_name lambda_values equil_steps output_freq
              total_iterations p0 x0 k lb1 n)
         / kT)%R)
  /\ microstate r.1
     = start_of step parameter_name lambda_values equil_steps output_freq
         total_iterations p0 x0 (length lambda_values).
Proof.
  intros p0 x0 r.
  pose proof (run_from p0 0 lambda_values simulation u_kln (fun v => eq_refl))
    as H.
  cbv zeta in H. destruct H as (Hx & _ & Hu). split.
  - intros k l n lb1 lb2 Hk Hl Hn. subst r. unfold alchemical_run, enumerate.
    rewrite Hu, decide_True by lia. rewrite Nat.sub_0_r, Hk, Hl. done.
  - subst r. unfold alchemical_run, enumerate, start_of.
    rewrite Hx, firstn_all. done.
Qed.

End Loop_properties.

(** ** Rounding and the subsampling loop *)

Lemma round_half_even_bounds x :
  (x - (1 # 2) <= inject_Z (round_half_even x)
   /\ inject_Z (round_half_even x) <= x + (1 # 2))%Q.
Proof.
  unfold round_half_even.
  pose proof (Qfloor_le x) as Hlo. pose proof (Qlt_floor x) as Hhi.
  rewrite inject_Z_plus in Hhi. change (inject_Z 1) with 1%Q in Hhi.
  destruct (Qcompare_spec (x - inject_Z (Qfloor x)) (1 # 2)) as [E|E|E].
  - destruct (Z.even (Qfloor x)).
    + split; Lqa.lra.
    + rewrite inject_Z_plus. change (inject_Z 1) with 1%Q. split; Lqa.lra.
  - split; Lqa.lra.
  - rewrite inject_Z_plus. change (inject_Z 1) with 1%Q. split; Lqa.lra.
Qed.

Lemma round_half_even_comp x y :
  (x == y)%Q -> round_half_even x = round_half_even y.
Proof.
  intros E. unfold round_half_even.
  rewrite (Qfloor_comp x y E).
  assert ((x - inject_Z (Qfloor y) ?= 1 # 2) = (y - inject_Z (Qfloor y) ?= 1 # 2))%Q
    as -> by (by rewrite E).
  done.
Qed.

Lemma round_half_even_integer z : round_half_even (inject_Z z) = z.
Proof.
  unfold round_half_even. rewrite Qfloor_Z.
  destruct (Qcompare_spec (inject_Z z - inject_Z z) (1 # 2)) as [E|E|E];
    [exfalso; Lqa.lra | done | exfalso; Lqa.lra].
Qed.

Lemma kept_0 g : kept g 0 = 0%Z.
Proof.
  unfold kept. rewrite (round_half_even_comp _ (inject_Z 0)).
  - apply round_half_even_integer.
  - simpl. ring.
Qed.

(** With [g >= 1] the kept indices increase strictly. *)
Lemma kept_increasing g n : (1 <= g)%Q -> (kept g n < kept g (S n))%Z.
Proof.
  intros Hg. unfold kept.
  assert (inject_Z (Z.of_nat (S n)) * g == inject_Z (Z.of_nat n) * g + g)%Q as E.
  { rewrite Nat2Z.inj_succ. unfold Z.succ. rewrite inject_Z_plus.
    change (inject_Z 1) with 1%Q. ring. }
  rewrite (round_half_even_comp _ _ E).
  destruct (Qle_lt_or_eq _ _ Hg) as [Hlt|Heq].
  - rewrite Zlt_Qlt.
    pose proof (round_half_even_bounds (inject_Z (Z.of_nat n) * g)) as [_ H1].
    pose proof (round_half_even_bounds (inject_Z (Z.of_nat n) * g + g)) as [H2 _].
    set (a := (inject_Z (Z.of_nat n) * g)%Q) in *.
    Lqa.lra.
  - rewrite (round_half_even_comp (inject_Z (Z.of_nat n) * g) (inject_Z (Z.of_nat n))).
    2:{ rewrite <- Heq. ring. }
    rewrite (round_half_even_comp (inject_Z (Z.of_nat n) * g + g)
               (inject_Z (Z.of_nat n + 1))).
    2:{ rewrite <- Heq, inject_Z_plus. change (inject_Z 1) with 1%Q. ring. }
    rewrite !round_half_even_integer. lia.
Qed.

Lemma kept_monotone g i j :
  (1 <= g)%Q -> i < j -> (kept g i < kept g j)%Z.
Proof.
  intros Hg Hij. induction Hij as [|j Hij IH].
  - by apply kept_increasing.
  - pose proof (kept_increasing g j Hg). lia.
Qed.

Lemma kept_at_least g n : (1 <= g)%Q -> (Z.of_nat n <= kept g n)%Z.
Proof.
  intros Hg. induction n as [|n IH].
  - rewrite kept_0. lia.
  - pose proof (kept_increasing g n Hg). lia.
Qed.

Lemma kept_prefix_S g n : kept g <$> seq 0 (S n) = (kept g <$> seq 0 n) ++ [kept g n].
Proof. by rewrite seq_S, fmap_app. Qed.

(** With [g >= 1] the loop ends within [T + 1] iterations and returns
    the indices [round(n*g)] for [n = 0 .. m-1]. *)
Lemma subsample_loop_run fuel (T : nat) g n :
  (1 <= g)%Q ->
  (forall i, i < n -> (kept g i < Z.of_nat T)%Z) ->
  T < fuel + n ->
  exists m,
    n <= m
    /\ subsample_loop fuel (Z.of_nat T) g n (kept g <$> seq 0 n)
       = Some (Ok (kept g <$> seq 0 m))
    /\ (forall i, i < m -> (kept g i < Z.of_nat T)%Z)
    /\ (Z.of_nat T <= kept g m)%Z.
Proof.
  intros Hg. revert n. induction fuel as [|fuel IH]; intros n Hn Hfuel.
  - (* no iteration left: impossible, since n <= T *)
    exfalso. destruct n as [|n]; [lia|].
    pose proof (Hn n ltac:(lia)). pose proof (kept_at_least g n Hg). lia.
  - cbn [subsample_loop].
    destruct (kept g n <? Z.of_nat T)%Z eqn:Ht.
    + apply Z.ltb_lt in Ht.
      assert (forall i, i < S n -> (kept g i < Z.of_nat T)%Z) as Hn'.
      { intros i Hi. destruct (decide (i = n)) as [->|]; [done | apply Hn; lia]. }
      pose proof (kept_at_least g n Hg) as Hge.
      destruct (IH (S n) Hn' ltac:(lia)) as (m & Hm & Hrun & Hall & Hend).
      exists m. split; [lia|]. split; [|done].
      rewrite kept_prefix_S in Hrun.
      destruct n as [|n]; [exact Hrun|]. cbn [Nat.eqb].
      replace (S n - 1) with n by lia.
      rewrite list_lookup_fmap, lookup_seq_lt by lia. cbn [fmap option_fmap option_map].
      pose proof (kept_increasing g n Hg) as Hinc.
      destruct (Z.eqb_spec (kept g (S n)) (kept g (0 + n))) as [E|_];
        [simpl in E; lia | exact Hrun].
    + apply Z.ltb_ge in Ht. exists n. by repeat split.
Qed.

Lemma subsampleCorrelatedData_run {A : Type} statisticalInefficiency fuel
    (A_t : list A) g :
  (1 <= g)%Q -> length A_t < fuel ->
  exists m,
    subsampleCorrelatedData statisticalInefficiency fuel A_t g
    = Some (Ok (kept g <$> seq 0 m))
    /\ m <= length A_t
    /\ (forall i, i < m -> (0 <= kept g i < Z.of_nat (length A_t))%Z)
    /\ (0 < length A_t -> 0 < m).
Proof.
  intros Hg Hfuel. unfold subsampleCorrelatedData.
  assert (Qeq_bool g 0 = false) as ->.
  { apply not_true_is_false. intros E%Qeq_bool_eq. Lqa.lra. }
  destruct (subsample_loop_run fuel (length A_t) g 0 Hg) as (m & _ & Hrun & Hall & Hend);
    [lia | lia |].
  exists m. split; [exact Hrun|]. split; [|split].
  - destruct m as [|m]; [lia|].
    pose proof (Hall m ltac:(lia)). pose proof (kept_at_least g m Hg). lia.
  - intros i Hi. split; [|by apply Hall].
    pose proof (kept_at_least g i Hg). lia.
  - intros HT. destruct m as [|m]; [|lia]. rewrite kept_0 in Hend. lia.
Qed.

(** ** The decorrelation cell *)

Lemma axis_indices_kept T g (l : list nat) :
  (forall i, i ∈ l -> (0 <= kept g i < Z.of_nat T)%Z) ->
  axis_indices T (kept g <$> l) = Ok ((fun i => Z.to_nat (kept g i)) <$> l).
Proof.
  induction l as [|i l IH]; intros H; [done|].
  rewrite !fmap_cons. cbn [axis_indices]. unfold axis_index.
  pose proof (H i ltac:(apply elem_of_cons; by left)) as [H0 HT].
  apply Z.leb_le in H0. apply Z.ltb_lt in HT. rewrite H0, HT. cbn [andb].
  rewrite bind_Ok, IH; [done|].
  intros j Hj. apply H. apply elem_of_cons. by right.
Qed.

Section Cell_properties.

Variable detectEquilibration : list R -> nat * Q * Q.
Variable statisticalInefficiency : list R -> Q.
Variable n_lambda total_iterations : nat.
Variable u_kln : matrix.

(** the statistical inefficiency returned for the diagonal series of
    state [k] *)
Local Abbreviation g_of k :=
  (detectEquilibration (diagonal_series total_iterations u_kln k)).1.2.

Lemma diagonal_series_ext (u u' : matrix) k :
  (forall l n, u' k l n = u k l n) ->
  diagonal_series total_iterations u' k = diagonal_series total_iterations u k.
Proof.
  intros H. unfold diagonal_series. apply list_fmap_ext. intros _ n _. apply H.
Qed.

Lemma length_diagonal_series (u : matrix) k :
  length (diagonal_series total_iterations u k) = total_iterations.
Proof. unfold diagonal_series, range. by rewrite length_fmap, length_seq. Qed.

(** One state: the row is compacted onto the kept columns. *)
Lemma decorrelate_state_run fuel k (N_k : nat -> nat) (u : matrix) :
  (forall l n, u k l n = u_kln k l n) ->
  (1 <= g_of k)%Q -> total_iterations < fuel ->
  exists m,
    subsampleCorrelatedData statisticalInefficiency fuel
      (diagonal_series total_iterations u_kln k) (g_of k)
    = Some (Ok (kept (g_of k) <$> seq 0 m))
    /\ m <= total_iterations
    /\ (forall i, i < m ->
          (0 <= kept (g_of k) i < Z.of_nat total_iterations)%Z)
    /\ (0 < total_iterations -> 0 < m)
    /\ decorrelate_state detectEquilibration statisticalInefficiency n_lambda
         total_iterations fuel k (N_k, u)
       = Some (Ok (set_count N_k k m,
                   compact_row n_lambda u k
                     ((fun i => Z.to_nat (kept (g_of k) i)) <$> seq 0 m))).
Proof.
  intros Hrow Hg Hfuel.
  destruct (subsampleCorrelatedData_run statisticalInefficiency fuel
              (diagonal_series total_iterations u_kln k) (g_of k) Hg)
    as (m & Hrun & Hm & Hall & Hpos).
  { by rewrite length_diagonal_series. }
  rewrite length_diagonal_series in Hm, Hall, Hpos.
  exists m. split; [exact Hrun|]. split; [exact Hm|]. split; [exact Hall|].
  split; [exact Hpos|].
  unfold decorrelate_state. cbn [fst snd].
  rewrite (diagonal_series_ext u_kln u k Hrow), Hrun.
  rewrite axis_indices_kept.
  2:{ intros i Hi. apply elem_of_seq in Hi. apply Hall. lia. }
  rewrite !length_fmap, length_seq.
  by rewrite decide_True by lia.
Qed.

(** The states one after the other: each row is compacted onto the
    indices kept from its original diagonal series. *)
Lemma decorrelate_states_run fuel m0 k0 (N_k : nat -> nat) (u : matrix) :
  (forall k l n, k0 <= k -> u k l n = u_kln k l n) ->
  (forall k, k0 <= k < k0 + m0 -> (1 <= g_of k)%Q) ->
  total_iterations < fuel ->
  exists N_k' u',
    decorrelate_states detectEquilibration statisticalInefficiency n_lambda
      total_iterations fuel (seq k0 m0) (N_k, u)
    = Some (Ok (N_k', u'))
    /\ (forall k l n, k0 + m0 <= k -> u' k l n = u_kln k l n)
    /\ (forall k, k < k0 -> N_k' k = N_k k /\ forall l n, u' k l n = u k l n)
    /\ (forall k, k0 <= k < k0 + m0 ->
        (exists indices : list Z,
          subsampleCorrelatedData statisticalInefficiency fuel
            (diagonal_series total_iterations u_kln k) (g_of k)
          = Some (Ok indices)
          /\ N_k' k = length indices
          /\ N_k' k <= total_iterations
          /\ (forall i j a b,
                i < j -> indices !! i = Some a -> indices !! j = Some b ->
                (a < b)%Z)
          /\ (forall l j t,
                l < n_lambda -> indices !! j = Some t ->
                (0 <= t < Z.of_nat total_iterations)%Z
                /\ u' k l j = u_kln k l (Z.to_nat t))
          /\ (0 < total_iterations -> indices !! 0 = Some 0%Z))).
Proof.
  revert k0 N_k u. induction m0 as [|m0 IH]; intros k0 N_k u Hrows Hg Hfuel.
  - exists N_k, u. simpl. split; [done|]. split; [|split].
    + intros k l n Hk. apply Hrows. lia.
    + done.
    + intros k Hk. lia.
  - cbn [seq decorrelate_states].
    destruct (decorrelate_state_run fuel k0 N_k u) as (m & Hrun & Hm & Hall & Hpos & Hstate);
      [intros; by apply Hrows | apply Hg; lia | done |].
    rewrite Hstate.
    set (columns := (fun i => Z.to_nat (kept (g_of k0) i)) <$> seq 0 m) in *.
    destruct (IH (S k0) (set_count N_k k0 m) (compact_row n_lambda u k0 columns))
      as (N_k' & u' & Hcell & Hafter & Hbefore & Hdone).
    { intros k l n Hk. unfold compact_row. rewrite decide_False by lia.
      apply Hrows. lia. }
    { intros k Hk. apply Hg. lia. }
    { done. }
    exists N_k', u'. split; [exact Hcell|]. split; [|split].
    + intros k l n Hk. apply Hafter. lia.
    + intros k Hk. destruct (Hbefore k ltac:(lia)) as [HN Hu]. split.
      * rewrite HN. unfold set_count. by rewrite decide_False by lia.
      * intros l n. rewrite Hu. unfold compact_row. by rewrite decide_False by lia.
    + intros k Hk. destruct (decide (k = k0)) as [->|Hne]; [|apply Hdone; lia].
      destruct (Hbefore k0 ltac:(lia)) as [HN Hu].
      exists (kept (g_of k0) <$> seq 0 m).
      split; [exact Hrun|].
      assert (N_k' k0 = m) as HNm.
      { rewrite HN. unfold set_count. by rewrite decide_True. }
      rewrite length_fmap, length_seq.
      split; [exact HNm|]. split; [lia|]. split; [|split].
      * intros i j a b Hij Ha Hb.
        rewrite list_lookup_fmap in Ha, Hb.
        destruct (seq 0 m !! i) as [i'|] eqn:Ei; [|done].
        destruct (seq 0 m !! j) as [j'|] eqn:Ej; [|done].
        apply lookup_seq in Ei as [-> _]. apply lookup_seq in Ej as [-> _].
        injection Ha as <-. injection Hb as <-.
        apply kept_monotone; [apply Hg; lia | lia].
      * intros l j t Hl Ht.
        rewrite list_lookup_fmap in Ht.
        destruct (seq 0 m !! j) as [j'|] eqn:Ej; [|done].
        apply lookup_seq in Ej as [-> Hj]. injection Ht as <-.
        split; [apply Hall; lia|].
        rewrite Hu. unfold compact_row.
        rewrite decide_True by (unfold columns; rewrite length_fmap, length_seq; lia).
        unfold columns. rewrite list_lookup_fmap, lookup_seq_lt by lia.
        cbn [fmap option_fmap option_map default Datatypes.id].
        apply Hrows. lia.
      * intros HT. specialize (Hpos HT).
        rewrite list_lookup_fmap, lookup_seq_lt by lia.
        cbn [fmap option_fmap option_map]. by rewrite kept_0.
Qed.

(** C6. When the statistical inefficiency returned for every state is at
    least 1 (what the utility returns), the decorrelation cell ends, and
    for every state k: N_k[k] is the number of retained indices and is
    at most the number of production blocks; the retained indices
    increase strictly; and for every evaluation state l the first N_k[k]
    entries of u[k, l, :] are the entries that u[k, l, :] had, before the
    cell ran, at the retained indices. *)
Theorem decorrelation_compacts_every_row fuel :
  (forall k, k < n_lambda -> (1 <= g_of k)%Q) ->
  total_iterations < fuel ->
  exists N_k u',
    decorrelation_cell detectEquilibration statisticalInefficiency n_lambda
      total_iterations fuel u_kln
    = Some (Ok (N_k, u'))
    /\ forall k, k < n_lambda ->
       exists indices : list Z,
         subsampleCorrelatedData statisticalInefficiency fuel
           (diagonal_series total_iterations u_kln k) (g_of k)
         = Some (Ok indices)
         /\ N_k k = length indices
         /\ N_k k <= total_iterations
         /\ (forall i j a b,
               i < j -> indices !! i = Some a -> indices !! j = Some b ->
               (a < b)%Z)
         /\ (forall l j t,
               l < n_lambda -> indices !! j = Some t ->
               (0 <= t < Z.of_nat total_iterations)%Z
               /\ u' k l j = u_kln k l (Z.to_nat t)).
Proof.
  intros Hg Hfuel. unfold decorrelation_cell, range.
  destruct (decorrelate_states_run fuel n_lambda 0 (fun _ => 0) u_kln)
    as (N_k & u' & Hcell & _ & _ & Hrows); [done | intros; apply Hg; lia | done |].
  exists N_k, u'. split; [exact Hcell|].
  intros k Hk.
  destruct (Hrows k ltac:(lia)) as (indices & H1 & H2 & H3 & H4 & H5 & _).
  by exists indices.
Qed.

End Cell_properties.

Lemma decorrelation_compacts_every_row_witness :
  let detectEquilibration := fun _ : list R => (0, (3 # 2)%Q, 2%Q) in
  let statisticalInefficiency := fun _ : list R => 1%Q in
  let u_kln : matrix := fun k l n => INR (k + l + n) in
  (forall k, k < 2 ->
     (1 <= (detectEquilibration (diagonal_series 4 u_kln k)).1.2)%Q)
  /\ 4 < 5
  /\ exists N_k u',
    decorrelation_cell detectEquilibration statisticalInefficiency 2 4 5 u_kln
    = Some (Ok (N_k, u'))
    /\ forall k, k < 2 ->
       exists indices : list Z,
         subsampleCorrelatedData statisticalInefficiency 5
           (diagonal_series 4 u_kln k)
           (detectEquilibration (diagonal_series 4 u_kln k)).1.2
         = Some (Ok indices)
         /\ N_k k = length indices
         /\ N_k k <= 4
         /\ (forall i j a b,
               i < j -> indices !! i = Some a -> indices !! j = Some b ->
               (a < b)%Z)
         /\ (forall l j t,
               l < 2 -> indices !! j = Some t ->
               (0 <= t < Z.of_nat 4)%Z
               /\ u' k l j = u_kln k l (Z.to_nat t)).
Proof.
  intros detectEquilibration statisticalInefficiency u_kln.
  assert (forall k, k < 2 ->
            (1 <= (detectEquilibration (diagonal_series 4 u_kln k)).1.2)%Q) as Hg
    by (intros k Hk; simpl; Lqa.lra).
  assert (4 < 5) as Hfuel by lia.
  split; [exact Hg|]. split; [exact Hfuel|].
  exact (decorrelation_compacts_every_row detectEquilibration
           statisticalInefficiency 2 4 u_kln 5 Hg Hfuel).
Defined.

(** C5 on a run of the cell.  The utility reports 3 burn-in samples and
    a statistical inefficiency of 2 for a series of 8 samples; the cell
    subsamples the whole series, keeps the indices 0, 2, 4, 6, and
    copies the samples 0 and 2 of the burn-in prefix into the first two
    columns. *)
Lemma burn_in_samples_are_retained (u_kln : matrix) :
  let detectEquilibration := fun _ : list R => (3, 2%Q, 4%Q) in
  let statisticalInefficiency := fun _ : list R => 1%Q in
  let nequil := (detectEquilibration (diagonal_series 8 u_kln 0)).1.1 in
  exists N_k u',
    decorrelation_cell detectEquilibration statisticalInefficiency 1 8 9 u_kln
    = Some (Ok (N_k, u'))
    /\ subsampleCorrelatedData statisticalInefficiency 9
         (diagonal_series 8 u_kln 0) 2%Q
       = Some (Ok [0; 2; 4; 6]%Z)
    /\ nequil = 3
    /\ N_k 0 = 4
    /\ u' 0 0 0 = u_kln 0 0 0
    /\ u' 0 0 1 = u_kln 0 0 2.
Proof.
  intros detectEquilibration statisticalInefficiency nequil.
  exists (set_count (fun _ => 0) 0 4), (compact_row 1 u_kln 0 [0; 2; 4; 6]).
  repeat split; reflexivity.
Qed.


Lemma samples_share_the_microstate_of_their_state_witness :
  let lambda_values := [0; 1 / 2; 1]%R in
  let simulation := mkSimulation (∅ : gmap string R) 0%R in
  let r :=
    alchemical_run drift_step drift_energy "lambda_sterics" lambda_values
      2 1 2 (5 / 2) simulation (fun _ _ _ => 0%R) in
  lambda_values !! 1 = Some (1 / 2)%R
  /\ lambda_values !! 2 = Some 1%R
  /\ 1 < 2
  /\ r.2 1 2 1
     = (drift_energy (setParameter ∅ "lambda_sterics" 1)
          (sampled drift_step "lambda_sterics" lambda_values 2 1 2 ∅ 0%R
             1 (1 / 2) 1)
        / (5 / 2))%R.
Proof.
  intros lambda_values simulation r.
  split; [reflexivity|]. split; [reflexivity|]. split; [lia|].
  apply (proj1 (samples_share_the_microstate_of_their_state R drift_step
                  drift_energy "lambda_sterics" lambda_values 2 1 2 (5 / 2)
                  simulation (fun _ _ _ => 0%R)));
    [reflexivity | reflexivity | lia].
Defined.

(** ** Names bound by the cells *)

Section Preservation.

Variable I : gmap string value -> Prop.

Lemma preserves_ret {A : Type} (a : A) : preserves I (mret a).
Proof. by intros k H. Qed.

Lemma preserves_load name : preserves I (load name).
Proof. intros k H. unfold load. by destruct (names k !! name). Qed.

Lemma preserves_print line : preserves I (print line).
Proof. by intros k H. Qed.

Lemma preserves_call library f args : preserves I (call library f args).
Proof. by intros k H. Qed.

Lemma preserves_assign name v :
  (forall m, I m -> I (<[name := v]> m)) -> preserves I (assign name v).
Proof. intros Hs k H. by apply Hs. Qed.

Lemma preserves_bind {A B : Type} (m : action A) (f : A -> action B) :
  preserves I m -> (forall a, preserves I (f a)) -> preserves I (m ≫= f).
Proof.
  intros Hm Hf k H. unfold mbind, action_bind.
  specialize (Hm k H). destruct (m k) as [[a|e] k']; simpl in *; [|done].
  by apply Hf.
Qed.

Lemma preserves_import library module imported :
  (forall name v m, name ∈ imported -> I m -> I (<[name := v]> m)) ->
  preserves I (import_names library module imported).
Proof.
  intros Hs. unfold import_names.
  apply preserves_bind; [apply preserves_call|]. intros _.
  induction imported as [|name imported IH]; [apply preserves_ret|].
  cbn [foldr]. apply preserves_bind.
  - apply preserves_assign. intros m. apply Hs. apply elem_of_cons. by left.
  - intros _. apply IH. intros name' v m Hin. apply Hs.
    apply elem_of_cons. by right.
Qed.

Lemma preserves_cells (cells : list (action unit)) k :
  Forall (preserves I) cells ->
  I (names k) -> I (names (run_cells cells k).2).
Proof.
  intros H. revert k. induction H as [|cell cells Hcell _ IH]; intros k Hk; [done|].
  simpl. apply IH. by apply Hcell.
Qed.

(** "Run All" does not get past a cell that raises whenever the
    property holds, when the cells before it preserve the property. *)
Lemma run_all_stops (cells : list (action unit)) (cell : action unit) rest k :
  Forall (preserves I) cells ->
  (forall k, I (names k) -> exists e, cell k = (Raise e, k)) ->
  I (names k) ->
  exists rs e k',
    run_all (cells ++ cell :: rest) k = (rs ++ [Raise e], k')
    /\ length rs <= length cells
    /\ I (names k')
    /\ (length rs = length cells -> cell k' = (Raise e, k')).
Proof.
  intros Hcells Hcell. revert k.
  induction Hcells as [|c cells Hc _ IH]; intros k Hk.
  - destruct (Hcell k Hk) as [e He]. exists [], e, k. simpl. rewrite He.
    by repeat split.
  - cbn [app run_all]. pose proof (Hc k Hk) as Hk'.
    destruct (c k) as [[[]|e] k1]; cbn [snd] in Hk'.
    + destruct (IH k1 Hk') as (rs & e & k' & Hrun & Hlen & HI & Hlast).
      exists (Ok tt :: rs), e, k'. rewrite Hrun. cbn [fst snd app length].
      repeat split; [lia | done | intros; apply Hlast; lia].
    + exists [], e, k1. cbn [app length]. repeat split; [lia | done | lia].
Qed.

End Preservation.

Ltac solve_preserves stable :=
  repeat first
    [ apply preserves_bind; [|intros ?]
    | apply preserves_import; stable
    | apply preserves_assign; stable
    | apply preserves_ret | apply preserves_load | apply preserves_print
    | apply preserves_call ].

Ltac inputs_stay_unbound :=
  let m := fresh "m" in
  let H := fresh "H" in
  intros; match goal with
          | Hin : _ ∈ _ |- _ => set_unfold in Hin
          | _ => idtac
          end;
  match goal with
  | Hm : inputs_unbound _ |- inputs_unbound _ =>
      destruct Hm as (H1 & H2 & H3);
      repeat split; rewrite lookup_insert_ne; try done;
      intuition (subst; discriminate)
  end.

Section Electrostatics_notebook.

Variable library : string -> list value -> result value.

Lemma elec_cells_before_loading_preserve :
  Forall (preserves inputs_unbound) (elec_cells_before_loading library).
Proof.
  unfold elec_cells_before_loading.
  repeat apply Forall_cons_2; try apply Forall_nil_2;
    unfold elec_imports, elec_def_add_lambda_elec, elec_def_create_custom_LJ,
      elec_def_turn_off_nonbonded, def, elec_setup, elec_platform;
    solve_preserves inputs_stay_unbound.
Qed.

(** The loading cell stops at its first unbound name. *)
Lemma elec_load_inputs_raises k :
  names k !! "build_folder" = None ->
  elec_load_inputs library k
  = (Raise (NameError (match names k !! "AmberPrmtopFile" with
                       | Some _ => "build_folder"
                       | None => "AmberPrmtopFile"
                       end)), k).
Proof.
  intros H. unfold elec_load_inputs, mbind, action_bind, load.
  destruct (names k !! "AmberPrmtopFile"); [|done].
  by rewrite H.
Qed.

Lemma elec_select_atoms_raises k :
  names k !! "prmtop" = None ->
  elec_select_atoms library k = (Raise (NameError "prmtop"), k).
Proof. intros H. unfold elec_select_atoms, mbind, action_bind, load. by rewrite H. Qed.

Lemma elec_create_system_raises k :
  names k !! "prmtop" = None ->
  elec_create_system library k = (Raise (NameError "prmtop"), k).
Proof. intros H. unfold elec_create_system, mbind, action_bind, load. by rewrite H. Qed.

End Electrostatics_notebook.

Lemma bind_returns {A B : Type} (m : action A) (f : A -> action B) k b :
  ((m ≫= f) k).1 = Ok b ->
  exists a k1, m k = (Ok a, k1) /\ (m ≫= f) k = f a k1.
Proof.
  unfold mbind, action_bind. destruct (m k) as [[a|e] k1]; [|done].
  intros _. by exists a, k1.
Qed.

Lemma assign_bind {B : Type} name v (f : unit -> action B) k :
  (assign name v ≫= f) k = f tt (mkKernel (<[name := v]> (names k)) (stdout k)).
Proof. reflexivity. Qed.

Ltac stays_bound :=
  intros; match goal with
          | |- is_Some (<[?n := _]> _ !! ?x) =>
              destruct (decide (n = x)) as [->|];
              [rewrite lookup_insert_eq; by eexists
              |by rewrite lookup_insert_ne]
          end.

Lemma bound_after_import library module imported name k :
  (import_names library module imported k).1 = Ok tt ->
  name ∈ imported ->
  is_Some (names (import_names library module imported k).2 !! name).
Proof.
  unfold import_names. intros Hok Hin.
  destruct (bind_returns _ _ _ _ Hok) as (v & k1 & _ & ->). clear Hok.
  revert k1. induction imported as [|n imported IH]; intros k1.
  { by apply elem_of_nil in Hin. }
  cbn [foldr]. unfold mbind at 1, action_bind at 1. cbn [assign].
  apply elem_of_cons in Hin as [->|Hin].
  - set (k2 := mkKernel _ _).
    assert (is_Some (names k2 !! n)) as Hb
      by (unfold k2; simpl; rewrite lookup_insert_eq; by eexists).
    revert Hb. generalize k2. clear.
    induction imported as [|n' imported IH]; intros k Hb; [done|].
    cbn [foldr]. unfold mbind at 1, action_bind at 1. cbn [assign].
    apply IH. simpl. stays_bound.
  - by apply IH.
Qed.

Lemma run_all_cons (cell : action unit) rest k :
  run_all (cell :: rest) k =
    match cell k with
    | (Ok tt, k') => (Ok tt :: (run_all rest k').1, (run_all rest k').2)
    | (Raise e, k') => ([Raise e], k')
    end.
Proof. reflexivity. Qed.

Section Electrostatics_run.

Variable library : string -> list value -> result value.

Lemma prmtop_class_bound_after_imports k :
  (elec_imports library k).1 = Ok tt ->
  is_Some (names (elec_imports library k).2 !! "AmberPrmtopFile").
Proof.
  unfold elec_imports. intros H.
  do 5 (let a := fresh "a" in
        let k' := fresh "k" in
        let E := fresh "E" in
        destruct (bind_returns _ _ _ _ H) as (a & k' & E & H');
        rewrite H' in H |- *; clear H' E).
  destruct (bind_returns _ _ _ _ H) as ([] & k' & E & H').
  rewrite H'. clear H H'.
  apply (preserves_import (fun m => is_Some (m !! "AmberPrmtopFile")));
    [stays_bound|].
  match type of E with
  | import_names _ ?module ?imported ?k0 = _ =>
      pose proof (bound_after_import library module imported "AmberPrmtopFile" k0)
        as Hb
  end.
  rewrite E in Hb. apply Hb; [done|]. apply elem_of_cons. by left.
Qed.

(** C10.  In a kernel that was just started, with the imports of the
    first cell succeeding, whatever the library calls of the other cells
    do: the setup cell binds builf_folder; after the cells before the
    loading cell, build_folder is unbound and the loading cell raises
    NameError for build_folder; prmtop and system are still unbound
    after the cell that would construct the system; and "Run All" stops
    at the loading cell or before it. *)
Theorem loading_cell_raises_name_error :
  (elec_imports library fresh_kernel).1 = Ok tt ->
  let before := run_cells (elec_cells_before_loading library) fresh_kernel in
  let after :=
    run_cells [elec_load_inputs library; elec_select_atoms library;
               elec_create_system library] before.2 in
  (forall k, names (elec_setup library k).2 !! "builf_folder"
             = Some (Str "build_files"))
  /\ names before.2 !! "build_folder" = None
  /\ elec_load_inputs library before.2
     = (Raise (NameError "build_folder"), before.2)
  /\ after.1 = [Raise (NameError "build_folder"); Raise (NameError "prmtop");
                Raise (NameError "prmtop")]
  /\ names after.2 !! "prmtop" = None
  /\ names after.2 !! "system" = None
  /\ exists rs e k',
      run_all (elec_cells library) fresh_kernel = (rs ++ [Raise e], k')
      /\ length rs <= 6
      /\ names k' !! "system" = None
      /\ (length rs = 6 -> e = NameError "build_folder").
Proof.
  intros Himports before after.
  assert (inputs_unbound (names before.2)) as (Hb & Hp & Hs).
  { apply preserves_cells; [apply elec_cells_before_loading_preserve|].
    by repeat split. }
  assert (is_Some (names before.2 !! "AmberPrmtopFile")) as [cls Hcls].
  { unfold before, elec_cells_before_loading. cbn [run_cells fst snd].
    apply (preserves_cells (fun m => is_Some (m !! "AmberPrmtopFile"))
             [elec_def_add_lambda_elec; elec_def_create_custom_LJ;
              elec_def_turn_off_nonbonded; elec_setup library;
              elec_platform library]).
    - repeat apply Forall_cons_2; try apply Forall_nil_2;
        unfold elec_def_add_lambda_elec, elec_def_create_custom_LJ,
          elec_def_turn_off_nonbonded, def, elec_setup, elec_platform;
        solve_preserves stays_bound.
    - by apply prmtop_class_bound_after_imports. }
  assert (elec_load_inputs library before.2
          = (Raise (NameError "build_folder"), before.2)) as Hload.
  { rewrite elec_load_inputs_raises by done. by rewrite Hcls. }
  split.
  { intros k. unfold elec_setup. rewrite assign_bind.
    match goal with
    | |- names (?rest ?k1).2 !! _ = _ =>
        assert (preserves
                  (fun m => m !! "builf_folder" = Some (Str "build_files"))
                  rest) as Hrest
          by solve_preserves ltac:(intros; by rewrite lookup_insert_ne);
        apply (Hrest k1)
    end.
    apply lookup_insert_eq. }
  split; [exact Hb|]. split; [exact Hload|].
  assert (after = ([Raise (NameError "build_folder"); Raise (NameError "prmtop");
                    Raise (NameError "prmtop")], before.2)) as ->.
  { unfold after. cbn [run_cells]. rewrite Hload. cbn [fst snd].
    rewrite elec_select_atoms_raises by done. cbn [fst snd].
    rewrite elec_create_system_raises by done. done. }
  split; [done|]. split; [exact Hp|]. split; [exact Hs|].
  (* Run All: the import cell returns, the other cells are run from its kernel *)
  unfold elec_cells, elec_cells_before_loading. cbn [app].
  rewrite run_all_cons.
  pose proof (prmtop_class_bound_after_imports fresh_kernel Himports) as Hbound.
  assert (inputs_unbound (names (elec_imports library fresh_kernel).2)) as Hunbound.
  { pose proof (elec_cells_before_loading_preserve library) as Hall.
    apply Forall_cons_1 in Hall as [Himp _]. apply Himp. by repeat split. }
  destruct (elec_imports library fresh_kernel) as [[[]|?] k1]; [|done].
  cbn [snd] in Hbound, Hunbound.
  destruct (run_all_stops
              (fun m => inputs_unbound m /\ is_Some (m !! "AmberPrmtopFile"))
              [elec_def_add_lambda_elec; elec_def_create_custom_LJ;
               elec_def_turn_off_nonbonded; elec_setup library;
               elec_platform library]
              (elec_load_inputs library)
              [elec_select_atoms library; elec_create_system library] k1)
    as (rs & e & k' & Hrun & Hlen & ((Hb' & _ & Hs') & [cls' Hcls']) & Hlast).
  { repeat apply Forall_cons_2; try apply Forall_nil_2;
      unfold elec_def_add_lambda_elec, elec_def_create_custom_LJ,
        elec_def_turn_off_nonbonded, def, elec_setup, elec_platform;
      solve_preserves
        ltac:(intros ? [? ?]; split; [inputs_stay_unbound | stays_bound]). }
  { intros k [(H1 & _) _]. rewrite elec_load_inputs_raises by done. by eexists. }
  { by split. }
  cbn [app] in Hrun. rewrite Hrun. cbn [fst snd].
  exists (Ok tt :: rs), e, k'. split; [done|].
  split; [simpl in *; lia|]. split; [exact Hs'|].
  intros Hrs. rewrite elec_load_inputs_raises, Hcls' in Hlast by exact Hb'.
  cbn [length] in Hrs, Hlast.
  assert (length rs = 5) as Hrs' by lia.
  specialize (Hlast Hrs'). by injection Hlast as <-.
Qed.

End Electrostatics_run.

Lemma loading_cell_raises_name_error_witness :
  (elec_imports obliging_library fresh_kernel).1 = Ok tt
  /\ elec_load_inputs obliging_library
       (run_cells (elec_cells_before_loading obliging_library) fresh_kernel).2
     = (Raise (NameError "build_folder"),
        (run_cells (elec_cells_before_loading obliging_library) fresh_kernel).2).
Proof.
  assert ((elec_imports obliging_library fresh_kernel).1 = Ok tt) as H
    by reflexivity.
  split; [exact H|].
  exact (proj1 (proj2 (proj2 (loading_cell_raises_name_error obliging_library H)))).
Defined.


(** ** The force-field selection cell of the example notebook *)

Lemma load_bind {B : Type} name v (f : value -> action B) k :
  names k !! name = Some v -> (load name ≫= f) k = f v k.
Proof. intros H. unfold mbind, action_bind, load. by rewrite H. Qed.

Lemma load_unbound {B : Type} name (f : value -> action B) k :
  names k !! name = None -> (load name ≫= f) k = (Raise (NameError name), k).
Proof. intros H. unfold mbind, action_bind, load. by rewrite H. Qed.

Lemma call_bind {B : Type} library function arguments v (f : value -> action B) k :
  library function arguments = Ok v ->
  (call library function arguments ≫= f) k = f v k.
Proof. intros H. unfold mbind, action_bind, call. by rewrite H. Qed.

Lemma print_bind {B : Type} line (f : unit -> action B) k :
  (print line ≫= f) k = f tt (mkKernel (names k) (stdout k ++ [line])).
Proof. reflexivity. Qed.

Lemma bind_bind {A B C : Type} (m : action A) (f : A -> action B)
    (g : B -> action C) k :
  ((m ≫= f) ≫= g) k = (m ≫= (fun a => f a ≫= g)) k.
Proof.
  unfold mbind, action_bind. destruct (m k) as [[a|e] k1]; [|done].
  by destruct (f a k1) as [[b|e] k2].
Qed.

(** C9 (amended): for a name that is neither GAFF nor SAGE the cell
    creates the water force field, prints the warning and the line that
    names the force field, binds no template generator, and then raises
    NameError for [template] at its last statement: the failure is in
    the selection cell itself, not in a later one. *)
Theorem unknown_force_field_fails_in_the_selection_cell
    (library : string -> list value -> result value)
    (k : kernel) (openmm forcefield : value) (name : string) :
  names k !! "openmm" = Some openmm ->
  library "openmm.app.ForceField" [openmm; Str "tip3p.xml"] = Ok forcefield ->
  names k !! "forcefield_name" = Some (Str name) ->
  upper name <> "GAFF" ->
  upper name <> "SAGE" ->
  names k !! "template" = None ->
  let after := select_force_field library k in
  after.1 = Raise (NameError "template")
  /\ names after.2 = <["forcefield" := forcefield]> (names k)
  /\ names after.2 !! "template" = None
  /\ stdout after.2 =
       stdout k ++ ["Unknow force field, cannot preceed.";
                    "Using force field: " +:+ name].
Proof.
  intros Hopenmm Hcall Hname Hgaff Hsage Htemplate after.
  assert (forall m : gmap string value,
            m !! "forcefield_name" = Some (Str name) ->
            <["forcefield" := forcefield]> m !! "forcefield_name"
            = Some (Str name)) as Hkeep
    by (intros m Hm; by rewrite lookup_insert_ne).
  assert (after =
            (Raise (NameError "template"),
             mkKernel (<["forcefield" := forcefield]> (names k))
               (stdout k ++ ["Unknow force field, cannot preceed."]
                  ++ ["Using force field: " +:+ name]))) as ->.
  { unfold after, select_force_field.
    rewrite (load_bind _ _ _ _ Hopenmm), (call_bind _ _ _ _ _ _ Hcall).
    rewrite assign_bind.
    rewrite load_bind with (v := Str name) by (by apply Hkeep).
    cbn [str]. apply String.eqb_neq in Hgaff, Hsage. rewrite Hgaff.
    rewrite bind_bind.
    rewrite load_bind with (v := Str name) by (by apply Hkeep).
    cbn [str]. rewrite Hsage. rewrite print_bind.
    rewrite load_bind with (v := Str name) by (by apply Hkeep).
    rewrite print_bind.
    rewrite load_bind with (v := forcefield) by apply lookup_insert_eq.
    rewrite load_unbound by (cbn [names]; by rewrite lookup_insert_ne).
    cbn [str names stdout]. by rewrite <- app_assoc. }
  cbn [fst snd names stdout]. repeat split.
  by rewrite lookup_insert_ne.
Qed.

Lemma unknown_force_field_fails_in_the_selection_cell_witness :
  let after := select_force_field obliging_library amber_kernel in
  after.1 = Raise (NameError "template")
  /\ names after.2
     = <["forcefield" := Object "openmm.app.ForceField"]> (names amber_kernel)
  /\ names after.2 !! "template" = None
  /\ stdout after.2 =
       stdout amber_kernel ++ ["Unknow force field, cannot preceed.";
                               "Using force field: " +:+ "amber14"].
Proof.
  apply (unknown_force_field_fails_in_the_selection_cell obliging_library
           amber_kernel (Object "openmm") (Object "openmm.app.ForceField")
           "amber14").
  - reflexivity.
  - reflexivity.
  - reflexivity.
  - vm_compute. discriminate.
  - vm_compute. discriminate.
  - reflexivity.
Defined.

(** C9 as stated fails: for the name amber14 the selection cell does not
    return; after the two printed lines it raises NameError for
    [template], whatever the library calls do. *)
Lemma unknown_force_field_raises_in_the_cell :
  upper "amber14" <> "GAFF"
  /\ upper "amber14" <> "SAGE"
  /\ (select_force_field obliging_library amber_kernel).1
     = Raise (NameError "template")
  /\ (select_force_field obliging_library amber_kernel).1 <> Ok tt
  /\ stdout (select_force_field obliging_library amber_kernel).2
     = ["Unknow force field, cannot preceed."; "Using force field: amber14"].
Proof.
  assert (select_force_field obliging_library amber_kernel
          = (Raise (NameError "template"),
             mkKernel (<["forcefield" := Object "openmm.app.ForceField"]>
                         (names amber_kernel))
               ["Unknow force field, cannot preceed.";
                "Using force field: amber14"])) as ->
    by (vm_compute; reflexivity).
  cbn [fst snd stdout]. repeat split; try discriminate.
  all: vm_compute; discriminate.
Qed.

(** * Further properties of the notebooks' code *)

(** ** What the force-construction functions add and what they keep *)

Lemma custom_forces_are_not_nonbonded c b :
  Forall (fun f => match f with FNonbonded _ => False | _ => True end)
         [FCustomNonbonded c; FCustomBond b].
Proof. by repeat constructor. Qed.

(** X1. [add_LJ_scaling] appends its two forces after the forces the
    system has and changes none of them, the base NonbondedForce
    included: its Lennard-Jones parameters stay in place until
    [turn_off_nonbonded] is called.  The function is not idempotent: a
    second call with the same arguments appends a second copy of the
    same two forces. *)
Theorem add_LJ_scaling_appends_and_keeps
    system molecule solvent lambda_value force_group_1 force_group_2 system1 :
  add_LJ_scaling system molecule solvent lambda_value
    force_group_1 force_group_2 = Ok system1 ->
  length system1 = length system + 2
  /\ take (length system) system1 = system
  /\ nonbonded_forces system1 = nonbonded_forces system
  /\ (exists intermol_LJ intramol_LJ,
        drop (length system) system1
        = [FCustomNonbonded intermol_LJ; FCustomBond intramol_LJ])
  /\ add_LJ_scaling system1 molecule solvent lambda_value
       force_group_1 force_group_2
     = Ok (system1 ++ drop (length system) system1).
Proof.
  rewrite add_LJ_scaling_closed.
  destruct (nonbonded_forces system) as [|[k nonbonded] rest] eqn:Hnb; [done|].
  intros [= <-].
  assert (nonbonded_forces
            (system ++
               [FCustomNonbonded
                  (softcore_force nonbonded molecule solvent lambda_value
                     force_group_1);
                FCustomBond (intramolecular_force nonbonded molecule force_group_2)])
          = (k, nonbonded) :: rest) as Hnb1.
  { rewrite nonbonded_forces_custom by apply custom_forces_are_not_nonbonded.
    exact Hnb. }
  split; [rewrite length_app; simpl; lia|].
  split; [by rewrite take_app_length|].
  split; [exact Hnb1|].
  rewrite drop_app_length.
  split; [by eexists _, _|].
  by rewrite add_LJ_scaling_closed, Hnb1.
Qed.

Lemma add_LJ_scaling_appends_and_keeps_witness :
  let system1 :=
    demo_system
      ++ [FCustomNonbonded (softcore_force demo_nonbonded [0; 1] [2] 0 6);
          FCustomBond (intramolecular_force demo_nonbonded [0; 1] 5)] in
  add_LJ_scaling demo_system [0; 1] [2] 0 6 5 = Ok system1
  /\ length system1 = length demo_system + 2
  /\ take (length demo_system) system1 = demo_system
  /\ nonbonded_forces system1 = nonbonded_forces demo_system
  /\ (exists intermol_LJ intramol_LJ,
        drop (length demo_system) system1
        = [FCustomNonbonded intermol_LJ; FCustomBond intramol_LJ])
  /\ add_LJ_scaling system1 [0; 1] [2] 0 6 5
     = Ok (system1 ++ drop (length demo_system) system1).
Proof.
  intros system1.
  assert (add_LJ_scaling demo_system [0; 1] [2] 0 6 5 = Ok system1) as H
    by (by rewrite add_LJ_scaling_closed).
  split; [exact H|].
  exact (add_LJ_scaling_appends_and_keeps demo_system [0; 1] [2] 0%R 6 5
           system1 H).
Defined.

(** X2. The CustomNonbondedForce built by [add_LJ_scaling] or by
    [create_custom_LJ] has one particle for every particle of the base
    force, in the same order, holding its sigma and its epsilon (the
    charge is not copied); its only interaction group is (molecule,
    solvent); and its method is CutoffPeriodic whatever the method of
    the base force is. *)
Theorem custom_force_particles_mirror_base
    system molecule solvent lambda_value force_group_1 force_group_2
    k nonbonded rest :
  nonbonded_forces system = (k, nonbonded) :: rest ->
  forall intermol_LJ intramol_LJ,
    add_LJ_scaling system molecule solvent lambda_value
      force_group_1 force_group_2
    = Ok (system ++ [FCustomNonbonded intermol_LJ; FCustomBond intramol_LJ])
    \/ create_custom_LJ system molecule solvent force_group_1 force_group_2
       = Ok (system ++ [FCustomNonbonded intermol_LJ; FCustomBond intramol_LJ]) ->
    length (cnb_particles intermol_LJ) = getNumParticles nonbonded
    /\ (forall i p,
          nb_particles nonbonded !! i = Some p ->
          cnb_particles intermol_LJ !! i = Some [p_sigma p; p_epsilon p])
    /\ cnb_perParticleParameters intermol_LJ = ["sigma"; "epsilon"]
    /\ cnb_interactionGroups intermol_LJ = [(molecule, solvent)]
    /\ cnb_nonbondedMethod intermol_LJ = CutoffPeriodic
    /\ cnb_forceGroup intermol_LJ = force_group_1
    /\ cb_forceGroup intramol_LJ = force_group_2.
Proof.
  intros Hnb intermol_LJ intramol_LJ H.
  assert (intermol_LJ
          = softcore_force nonbonded molecule solvent lambda_value force_group_1
            \/ intermol_LJ
               = intermolecular_force nonbonded molecule solvent force_group_1)
    as Hf.
  { destruct H as [H|H];
      [rewrite add_LJ_scaling_closed, Hnb in H
      |rewrite create_custom_LJ_closed, Hnb in H];
      injection H as H; apply app_inv_head in H; injection H as <- _; auto. }
  assert (intramol_LJ = intramolecular_force nonbonded molecule force_group_2)
    as ->.
  { destruct H as [H|H];
      [rewrite add_LJ_scaling_closed, Hnb in H
      |rewrite create_custom_LJ_closed, Hnb in H];
      injection H as H; apply app_inv_head in H; by injection H as _ <-. }
  destruct Hf as [-> | ->]; cbn;
    (split; [by rewrite length_fmap|]);
    (split; [intros i p Hp; by rewrite list_lookup_fmap, Hp|]); done.
Qed.

Lemma custom_force_particles_mirror_base_witness :
  let intermol_LJ := intermolecular_force demo_nonbonded [0; 1] [2] 5 in
  let intramol_LJ := intramolecular_force demo_nonbonded [0; 1] 6 in
  length (cnb_particles intermol_LJ) = getNumParticles demo_nonbonded
  /\ (forall i p,
        nb_particles demo_nonbonded !! i = Some p ->
        cnb_particles intermol_LJ !! i = Some [p_sigma p; p_epsilon p])
  /\ cnb_perParticleParameters intermol_LJ = ["sigma"; "epsilon"]
  /\ cnb_interactionGroups intermol_LJ = [([0; 1], [2])]
  /\ cnb_nonbondedMethod intermol_LJ = CutoffPeriodic
  /\ cnb_forceGroup intermol_LJ = 5
  /\ cb_forceGroup intramol_LJ = 6.
Proof.
  intros intermol_LJ intramol_LJ.
  apply (custom_force_particles_mirror_base demo_system [0; 1] [2] 0%R 5 6
           1 demo_nonbonded [] eq_refl intermol_LJ intramol_LJ).
  right. by rewrite create_custom_LJ_closed.
Defined.

(** X3. The bonds of the CustomBondForce are the exceptions of the base
    force whose two atoms are both in [molecule], with the sigma and
    the epsilon of the exception; an exception with an atom outside the
    molecule gives no bond, and an empty molecule gives no bond at
    all. *)
Theorem bonds_are_the_solute_exceptions
    system molecule solvent lambda_value force_group_1 force_group_2
    k nonbonded rest :
  nonbonded_forces system = (k, nonbonded) :: rest ->
  exists intermol_LJ intramol_LJ,
    add_LJ_scaling system molecule solvent lambda_value
      force_group_1 force_group_2
    = Ok (system ++ [FCustomNonbonded intermol_LJ; FCustomBond intramol_LJ])
    /\ (forall atom_i atom_j parameters,
          (atom_i, atom_j, parameters) ∈ cb_bonds intramol_LJ
          <-> exists e,
              e ∈ nb_exceptions nonbonded
              /\ atom_i = e_atom_i e /\ atom_j = e_atom_j e
              /\ parameters = [e_sigma e; e_epsilon e]
              /\ atom_i ∈ molecule /\ atom_j ∈ molecule)
    /\ length (cb_bonds intramol_LJ) <= getNumExceptions nonbonded
    /\ (molecule = [] -> cb_bonds intramol_LJ = [])
    /\ cb_perBondParameters intramol_LJ = ["sigma"; "epsilon"].
Proof.
  intros Hnb. rewrite add_LJ_scaling_closed, Hnb.
  eexists _, _. split; [reflexivity|].
  cbn [intramolecular_force cb_bonds cb_perBondParameters].
  split; [|split; [|split; [|done]]].
  - intros atom_i atom_j parameters. rewrite list_elem_of_fmap. split.
    + intros (e & Hb & He). apply list_elem_of_filter in He as [Hsol He].
      unfold bond_of in Hb. injection Hb as -> -> ->.
      unfold in_solute, contains in Hsol.
      apply andb_true_iff in Hsol as [Hi Hj].
      apply bool_decide_eq_true_1 in Hi, Hj. by exists e.
    + intros (e & He & -> & -> & -> & Hi & Hj). exists e. split; [done|].
      apply list_elem_of_filter. split; [|done].
      unfold in_solute, contains.
      by rewrite (bool_decide_eq_true_2 _ Hi), (bool_decide_eq_true_2 _ Hj).
  - rewrite length_fmap. apply length_filter.
  - intros ->.
    destruct (filter _ (nb_exceptions nonbonded)) as [|e es] eqn:Hf; [done|].
    assert (e ∈ filter (fun e => in_solute [] e = true) (nb_exceptions nonbonded))
      as He by (rewrite Hf; apply elem_of_cons; by left).
    apply list_elem_of_filter in He as [Hsol _].
    unfold in_solute, contains in Hsol.
    rewrite bool_decide_eq_false_2 in Hsol; [done|apply not_elem_of_nil].
Qed.

Lemma bonds_are_the_solute_exceptions_witness :
  exists intermol_LJ intramol_LJ,
    add_LJ_scaling demo_system [0; 1] [2] 0 6 5
    = Ok (demo_system ++ [FCustomNonbonded intermol_LJ; FCustomBond intramol_LJ])
    /\ (forall atom_i atom_j parameters,
          (atom_i, atom_j, parameters) ∈ cb_bonds intramol_LJ
          <-> exists e,
              e ∈ nb_exceptions demo_nonbonded
              /\ atom_i = e_atom_i e /\ atom_j = e_atom_j e
              /\ parameters = [e_sigma e; e_epsilon e]
              /\ atom_i ∈ [0; 1] /\ atom_j ∈ [0; 1])
    /\ length (cb_bonds intramol_LJ) <= getNumExceptions demo_nonbonded
    /\ ([0; 1] = [] -> cb_bonds intramol_LJ = [])
    /\ cb_perBondParameters intramol_LJ = ["sigma"; "epsilon"].
Proof.
  apply (bonds_are_the_solute_exceptions demo_system [0; 1] [2] 0%R 6 5
           1 demo_nonbonded []).
  reflexivity.
Defined.

(** ** What [turn_off_nonbonded] changes *)

Lemma zeroed_particles_lookup molecule ps i :
  zeroed_particles molecule ps !! i
  = (fun p => if contains molecule i then zero_particle p else p) <$> ps !! i.
Proof. unfold zeroed_particles. by rewrite list_lookup_imap. Qed.

Lemma zeroed_exceptions_lookup molecule es x :
  zeroed_exceptions molecule es !! x
  = (fun e => if in_solute molecule e then zero_exception e else e) <$> es !! x.
Proof. unfold zeroed_exceptions. by rewrite list_lookup_fmap. Qed.

Lemma in_solute_true molecule e :
  in_solute molecule e = true <-> e_atom_i e ∈ molecule /\ e_atom_j e ∈ molecule.
Proof.
  unfold in_solute, contains. rewrite andb_true_iff.
  by rewrite !bool_decide_eq_true.
Qed.

(** X4. [turn_off_nonbonded] sets to zero the charge and the epsilon of
    the atoms of [molecule] and the charge product and the epsilon of
    the exceptions between two of them.  It keeps every sigma, the atoms
    of every exception, the number of particles and of exceptions, the
    particles outside the molecule, the exceptions that have an atom
    outside the molecule, the registered offsets and global parameters,
    the cutoff and the method; the other forces of the system are left
    as they are. *)
Theorem turn_off_nonbonded_frame system molecule k nonbonded rest system' :
  nonbonded_forces system = (k, nonbonded) :: rest ->
  turn_off_nonbonded system molecule = Ok system' ->
  exists nonbonded',
    system' = <[k := FNonbonded nonbonded']> system
    /\ nonbonded_forces system' = (k, nonbonded') :: rest
    /\ getNumParticles nonbonded' = getNumParticles nonbonded
    /\ getNumExceptions nonbonded' = getNumExceptions nonbonded
    /\ (forall atom_i p,
          nb_particles nonbonded !! atom_i = Some p ->
          exists p',
            nb_particles nonbonded' !! atom_i = Some p'
            /\ p_sigma p' = p_sigma p
            /\ (atom_i ∈ molecule -> p_charge p' = 0%R /\ p_epsilon p' = 0%R)
            /\ (atom_i ∉ molecule -> p' = p))
    /\ (forall exception_i e,
          nb_exceptions nonbonded !! exception_i = Some e ->
          exists e',
            nb_exceptions nonbonded' !! exception_i = Some e'
            /\ e_atom_i e' = e_atom_i e /\ e_atom_j e' = e_atom_j e
            /\ e_sigma e' = e_sigma e
            /\ (e_atom_i e ∈ molecule /\ e_atom_j e ∈ molecule ->
                e_chargeprod e' = 0%R /\ e_epsilon e' = 0%R)
            /\ (~ (e_atom_i e ∈ molecule /\ e_atom_j e ∈ molecule) -> e' = e))
    /\ nb_globalParameters nonbonded' = nb_globalParameters nonbonded
    /\ nb_particleOffsets nonbonded' = nb_particleOffsets nonbonded
    /\ nb_exceptionOffsets nonbonded' = nb_exceptionOffsets nonbonded
    /\ nb_cutoffDistance nonbonded' = nb_cutoffDistance nonbonded
    /\ nb_nonbondedMethod nonbonded' = nb_nonbondedMethod nonbonded
    /\ nb_useDispersionCorrection nonbonded'
       = nb_useDispersionCorrection nonbonded.
Proof.
  intros Hnb H. rewrite turn_off_nonbonded_closed, Hnb in H.
  destruct (valid_atoms nonbonded molecule); [|done]. injection H as <-.
  exists (turned_off molecule nonbonded).
  split; [done|].
  split; [exact (nonbonded_forces_insert _ _ _ _ _ Hnb)|].
  unfold getNumParticles, getNumExceptions.
  cbn [turned_off nb_particles nb_exceptions nb_globalParameters
       nb_particleOffsets nb_exceptionOffsets nb_cutoffDistance
       nb_nonbondedMethod nb_useDispersionCorrection].
  split; [unfold zeroed_particles; by rewrite length_imap|].
  split; [unfold zeroed_exceptions; by rewrite length_fmap|].
  split; [|split; [|done]].
  - intros atom_i p Hp. rewrite zeroed_particles_lookup, Hp. cbn.
    eexists. split; [reflexivity|]. unfold contains.
    destruct (decide (atom_i ∈ molecule)) as [Hin|Hin].
    + rewrite (bool_decide_eq_true_2 _ Hin). by repeat split.
    + rewrite (bool_decide_eq_false_2 _ Hin). by repeat split.
  - intros exception_i e He. rewrite zeroed_exceptions_lookup, He. cbn.
    eexists. split; [reflexivity|].
    destruct (in_solute molecule e) eqn:Hsol.
    + apply in_solute_true in Hsol.
      split; [done|]. split; [done|]. split; [done|]. split; [done|].
      intros Hout. by destruct Hout.
    + split; [done|]. split; [done|]. split; [done|]. split; [|done].
      intros Hin. apply in_solute_true in Hin. congruence.
Qed.

Lemma turn_off_nonbonded_frame_witness :
  let molecule := [0; 1] in
  let system' := <[1 := FNonbonded (turned_off molecule demo_nonbonded)]> demo_system in
  turn_off_nonbonded demo_system molecule = Ok system'
  /\ exists nonbonded',
    system' = <[1 := FNonbonded nonbonded']> demo_system
    /\ nonbonded_forces system' = [(1, nonbonded')]
    /\ getNumParticles nonbonded' = getNumParticles demo_nonbonded
    /\ getNumExceptions nonbonded' = getNumExceptions demo_nonbonded
    /\ (forall atom_i p,
          nb_particles demo_nonbonded !! atom_i = Some p ->
          exists p',
            nb_particles nonbonded' !! atom_i = Some p'
            /\ p_sigma p' = p_sigma p
            /\ (atom_i ∈ molecule -> p_charge p' = 0%R /\ p_epsilon p' = 0%R)
            /\ (atom_i ∉ molecule -> p' = p))
    /\ (forall exception_i e,
          nb_exceptions demo_nonbonded !! exception_i = Some e ->
          exists e',
            nb_exceptions nonbonded' !! exception_i = Some e'
            /\ e_atom_i e' = e_atom_i e /\ e_atom_j e' = e_atom_j e
            /\ e_sigma e' = e_sigma e
            /\ (e_atom_i e ∈ molecule /\ e_atom_j e ∈ molecule ->
                e_chargeprod e' = 0%R /\ e_epsilon e' = 0%R)
            /\ (~ (e_atom_i e ∈ molecule /\ e_atom_j e ∈ molecule) -> e' = e))
    /\ nb_globalParameters nonbonded' = nb_globalParameters demo_nonbonded
    /\ nb_particleOffsets nonbonded' = nb_particleOffsets demo_nonbonded
    /\ nb_exceptionOffsets nonbonded' = nb_exceptionOffsets demo_nonbonded
    /\ nb_cutoffDistance nonbonded' = nb_cutoffDistance demo_nonbonded
    /\ nb_nonbondedMethod nonbonded' = nb_nonbondedMethod demo_nonbonded
    /\ nb_useDispersionCorrection nonbonded'
       = nb_useDispersionCorrection demo_nonbonded.
Proof.
  intros molecule system'.
  assert (turn_off_nonbonded demo_system molecule = Ok system') as H
    by (by rewrite turn_off_nonbonded_closed).
  split; [exact H|].
  exact (turn_off_nonbonded_frame demo_system molecule 1 demo_nonbonded []
           system' eq_refl H).
Defined.

Lemma turned_off_twice molecule f :
  turned_off molecule (turned_off molecule f) = turned_off molecule f.
Proof.
  unfold turned_off.
  cbn [nb_particles nb_exceptions nb_globalParameters nb_particleOffsets
       nb_exceptionOffsets nb_cutoffDistance nb_nonbondedMethod
       nb_useDispersionCorrection].
  f_equal.
  - apply list_eq. intros i. rewrite !zeroed_particles_lookup.
    destruct (nb_particles f !! i) as [p|]; [|done].
    cbn [fmap option_fmap option_map].
    by destruct (contains molecule i).
  - apply list_eq. intros x. rewrite !zeroed_exceptions_lookup.
    destruct (nb_exceptions f !! x) as [e|]; [|done].
    cbn [fmap option_fmap option_map].
    destruct (in_solute molecule e) eqn:Hsol; [|by rewrite Hsol].
    assert (in_solute molecule (zero_exception e) = true) as -> by exact Hsol.
    done.
Qed.

Lemma valid_atoms_turned_off molecule molecule' f :
  valid_atoms (turned_off molecule' f) molecule = valid_atoms f molecule.
Proof.
  unfold valid_atoms, getNumParticles. cbn [turned_off nb_particles].
  unfold zeroed_particles. by rewrite length_imap.
Qed.

(** X5. [turn_off_nonbonded] is idempotent: a second call for the same
    molecule returns the system the first call returned. *)
Theorem turn_off_nonbonded_idempotent system molecule system1 :
  turn_off_nonbonded system molecule = Ok system1 ->
  turn_off_nonbonded system1 molecule = Ok system1.
Proof.
  intros H. rewrite turn_off_nonbonded_closed in H.
  destruct (nonbonded_forces system) as [|[k nonbonded] rest] eqn:Hnb; [done|].
  destruct (valid_atoms nonbonded molecule) eqn:Hvalid; [|done].
  injection H as <-.
  rewrite turn_off_nonbonded_closed.
  rewrite (nonbonded_forces_insert _ _ _ _ _ Hnb).
  rewrite valid_atoms_turned_off, Hvalid, turned_off_twice.
  f_equal. apply (list_insert_insert_eq (A := Force)).
Qed.

Lemma turn_off_nonbonded_idempotent_witness :
  let system1 := <[1 := FNonbonded (turned_off [0; 1] demo_nonbonded)]> demo_system in
  turn_off_nonbonded demo_system [0; 1] = Ok system1
  /\ turn_off_nonbonded system1 [0; 1] = Ok system1.
Proof.
  intros system1.
  assert (turn_off_nonbonded demo_system [0; 1] = Ok system1) as H
    by (by rewrite turn_off_nonbonded_closed).
  split; [exact H|].
  exact (turn_off_nonbonded_idempotent demo_system [0; 1] system1 H).
Defined.

(** ** Offsets and the order of the calls *)

Lemma offset_total_zero_scale value scale os index :
  Forall (fun o => scale o = 0%R) os ->
  offset_total value scale os index = 0%R.
Proof.
  induction 1 as [|o os Ho _ IH]; [done|].
  rewrite offset_total_cons, IH, Ho. case_decide; lra.
Qed.

Lemma particle_offsets_scales molecule ps :
  Forall (fun o => o_sigmaScale o = 0%R /\ o_epsilonScale o = 0%R
                   /\ exists p, ps !! o_index o = Some p
                                /\ o_index o ∈ molecule
                                /\ o_chargeScale o = p_charge p)
         (particle_offsets molecule ps).
Proof.
  apply Forall_forall. intros o Ho. unfold particle_offsets in Ho.
  apply list_elem_of_omap in Ho as (atom_i & Hin & Ho).
  destruct (ps !! atom_i) as [p|] eqn:Hp; [|done].
  cbn in Ho. injection Ho as <-. cbn. eauto 10.
Qed.

Lemma exception_offsets_scales molecule k es :
  Forall (fun o => o_sigmaScale o = 0%R /\ o_epsilonScale o = 0%R
                   /\ exists e, e ∈ es /\ in_solute molecule e = true
                                /\ o_chargeScale o = e_chargeprod e)
         (exception_offsets molecule k es).
Proof.
  revert k. induction es as [|e es IH]; intros k; [constructor|].
  cbn [exception_offsets]. apply Forall_app. split.
  - destruct (in_solute molecule e) eqn:Hsol; [|constructor].
    repeat constructor. exists e. repeat split; [|done].
    apply elem_of_cons. by left.
  - eapply Forall_impl; [apply IH|].
    intros o (? & ? & e' & ? & ? & ?). repeat split; try done.
    exists e'. repeat split; try done. apply elem_of_cons. by right.
Qed.

Lemma offset_total_particle_offsets_count value molecule ps i p :
  ps !! i = Some p ->
  offset_total value o_chargeScale (particle_offsets molecule ps) i
  = (INR (length (filter (fun atom_i => atom_i = i) molecule))
     * (value "lambda_electrostatics" * p_charge p))%R.
Proof.
  intros Hp. induction molecule as [|x molecule IH].
  { cbn. lra. }
  cbn [particle_offsets omap list_omap]. rewrite filter_cons.
  destruct (decide (x = i)) as [->|Hne].
  - rewrite Hp. cbn [mbind option_bind].
    rewrite offset_total_cons. cbn [o_index o_parameter o_chargeScale].
    rewrite decide_True by done.
    fold (particle_offsets molecule ps). rewrite IH.
    cbn [length]. rewrite S_INR. lra.
  - destruct (ps !! x) as [q|]; cbn [mbind option_bind]; [|exact IH].
    rewrite offset_total_cons. cbn [o_index].
    rewrite decide_False by done. exact IH.
Qed.

(** X6. [add_lambda_elec] does not scale the charges, it adds to them:
    after the call alone the effective charge of an atom is its charge
    plus lambda times its charge for each time the atom is listed in
    [molecule], and the effective charge product of an exception between
    two atoms of the molecule is (1 + lambda) times its charge product.
    The particles and the exceptions of the force are unchanged, and no
    sigma or epsilon depends on lambda. *)
Theorem add_lambda_elec_adds_to_the_charges
    system molecule lambda_value k nonbonded rest system1 :
  nonbonded_forces system = (k, nonbonded) :: rest ->
  nb_particleOffsets nonbonded = [] ->
  nb_exceptionOffsets nonbonded = [] ->
  add_lambda_elec system molecule lambda_value = Ok system1 ->
  exists nonbonded1,
    nonbonded_forces system1 = (k, nonbonded1) :: rest
    /\ nb_particles nonbonded1 = nb_particles nonbonded
    /\ nb_exceptions nonbonded1 = nb_exceptions nonbonded
    /\ nb_globalParameters nonbonded1
       = nb_globalParameters nonbonded
           ++ [("lambda_electrostatics", lambda_value)]
    /\ forall value : string -> R,
        let lambda := value "lambda_electrostatics" in
        (forall atom_i p,
            nb_particles nonbonded !! atom_i = Some p ->
            let listed := length (filter (fun x => x = atom_i) molecule) in
            effective_charge nonbonded1 value atom_i
            = Some (p_charge p + INR listed * (lambda * p_charge p))%R
            /\ effective_sigma nonbonded1 value atom_i = Some (p_sigma p)
            /\ effective_epsilon nonbonded1 value atom_i = Some (p_epsilon p))
        /\ (forall exception_i e,
            nb_exceptions nonbonded !! exception_i = Some e ->
            effective_chargeprod nonbonded1 value exception_i
            = Some (if in_solute molecule e
                    then (1 + lambda) * e_chargeprod e
                    else e_chargeprod e)%R).
Proof.
  intros Hnb Hpo Heo H. rewrite add_lambda_elec_closed, Hnb in H.
  destruct (valid_atoms nonbonded molecule); [|done]. injection H as <-.
  exists (with_lambda_elec molecule lambda_value nonbonded).
  split; [exact (nonbonded_forces_insert _ _ _ _ _ Hnb)|].
  split; [done|]. split; [done|]. split; [done|].
  intros value lambda. split.
  - intros atom_i p Hp listed.
    unfold effective_charge, effective_sigma, effective_epsilon.
    cbn [with_lambda_elec nb_particles nb_particleOffsets].
    rewrite Hp, Hpo. cbn [app mbind option_bind].
    rewrite (offset_total_particle_offsets_count _ _ _ _ _ Hp).
    rewrite !offset_total_zero_scale.
    + split; [done|]. split; f_equal; lra.
    + eapply Forall_impl; [apply particle_offsets_scales|]. by intros o (? & ? & ?).
    + eapply Forall_impl; [apply particle_offsets_scales|]. by intros o (? & ? & ?).
  - intros exception_i e He. unfold effective_chargeprod.
    cbn [with_lambda_elec nb_exceptions nb_exceptionOffsets].
    rewrite He, Heo. cbn [app mbind option_bind].
    pose proof (offset_total_exception_offsets value molecule 0 _ _ _ He) as T.
    rewrite Nat.add_0_l in T. rewrite T.
    destruct (in_solute molecule e); f_equal; unfold lambda; lra.
Qed.

Lemma add_lambda_elec_adds_to_the_charges_witness :
  let molecule := [0; 1; 1] in
  let system1 :=
    <[1 := FNonbonded (with_lambda_elec molecule 1 demo_nonbonded)]> demo_system in
  add_lambda_elec demo_system molecule 1 = Ok system1
  /\ exists nonbonded1,
    nonbonded_forces system1 = [(1, nonbonded1)]
    /\ nb_particles nonbonded1 = nb_particles demo_nonbonded
    /\ nb_exceptions nonbonded1 = nb_exceptions demo_nonbonded
    /\ nb_globalParameters nonbonded1
       = nb_globalParameters demo_nonbonded ++ [("lambda_electrostatics", 1%R)]
    /\ forall value : string -> R,
        let lambda := value "lambda_electrostatics" in
        (forall atom_i p,
            nb_particles demo_nonbonded !! atom_i = Some p ->
            let listed := length (filter (fun x => x = atom_i) molecule) in
            effective_charge nonbonded1 value atom_i
            = Some (p_charge p + INR listed * (lambda * p_charge p))%R
            /\ effective_sigma nonbonded1 value atom_i = Some (p_sigma p)
            /\ effective_epsilon nonbonded1 value atom_i = Some (p_epsilon p))
        /\ (forall exception_i e,
            nb_exceptions demo_nonbonded !! exception_i = Some e ->
            effective_chargeprod nonbonded1 value exception_i
            = Some (if in_solute molecule e
                    then (1 + lambda) * e_chargeprod e
                    else e_chargeprod e)%R).
Proof.
  intros molecule system1.
  assert (add_lambda_elec demo_system molecule 1 = Ok system1) as H
    by (rewrite add_lambda_elec_closed; reflexivity).
  split; [exact H|].
  exact (add_lambda_elec_adds_to_the_charges demo_system molecule 1%R 1
           demo_nonbonded [] system1 eq_refl eq_refl eq_refl H).
Defined.

Lemma valid_atoms_with_lambda_elec molecule molecule' lambda_value f :
  valid_atoms (with_lambda_elec molecule' lambda_value f) molecule
  = valid_atoms f molecule.
Proof. reflexivity. Qed.

(** X7. The order of the two calls matters.  When [turn_off_nonbonded]
    is called before [add_lambda_elec], the offsets are registered with
    the charges already set to zero: the effective charge of every atom
    of the molecule, and the effective charge product of every exception
    between two of them, is zero for every value of
    lambda_electrostatics, and the charges of the molecule cannot be
    turned back on. *)
Theorem offsets_after_turning_off_are_zero
    system molecule lambda_value k nonbonded rest system1 system2 :
  nonbonded_forces system = (k, nonbonded) :: rest ->
  nb_particleOffsets nonbonded = [] ->
  nb_exceptionOffsets nonbonded = [] ->
  turn_off_nonbonded system molecule = Ok system1 ->
  add_lambda_elec system1 molecule lambda_value = Ok system2 ->
  exists nonbonded2,
    nonbonded_forces system2 = (k, nonbonded2) :: rest
    /\ forall value : string -> R,
        (forall atom_i p,
            nb_particles nonbonded !! atom_i = Some p ->
            effective_charge nonbonded2 value atom_i
            = Some (if contains molecule atom_i then 0 else p_charge p)%R)
        /\ (forall exception_i e,
            nb_exceptions nonbonded !! exception_i = Some e ->
            effective_chargeprod nonbonded2 value exception_i
            = Some (if in_solute molecule e then 0 else e_chargeprod e)%R).
Proof.
  intros Hnb Hpo Heo H1 H2.
  rewrite turn_off_nonbonded_closed, Hnb in H1.
  destruct (valid_atoms nonbonded molecule) eqn:Hvalid; [|done].
  injection H1 as <-.
  rewrite add_lambda_elec_closed in H2.
  rewrite (nonbonded_forces_insert _ _ _ _ _ Hnb) in H2.
  rewrite valid_atoms_turned_off, Hvalid in H2. injection H2 as <-.
  eexists. split.
  { eapply nonbonded_forces_insert. eapply nonbonded_forces_insert. exact Hnb. }
  intros value. split.
  - intros atom_i p Hp. unfold effective_charge.
    cbn [with_lambda_elec turned_off nb_particles nb_particleOffsets].
    rewrite zeroed_particles_lookup, Hp, Hpo.
    cbn [app fmap option_fmap option_map mbind option_bind].
    rewrite offset_total_zero_scale.
    + destruct (contains molecule atom_i); cbn; f_equal; lra.
    + eapply Forall_impl; [apply particle_offsets_scales|].
      intros o (_ & _ & q & Hq & Hin & ->).
      rewrite zeroed_particles_lookup in Hq.
      destruct (nb_particles nonbonded !! o_index o) as [q0|]; [|done].
      cbn in Hq. rewrite (contains_true _ _ Hin) in Hq. by injection Hq as <-.
  - intros exception_i e He. unfold effective_chargeprod.
    cbn [with_lambda_elec turned_off nb_exceptions nb_exceptionOffsets].
    rewrite zeroed_exceptions_lookup, He, Heo.
    cbn [app fmap option_fmap option_map mbind option_bind].
    rewrite offset_total_zero_scale.
    + destruct (in_solute molecule e); cbn; f_equal; lra.
    + eapply Forall_impl; [apply exception_offsets_scales|].
      intros o (_ & _ & e' & Hin & Hsol & ->).
      unfold zeroed_exceptions in Hin.
      apply list_elem_of_fmap in Hin as (e0 & -> & _).
      destruct (in_solute molecule e0) eqn:Hsol0; [done|].
      congruence.
Qed.

Lemma offsets_after_turning_off_are_zero_witness :
  let molecule := [0; 1] in
  let system1 :=
    <[1 := FNonbonded (turned_off molecule demo_nonbonded)]> demo_system in
  let system2 :=
    <[1 := FNonbonded
             (with_lambda_elec molecule 1 (turned_off molecule demo_nonbonded))]>
      system1 in
  turn_off_nonbonded demo_system molecule = Ok system1
  /\ add_lambda_elec system1 molecule 1 = Ok system2
  /\ exists nonbonded2,
    nonbonded_forces system2 = [(1, nonbonded2)]
    /\ forall value : string -> R,
        (forall atom_i p,
            nb_particles demo_nonbonded !! atom_i = Some p ->
            effective_charge nonbonded2 value atom_i
            = Some (if contains molecule atom_i then 0 else p_charge p)%R)
        /\ (forall exception_i e,
            nb_exceptions demo_nonbonded !! exception_i = Some e ->
            effective_chargeprod nonbonded2 value exception_i
            = Some (if in_solute molecule e then 0 else e_chargeprod e)%R).
Proof.
  intros molecule system1 system2.
  assert (turn_off_nonbonded demo_system molecule = Ok system1) as H1
    by (by rewrite turn_off_nonbonded_closed).
  assert (add_lambda_elec system1 molecule 1 = Ok system2) as H2
    by (rewrite add_lambda_elec_closed; reflexivity).
  split; [exact H1|]. split; [exact H2|].
  exact (offsets_after_turning_off_are_zero demo_system molecule 1%R 1
           demo_nonbonded [] system1 system2 eq_refl eq_refl eq_refl H1 H2).
Defined.

(** ** The soft-core energy between the end points *)

Lemma Rpower_sixth_pow6 B : (0 < B)%R -> (Rpower B (1 / 6) ^ 6 = B)%R.
Proof.
  intros HB.
  rewrite <- (Rpower_pow 6) by apply Rpower_positive.
  rewrite Rpower_mult.
  replace (1 / 6 * INR 6)%R with 1%R by (simpl; field).
  by apply Rpower_1.
Qed.

(** With the registered parameters a = b = 1, c = 6, alpha = 1/2 the
    formula is [lambda * 4 * epsilon * x * (x - 1)] with
    [x = 1 / ((1 - lambda)/2 + (r/sigma)^6)]. *)
Lemma spec_softcore_closed lambda epsilon sigma r :
  sigma <> 0%R ->
  (0 < 1 / 2 * (1 - lambda) + (r / sigma) ^ 6)%R ->
  spec_softcore lambda 1 1 6 (1 / 2) epsilon sigma r
  = Some (let x := (/ (1 / 2 * (1 - lambda) + (r / sigma) ^ 6))%R in
          lambda * 4 * epsilon * x * (x - 1))%R.
Proof.
  intros Hs HB. unfold spec_softcore.
  rewrite !(opow_positive _ 1). cbn [mbind option_bind].
  rewrite (odiv_defined r sigma Hs). cbn [mbind option_bind].
  rewrite (opow_positive _ 6). cbn [mbind option_bind].
  rewrite (odiv_defined 1 6) by lra. cbn [mbind option_bind].
  change (Pos.to_nat 1) with 1. change (Pos.to_nat 6) with 6.
  rewrite !pow_1.
  set (B := (1 / 2 * (1 - lambda) + (r / sigma) ^ 6)%R) in *.
  rewrite (opow_root B (1 / 6)) by (done || lra). cbn [mbind option_bind].
  pose proof (Rpower_positive B (1 / 6)) as Hroot.
  rewrite odiv_defined by (apply Rmult_integral_contrapositive; split; lra).
  cbn [mbind option_bind].
  rewrite (opow_positive _ 6). cbn [mbind option_bind].
  change (Pos.to_nat 6) with 6.
  assert ((sigma / (sigma * Rpower B (1 / 6))) ^ 6 = / B)%R as ->.
  { replace (sigma / (sigma * Rpower B (1 / 6)))%R with (/ Rpower B (1 / 6))%R
      by (field; split; lra).
    rewrite pow_inv. by rewrite Rpower_sixth_pow6. }
  reflexivity.
Qed.

(** X8. For a context that holds lambda_sterics = lambda and leaves the
    soft-core parameters at their registered values, the pair energy of
    the force built by [add_LJ_scaling] is
    [lambda * 4 * epsilon * x * (x - 1)] with
    [x = 1 / ((1 - lambda)/2 + (r/sigma)^6)], wherever the combined sigma
    is not zero, the product of the epsilons is not negative and
    [(1 - lambda)/2 + (r/sigma)^6] is positive.  In particular it has a
    value at r = 0 for every lambda below 1, where the Lennard-Jones
    formula itself has none. *)
Theorem softcore_energy_closed_form
    nonbonded molecule solvent lambda_value force_group
    ctx lambda r sigma1 epsilon1 sigma2 epsilon2 :
  sterics_context ctx lambda ->
  (sigma1 + sigma2 <> 0)%R ->
  (0 <= epsilon1 * epsilon2)%R ->
  let intermol_LJ :=
    softcore_force nonbonded molecule solvent lambda_value force_group in
  let sigma := (1 / 2 * (sigma1 + sigma2))%R in
  let epsilon := sqrt (epsilon1 * epsilon2) in
  ((0 < 1 / 2 * (1 - lambda) + (r / sigma) ^ 6)%R ->
   custom_pair_energy intermol_LJ ctx r [sigma1; epsilon1] [sigma2; epsilon2]
   = Some (let x := (/ (1 / 2 * (1 - lambda) + (r / sigma) ^ 6))%R in
           lambda * 4 * epsilon * x * (x - 1))%R)
  /\ ((lambda < 1)%R ->
      custom_pair_energy intermol_LJ ctx 0 [sigma1; epsilon1] [sigma2; epsilon2]
      = Some (let x := (2 / (1 - lambda))%R in
              lambda * 4 * epsilon * x * (x - 1))%R
      /\ lennard_jones sigma epsilon 0 = None).
Proof.
  intros (Hl & Ha & Hb & Hc & Halpha) Hs He intermol_LJ sigma epsilon.
  assert (sigma <> 0%R) as Hsigma by (unfold sigma; lra).
  assert (forall r,
            (0 < 1 / 2 * (1 - lambda) + (r / sigma) ^ 6)%R ->
            custom_pair_energy intermol_LJ ctx r
              [sigma1; epsilon1] [sigma2; epsilon2]
            = Some (let x := (/ (1 / 2 * (1 - lambda) + (r / sigma) ^ 6))%R in
                    lambda * 4 * epsilon * x * (x - 1))%R) as Hclosed.
  { intros r' HB. unfold intermol_LJ.
    rewrite softcore_pair_energy, Hl, Ha, Hb, Hc, Halpha.
    rewrite osqrt_defined by done. cbn [mbind option_bind default Datatypes.id].
    by apply spec_softcore_closed. }
  split; [apply Hclosed|].
  intros Hlt. split.
  - rewrite Hclosed.
    + cbv zeta. f_equal.
      replace (0 / sigma)%R with 0%R by (field; done).
      replace (/ (1 / 2 * (1 - lambda) + 0 ^ 6))%R with (2 / (1 - lambda))%R
        by (simpl; field; lra).
      done.
    + replace (0 / sigma)%R with 0%R by (field; done). simpl. lra.
  - unfold lennard_jones. by rewrite odiv_zero.
Qed.

Lemma softcore_energy_closed_form_witness :
  let intermol_LJ := softcore_force demo_nonbonded [0; 1] [2] 0 6 in
  ((0 < 1 / 2 * (1 - 1 / 2) + (1 / (1 / 2 * (2 + 2))) ^ 6)%R ->
   custom_pair_energy intermol_LJ (sterics_at (1 / 2)) 1 [2%R; 1%R] [2%R; 1%R]
   = Some (let x :=
             (/ (1 / 2 * (1 - 1 / 2) + (1 / (1 / 2 * (2 + 2))) ^ 6))%R in
           1 / 2 * 4 * sqrt (1 * 1) * x * (x - 1))%R)
  /\ ((1 / 2 < 1)%R ->
      custom_pair_energy intermol_LJ (sterics_at (1 / 2)) 0 [2%R; 1%R] [2%R; 1%R]
      = Some (let x := (2 / (1 - 1 / 2))%R in
              1 / 2 * 4 * sqrt (1 * 1) * x * (x - 1))%R
      /\ lennard_jones (1 / 2 * (2 + 2)) (sqrt (1 * 1)) 0 = None).
Proof.
  apply (softcore_energy_closed_form demo_nonbonded [0; 1] [2] 0%R 6
           (sterics_at (1 / 2)) (1 / 2)%R 1%R 2%R 1%R 2%R 1%R).
  - apply sterics_context_set.
  - lra.
  - lra.
Defined.

(** X9. For 0 <= lambda < 1 the soft-core pair energy is bounded: at
    every separation it has a value, which is at least
    [- lambda * epsilon] (the depth of the well) and at most the value
    at r = 0. *)
Theorem softcore_energy_bounded
    nonbonded molecule solvent lambda_value force_group
    ctx lambda r sigma1 epsilon1 sigma2 epsilon2 :
  sterics_context ctx lambda ->
  (0 <= lambda < 1)%R ->
  (sigma1 + sigma2 <> 0)%R ->
  (0 <= epsilon1 * epsilon2)%R ->
  let intermol_LJ :=
    softcore_force nonbonded molecule solvent lambda_value force_group in
  exists E E0,
    custom_pair_energy intermol_LJ ctx r [sigma1; epsilon1] [sigma2; epsilon2]
    = Some E
    /\ custom_pair_energy intermol_LJ ctx 0 [sigma1; epsilon1] [sigma2; epsilon2]
       = Some E0
    /\ (- lambda * sqrt (epsilon1 * epsilon2) <= E <= E0)%R.
Proof.
  intros (Hl & Ha & Hb & Hc & Halpha) Hlam Hs He intermol_LJ.
  set (sigma := (1 / 2 * (sigma1 + sigma2))%R).
  set (epsilon := sqrt (epsilon1 * epsilon2)).
  assert (sigma <> 0%R) as Hsigma by (unfold sigma; lra).
  assert (0 <= epsilon)%R as Hepsilon by apply sqrt_pos.
  assert (forall r,
            custom_pair_energy intermol_LJ ctx r
              [sigma1; epsilon1] [sigma2; epsilon2]
            = Some (let x := (/ (1 / 2 * (1 - lambda) + (r / sigma) ^ 6))%R in
                    lambda * 4 * epsilon * x * (x - 1))%R) as Hclosed.
  { intros r'. unfold intermol_LJ.
    rewrite softcore_pair_energy, Hl, Ha, Hb, Hc, Halpha.
    rewrite osqrt_defined by done. cbn [mbind option_bind default Datatypes.id].
    apply spec_softcore_closed; [done|].
    pose proof (pow6_nonneg (r' / sigma)). lra. }
  eexists _, _. split; [apply Hclosed|]. split; [apply Hclosed|].
  cbv zeta.
  replace (0 / sigma)%R with 0%R by (field; done).
  replace (0 ^ 6)%R with 0%R by (simpl; ring). rewrite Rplus_0_r.
  pose proof (pow6_nonneg (r / sigma)) as Hq.
  set (A := (1 / 2 * (1 - lambda))%R).
  set (B := (A + (r / sigma) ^ 6)%R).
  assert (0 < A)%R as HA by (unfold A; lra).
  assert (A <= 1 / 2)%R as HA' by (unfold A; lra).
  assert (A <= B)%R as HAB by (unfold B; lra).
  assert (0 < / B <= / A)%R as [Hx HxX].
  { split; [apply Rinv_0_lt_compat; lra|apply Rinv_le_contravar; lra]. }
  assert (2 <= / A)%R as HX.
  { replace 2%R with (/ (1 / 2))%R by field. apply Rinv_le_contravar; lra. }
  set (x := (/ B)%R) in *. set (X := (/ A)%R) in *.
  assert (0 <= lambda * epsilon)%R as Hle by (apply Rmult_le_pos; lra).
  split.
  - replace (lambda * 4 * epsilon * x * (x - 1))%R
      with (lambda * epsilon * (4 * x * (x - 1)))%R by ring.
    replace (- lambda * epsilon)%R with (lambda * epsilon * (-1))%R by ring.
    apply Rmult_le_compat_l; [done|].
    pose proof (pow2_ge_0 (2 * x - 1)) as Hsq.
    replace ((2 * x - 1) ^ 2)%R with (4 * x * (x - 1) + 1)%R in Hsq by ring.
    lra.
  - replace (lambda * 4 * epsilon * x * (x - 1))%R
      with (lambda * epsilon * (4 * x * (x - 1)))%R by ring.
    replace (lambda * 4 * epsilon * X * (X - 1))%R
      with (lambda * epsilon * (4 * X * (X - 1)))%R by ring.
    apply Rmult_le_compat_l; [done|].
    assert (0 <= (X - x) * (X + x - 1))%R by (apply Rmult_le_pos; lra).
    replace (4 * X * (X - 1))%R
      with (4 * x * (x - 1) + 4 * ((X - x) * (X + x - 1)))%R by ring.
    lra.
Qed.

Lemma softcore_energy_bounded_witness :
  let intermol_LJ := softcore_force demo_nonbonded [0; 1] [2] 0 6 in
  exists E E0,
    custom_pair_energy intermol_LJ (sterics_at (1 / 2)) 1 [2%R; 1%R] [2%R; 1%R]
    = Some E
    /\ custom_pair_energy intermol_LJ (sterics_at (1 / 2)) 0 [2%R; 1%R] [2%R; 1%R]
       = Some E0
    /\ (- (1 / 2) * sqrt (1 * 1) <= E <= E0)%R.
Proof.
  apply (softcore_energy_bounded demo_nonbonded [0; 1] [2] 0%R 6
           (sterics_at (1 / 2)) (1 / 2)%R 1%R 2%R 1%R 2%R 1%R).
  - apply sterics_context_set.
  - lra.
  - lra.
  - lra.
Defined.

(** ** The Lennard-Jones forces of the electrostatics notebook *)

(** The expression registered by [create_custom_LJ], evaluated for a
    pair. *)
Lemma intermolecular_pair_energy nb molecule solvent g ctx r
    sigma1 epsilon1 sigma2 epsilon2 :
  custom_pair_energy (intermolecular_force nb molecule solvent g) ctx r
    [sigma1; epsilon1] [sigma2; epsilon2]
  = (epsilon ← osqrt (epsilon1 * epsilon2);
     lennard_jones (1 / 2 * (sigma1 + sigma2)) epsilon r).
Proof.
  unfold custom_pair_energy, eval_energy, lennard_jones.
  cbn [intermolecular_force cnb_energy cnb_perParticleParameters
       cnb_globalParameters intermolecular_energy ef_defs ef_value
       bind_parameters].
  normalize_names.
  unfold bind_definitions, context_parameters, bind_var, lennard_jones_expression.
  cbn. destruct (osqrt _) as [epsilon|]; cbn; [|done].
  destruct (odiv _ _) as [q|]; cbn; [|done].
  rewrite (opow_positive q 12), (opow_positive q 6). cbn. done.
Qed.

(** X10. The pair energy of the CustomNonbondedForce built by
    [create_custom_LJ] is the Lennard-Jones energy
    [4*epsilon*((sigma/r)^12 - (sigma/r)^6)] at the arithmetic mean of
    the two sigmas and the geometric mean of the two epsilons, the
    combination the NonbondedForce uses.  It reads no parameter of the
    context, so it does not change with lambda_electrostatics.  It has
    no value at r = 0 and none when the product of the epsilons is
    negative. *)
Theorem intermolecular_energy_is_lennard_jones
    system molecule solvent force_group_1 force_group_2 k nonbonded rest :
  nonbonded_forces system = (k, nonbonded) :: rest ->
  exists intermol_LJ intramol_LJ,
    create_custom_LJ system molecule solvent force_group_1 force_group_2
    = Ok (system ++ [FCustomNonbonded intermol_LJ; FCustomBond intramol_LJ])
    /\ cnb_globalParameters intermol_LJ = []
    /\ (forall ctx r sigma1 epsilon1 sigma2 epsilon2,
          (0 <= epsilon1 * epsilon2)%R -> r <> 0%R ->
          custom_pair_energy intermol_LJ ctx r
            [sigma1; epsilon1] [sigma2; epsilon2]
          = Some (let sigma := (1 / 2 * (sigma1 + sigma2))%R in
                  let epsilon := sqrt (epsilon1 * epsilon2) in
                  4 * epsilon * ((sigma / r) ^ 12 - (sigma / r) ^ 6))%R)
    /\ (forall ctx sigma1 epsilon1 sigma2 epsilon2,
          custom_pair_energy intermol_LJ ctx 0
            [sigma1; epsilon1] [sigma2; epsilon2] = None)
    /\ (forall ctx r sigma1 epsilon1 sigma2 epsilon2,
          (epsilon1 * epsilon2 < 0)%R ->
          custom_pair_energy intermol_LJ ctx r
            [sigma1; epsilon1] [sigma2; epsilon2] = None).
Proof.
  intros Hnb. rewrite create_custom_LJ_closed, Hnb.
  eexists _, _. split; [reflexivity|]. split; [reflexivity|].
  split; [|split].
  - intros ctx r sigma1 epsilon1 sigma2 epsilon2 He Hr.
    rewrite intermolecular_pair_energy, osqrt_defined by done.
    cbn [mbind option_bind]. by rewrite lennard_jones_defined.
  - intros ctx sigma1 epsilon1 sigma2 epsilon2.
    rewrite intermolecular_pair_energy. unfold lennard_jones.
    rewrite odiv_zero. by destruct (osqrt _).
  - intros ctx r sigma1 epsilon1 sigma2 epsilon2 He.
    rewrite intermolecular_pair_energy. unfold osqrt.
    by rewrite decide_True.
Qed.

Lemma intermolecular_energy_is_lennard_jones_witness :
  exists intermol_LJ intramol_LJ,
    create_custom_LJ demo_system [0; 1] [2] 5 6
    = Ok (demo_system ++ [FCustomNonbonded intermol_LJ; FCustomBond intramol_LJ])
    /\ cnb_globalParameters intermol_LJ = []
    /\ (forall ctx r sigma1 epsilon1 sigma2 epsilon2,
          (0 <= epsilon1 * epsilon2)%R -> r <> 0%R ->
          custom_pair_energy intermol_LJ ctx r
            [sigma1; epsilon1] [sigma2; epsilon2]
          = Some (let sigma := (1 / 2 * (sigma1 + sigma2))%R in
                  let epsilon := sqrt (epsilon1 * epsilon2) in
                  4 * epsilon * ((sigma / r) ^ 12 - (sigma / r) ^ 6))%R)
    /\ (forall ctx sigma1 epsilon1 sigma2 epsilon2,
          custom_pair_energy intermol_LJ ctx 0
            [sigma1; epsilon1] [sigma2; epsilon2] = None)
    /\ (forall ctx r sigma1 epsilon1 sigma2 epsilon2,
          (epsilon1 * epsilon2 < 0)%R ->
          custom_pair_energy intermol_LJ ctx r
            [sigma1; epsilon1] [sigma2; epsilon2] = None).
Proof.
  apply (intermolecular_energy_is_lennard_jones demo_system [0; 1] [2] 5 6
           1 demo_nonbonded []).
  reflexivity.
Defined.

Lemma excluded_intermolecular_force f molecule solvent g i j :
  excluded (intermolecular_force f molecule solvent g) i j = excepted f i j.
Proof.
  unfold excluded, excepted. cbn [intermolecular_force cnb_exclusions].
  induction (nb_exceptions f) as [|e es IH]; [done|].
  rewrite fmap_cons. cbn [existsb]. by rewrite IH.
Qed.

Lemma in_groups_intermolecular_force f molecule solvent g i j :
  in_groups (intermolecular_force f molecule solvent g) i j
  = (contains molecule i && contains solvent j)
    || (contains molecule j && contains solvent i).
Proof.
  unfold in_groups.
  cbn [intermolecular_force cnb_interactionGroups existsb fst snd].
  by rewrite orb_false_r.
Qed.

(** The term of a solute-solvent pair in the force of [create_custom_LJ]. *)
Lemma intermolecular_term f molecule solvent g ctx dist i j p q :
  nb_particles f !! i = Some p -> nb_particles f !! j = Some q ->
  excepted f i j = false ->
  within_cutoff CutoffPeriodic (nb_cutoffDistance f) (dist i j) = true ->
  (contains molecule i && contains solvent j)
  || (contains molecule j && contains solvent i) = true ->
  (0 <= p_epsilon p * p_epsilon q)%R ->
  custom_nonbonded_term (intermolecular_force f molecule solvent g)
    ctx dist (i, j)
  = lennard_jones (1 / 2 * (p_sigma p + p_sigma q))
      (sqrt (p_epsilon p * p_epsilon q)) (dist i j).
Proof.
  intros Hp Hq Hex Hcut Hgroup He.
  unfold custom_nonbonded_term. cbn [fst snd].
  rewrite excluded_intermolecular_force, in_groups_intermolecular_force,
    Hex, Hgroup.
  cbn [intermolecular_force cnb_nonbondedMethod cnb_cutoffDistance cnb_particles].
  rewrite Hcut. cbn [negb andb].
  rewrite !list_lookup_fmap, Hp, Hq.
  cbn [fmap option_fmap option_map mbind option_bind].
  rewrite intermolecular_pair_energy.
  by rewrite osqrt_defined by done.
Qed.

Lemma intermolecular_term_skipped f molecule solvent g ctx dist i j :
  ((contains molecule i && contains solvent j)
   || (contains molecule j && contains solvent i))
  && negb (excepted f i j)
  && within_cutoff CutoffPeriodic (nb_cutoffDistance f) (dist i j) = false ->
  custom_nonbonded_term (intermolecular_force f molecule solvent g)
    ctx dist (i, j)
  = Some 0%R.
Proof.
  intros H. unfold custom_nonbonded_term. cbn [fst snd].
  rewrite excluded_intermolecular_force, in_groups_intermolecular_force.
  cbn [intermolecular_force cnb_nonbondedMethod cnb_cutoffDistance].
  by rewrite H.
Qed.

(** Every pair term of the original force is the sum of what remains in
    the base force and of the term of the force of [create_custom_LJ]. *)
Lemma plain_pair_term_split f molecule solvent g ctx dist i j :
  nb_particleOffsets f = [] ->
  nb_nonbondedMethod f <> NoCutoff ->
  solute_pairs_excepted f molecule ->
  rest_is_solvent f molecule solvent ->
  (forall i p, nb_particles f !! i = Some p -> (0 <= p_epsilon p)%R) ->
  atoms_apart f dist ->
  i < j < getNumParticles f ->
  exists b c,
    nonbonded_pair_term (turned_off molecule f) ctx dist (i, j) = Some b
    /\ custom_nonbonded_term (intermolecular_force f molecule solvent g)
         ctx dist (i, j) = Some c
    /\ nonbonded_pair_term f ctx dist (i, j) = Some (b + c)%R.
Proof.
  intros Ho Hm Hsol Hrest Heps [Hapart _] Hij.
  assert (0 < dist i j)%R as Hr by (apply Hapart; lia).
  destruct (excepted f i j) eqn:Hex.
  { exists 0%R, 0%R.
    rewrite !nonbonded_pair_skipped, intermolecular_term_skipped;
      rewrite ?excepted_turned_off, ?Hex, ?andb_false_r; try done.
    repeat split. f_equal. lra. }
  destruct (within_cutoff CutoffPeriodic (nb_cutoffDistance f) (dist i j)) eqn:Hcut.
  2:{ exists 0%R, 0%R.
      rewrite !nonbonded_pair_skipped, intermolecular_term_skipped;
        rewrite ?excepted_turned_off, ?Hex; cbn [turned_off nb_nonbondedMethod
          nb_cutoffDistance]; rewrite ?(within_cutoff_periodic _ _ _ Hm), ?Hcut,
          ?andb_false_r; try done.
      repeat split. f_equal. lra. }
  destruct (lookup_lt_is_Some_2 (nb_particles f) i) as [p Hp];
    [unfold getNumParticles in Hij; lia|].
  destruct (lookup_lt_is_Some_2 (nb_particles f) j) as [q Hq];
    [unfold getNumParticles in Hij; lia|].
  pose proof (Heps i p Hp) as Hep. pose proof (Heps j q Hq) as Heq.
  assert (0 <= p_epsilon p * p_epsilon q)%R as He by (by apply Rmult_le_pos).
  rewrite (nonbonded_pair_energy f ctx dist i j p q) by
    (rewrite ?(within_cutoff_periodic _ _ _ Hm); done).
  rewrite osqrt_defined by done. cbn [mbind option_bind].
  assert (forall p' q',
            nb_particles (turned_off molecule f) !! i = Some p' ->
            nb_particles (turned_off molecule f) !! j = Some q' ->
            nonbonded_pair_term (turned_off molecule f) ctx dist (i, j)
            = (epsilon ← osqrt (p_epsilon p' * p_epsilon q');
               lennard_jones (1 / 2 * (p_sigma p' + p_sigma q')) epsilon (dist i j)))
    as Hbase.
  { intros p' q' Hp' Hq'. apply nonbonded_pair_energy; try done.
    - by rewrite excepted_turned_off.
    - cbn [turned_off nb_nonbondedMethod nb_cutoffDistance].
      by rewrite (within_cutoff_periodic _ _ _ Hm). }
  assert (forall sigma, lennard_jones sigma 0 (dist i j) = Some 0%R) as Hzero
    by (intros; apply lennard_jones_zero_epsilon; lra).
  assert (forall x, osqrt (0 * x) = Some 0%R) as Hs0l.
  { intros x. rewrite Rmult_0_l, osqrt_defined by lra. by rewrite sqrt_0. }
  assert (forall x, osqrt (x * 0) = Some 0%R) as Hs0r.
  { intros x. rewrite Rmult_0_r, osqrt_defined by lra. by rewrite sqrt_0. }
  unfold turned_off in Hbase at 1 2. cbn [nb_particles] in Hbase.
  rewrite !zeroed_particles_lookup, Hp, Hq in Hbase.
  cbn [fmap option_fmap option_map] in Hbase.
  destruct (decide (i ∈ molecule)) as [Hi|Hi];
    destruct (decide (j ∈ molecule)) as [Hj|Hj].
  - rewrite (Hsol i j Hi Hj Hij) in Hex. done.
  - rewrite (contains_true _ _ Hi), (contains_false _ _ Hj) in Hbase.
    rewrite (Hbase _ _ eq_refl eq_refl). cbn [zero_particle p_epsilon p_sigma].
    rewrite Hs0l. cbn [mbind option_bind]. rewrite Hzero.
    rewrite (intermolecular_term f molecule solvent g ctx dist i j p q);
      try done.
    + rewrite lennard_jones_defined by lra.
      eexists _, _. repeat split. f_equal. lra.
    + rewrite (contains_true _ _ Hi), (contains_true solvent j); [done|].
      apply Hrest; [lia | done].
  - rewrite (contains_false _ _ Hi), (contains_true _ _ Hj) in Hbase.
    rewrite (Hbase _ _ eq_refl eq_refl). cbn [zero_particle p_epsilon p_sigma].
    rewrite Hs0r. cbn [mbind option_bind]. rewrite Hzero.
    rewrite (intermolecular_term f molecule solvent g ctx dist i j p q);
      try done.
    + rewrite lennard_jones_defined by lra.
      eexists _, _. repeat split. f_equal. lra.
    + rewrite (contains_true _ _ Hj), (contains_true solvent i).
      * by rewrite orb_true_r.
      * apply Hrest; [lia | done].
  - rewrite (contains_false _ _ Hi), (contains_false _ _ Hj) in Hbase.
    rewrite (Hbase _ _ eq_refl eq_refl).
    rewrite osqrt_defined by done. cbn [mbind option_bind].
    rewrite intermolecular_term_skipped
      by (by rewrite (contains_false _ _ Hi), (contains_false _ _ Hj)).
    rewrite lennard_jones_defined by lra.
    eexists _, _. repeat split. f_equal. lra.
Qed.

Lemma effective_sigma_unscaled f value i :
  Forall (fun o => o_sigmaScale o = 0%R /\ o_epsilonScale o = 0%R)
         (nb_particleOffsets f) ->
  effective_sigma f value i = p_sigma <$> nb_particles f !! i.
Proof.
  intros H. unfold effective_sigma.
  rewrite offset_total_zero_scale
    by (eapply Forall_impl; [exact H|]; by intros o [? ?]).
  destruct (_ !! i) as [p|]; [|done]. cbn. f_equal. lra.
Qed.

Lemma effective_epsilon_unscaled f value i :
  Forall (fun o => o_sigmaScale o = 0%R /\ o_epsilonScale o = 0%R)
         (nb_particleOffsets f) ->
  effective_epsilon f value i = p_epsilon <$> nb_particles f !! i.
Proof.
  intros H. unfold effective_epsilon.
  rewrite offset_total_zero_scale
    by (eapply Forall_impl; [exact H|]; by intros o [? ?]).
  destruct (_ !! i) as [p|]; [|done]. cbn. f_equal. lra.
Qed.

Lemma nonbonded_exception_term_unscaled f ctx dist x :
  Forall (fun o => o_sigmaScale o = 0%R /\ o_epsilonScale o = 0%R)
         (nb_exceptionOffsets f) ->
  nonbonded_exception_term f ctx dist x
  = (e ← nb_exceptions f !! x;
     lennard_jones (e_sigma e) (e_epsilon e) (dist (e_atom_i e) (e_atom_j e))).
Proof.
  intros H. unfold nonbonded_exception_term, effective_exception_sigma,
    effective_exception_epsilon.
  rewrite !offset_total_zero_scale
    by (eapply Forall_impl; [exact H|]; by intros o [? ?]).
  destruct (_ !! x) as [e|]; [|done]. cbn.
  by rewrite !Rplus_0_r.
Qed.

(** The Lennard-Jones energy of a force whose offsets scale charges only
    is that of its particles and exceptions. *)
Lemma nonbonded_LJ_energy_unscaled f g ctx ctx' dist :
  LJ_unscaled f -> LJ_unscaled g ->
  nb_particles f = nb_particles g ->
  nb_exceptions f = nb_exceptions g ->
  nb_cutoffDistance f = nb_cutoffDistance g ->
  nb_nonbondedMethod f = nb_nonbondedMethod g ->
  nonbonded_LJ_energy f ctx dist = nonbonded_LJ_energy g ctx' dist.
Proof.
  intros [Hf1 Hf2] [Hg1 Hg2] Hp He Hc Hm.
  unfold nonbonded_LJ_energy, getNumParticles, getNumExceptions.
  rewrite Hp, He.
  rewrite (osum_ext (nonbonded_pair_term f ctx dist)
             (nonbonded_pair_term g ctx' dist)).
  - rewrite (osum_ext (nonbonded_exception_term f ctx dist)
               (nonbonded_exception_term g ctx' dist)); [done|].
    intros x _.
    rewrite !nonbonded_exception_term_unscaled by done. by rewrite He.
  - intros [i j] _. unfold nonbonded_pair_term, excepted. cbn [fst snd].
    rewrite !effective_sigma_unscaled, !effective_epsilon_unscaled by done.
    by rewrite Hp, He, Hc, Hm.
Qed.

Lemma with_lambda_elec_unscaled molecule lambda_value f :
  nb_particleOffsets f = [] -> nb_exceptionOffsets f = [] ->
  LJ_unscaled (turned_off molecule (with_lambda_elec molecule lambda_value f)).
Proof.
  intros Hpo Heo. unfold LJ_unscaled.
  cbn [turned_off with_lambda_elec nb_particleOffsets nb_exceptionOffsets].
  rewrite Hpo, Heo. cbn [app]. split.
  - eapply Forall_impl; [apply particle_offsets_scales|]. by intros o (? & ? & _).
  - eapply Forall_impl; [apply exception_offsets_scales|]. by intros o (? & ? & _).
Qed.

(** X11. The cell of the electrostatics notebook that calls
    [add_lambda_elec], [create_custom_LJ] and [turn_off_nonbonded], in
    this order, keeps the Lennard-Jones energy: for every configuration
    and every value of the context parameters, lambda_electrostatics
    included, the Lennard-Jones energy of the original NonbondedForce is
    the sum of what is left in the base force, of the
    CustomNonbondedForce and of the CustomBondForce.  This holds for a
    base force with a cutoff and without earlier offsets, when every
    pair of solute atoms has an exception, every other atom is in the
    solvent list, no epsilon is negative and the atoms are at positive
    distances. *)
Theorem electrostatics_setup_keeps_lennard_jones
    system molecule solvent lambda_value force_group_1 force_group_2
    k nonbonded rest system1 system2 system3 ctx dist :
  nonbonded_forces system = (k, nonbonded) :: rest ->
  add_lambda_elec system molecule lambda_value = Ok system1 ->
  create_custom_LJ system1 molecule solvent force_group_1 force_group_2
  = Ok system2 ->
  turn_off_nonbonded system2 molecule = Ok system3 ->
  nb_particleOffsets nonbonded = [] ->
  nb_exceptionOffsets nonbonded = [] ->
  nb_nonbondedMethod nonbonded <> NoCutoff ->
  solute_pairs_excepted nonbonded molecule ->
  rest_is_solvent nonbonded molecule solvent ->
  (forall i p, nb_particles nonbonded !! i = Some p -> (0 <= p_epsilon p)%R) ->
  atoms_apart nonbonded dist ->
  exists nonbonded' intermol_LJ intramol_LJ E_base E_intermol E_intramol,
    nonbonded_forces system3 = (k, nonbonded') :: rest
    /\ drop (length system) system3
       = [FCustomNonbonded intermol_LJ; FCustomBond intramol_LJ]
    /\ nonbonded_LJ_energy nonbonded' ctx dist = Some E_base
    /\ custom_nonbonded_energy intermol_LJ ctx dist = Some E_intermol
    /\ custom_bond_energy intramol_LJ dist = Some E_intramol
    /\ nonbonded_LJ_energy nonbonded ctx dist
       = Some (E_base + E_intermol + E_intramol)%R.
Proof.
  intros Hnb H1 H2 H3 Hpo Heo Hm Hsol Hrest Heps Hapart.
  rewrite add_lambda_elec_closed, Hnb in H1.
  destruct (valid_atoms nonbonded molecule) eqn:Hvalid; [|done].
  injection H1 as <-.
  pose proof (nonbonded_forces_insert _ _ _ _
                (with_lambda_elec molecule lambda_value nonbonded) Hnb) as Hnb1.
  rewrite create_custom_LJ_closed, Hnb1 in H2. injection H2 as <-.
  rewrite turn_off_nonbonded_closed in H3.
  rewrite nonbonded_forces_custom, Hnb1 in H3
    by apply custom_forces_are_not_nonbonded.
  rewrite valid_atoms_with_lambda_elec, Hvalid in H3. injection H3 as <-.
  set (f1 := with_lambda_elec molecule lambda_value nonbonded).
  (* the pairs *)
  destruct (osum_pointwise
              (nonbonded_pair_term nonbonded ctx dist)
              (nonbonded_pair_term (turned_off molecule nonbonded) ctx dist)
              (custom_nonbonded_term
                 (intermolecular_force nonbonded molecule solvent force_group_1)
                 ctx dist)
              (pairs (getNumParticles nonbonded)))
    as (b1 & c1 & Hb1 & Hc1 & Hf1).
  { intros [i j] Hij. apply elem_of_pairs in Hij.
    by apply plain_pair_term_split. }
  (* the exceptions *)
  destruct (osum_pointwise
              (fun e => lennard_jones (e_sigma e) (e_epsilon e)
                          (dist (e_atom_i e) (e_atom_j e)))
              (fun e =>
                 let e' := if in_solute molecule e then zero_exception e else e in
                 lennard_jones (e_sigma e') (e_epsilon e')
                   (dist (e_atom_i e') (e_atom_j e')))
              (fun e =>
                 if in_solute molecule e
                 then custom_bond_term
                        (intramolecular_force nonbonded molecule force_group_2)
                        dist (bond_of e)
                 else Some 0%R)
              (nb_exceptions nonbonded))
    as (b2 & c2 & Hb2 & Hc2 & Hf2).
  { intros e He. apply exception_term_split. by apply Hapart. }
  exists (turned_off molecule f1),
    (intermolecular_force nonbonded molecule solvent force_group_1),
    (intramolecular_force nonbonded molecule force_group_2),
    (b1 + b2)%R, c1, c2.
  split.
  { rewrite nonbonded_forces_insert with (nonbonded := f1) (rest := rest);
      [done|].
    rewrite nonbonded_forces_custom by apply custom_forces_are_not_nonbonded.
    exact Hnb1. }
  split.
  { pose proof (nonbonded_forces_lookup _ _ _ _ Hnb) as Hk.
    apply lookup_lt_Some in Hk.
    rewrite (drop_insert_lt (A := Force)) by lia.
    replace (length system) with (length (<[k := FNonbonded f1]> system))
      by apply length_insert.
    by rewrite drop_app_length. }
  split; [|split; [|split]].
  - rewrite (nonbonded_LJ_energy_unscaled (turned_off molecule f1)
               (turned_off molecule nonbonded) ctx ctx dist);
      [ | by apply with_lambda_elec_unscaled
        | split; cbn [turned_off nb_particleOffsets nb_exceptionOffsets];
          rewrite ?Hpo, ?Heo; constructor
        | reflexivity | reflexivity | reflexivity | reflexivity ].
    unfold nonbonded_LJ_energy.
    replace (getNumParticles (turned_off molecule nonbonded))
      with (getNumParticles nonbonded)
      by (unfold getNumParticles, turned_off, zeroed_particles; simpl;
          by rewrite length_imap).
    rewrite Hb1. cbn [mbind option_bind].
    rewrite nonbonded_exception_sum by done.
    unfold turned_off at 1. cbn [nb_exceptions]. unfold zeroed_exceptions.
    rewrite <- list_fmap_compose. unfold compose.
    cbv zeta in Hb2. rewrite Hb2. done.
  - unfold custom_nonbonded_energy.
    replace (length (cnb_particles
                       (intermolecular_force nonbonded molecule solvent
                          force_group_1)))
      with (getNumParticles nonbonded)
      by (unfold getNumParticles; simpl; by rewrite length_fmap).
    exact Hc1.
  - unfold custom_bond_energy.
    cbn [intramolecular_force cb_bonds].
    rewrite <- list_fmap_compose.
    apply (osum_filter (in_solute molecule)
             (custom_bond_term
                (intramolecular_force nonbonded molecule force_group_2) dist
              ∘ bond_of)).
    exact Hc2.
  - unfold nonbonded_LJ_energy. rewrite Hf1. cbn [mbind option_bind].
    rewrite nonbonded_exception_sum, Hf2 by done.
    cbn [mbind option_bind]. f_equal. lra.
Qed.

Lemma electrostatics_setup_keeps_lennard_jones_witness :
  let molecule := [0; 1] in
  let system1 :=
    <[1 := FNonbonded (with_lambda_elec molecule 0 demo_nonbonded)]> demo_system in
  let system2 :=
    system1
      ++ [FCustomNonbonded (intermolecular_force demo_nonbonded molecule [2] 5);
          FCustomBond (intramolecular_force demo_nonbonded molecule 6)] in
  let system3 :=
    <[1 := FNonbonded
             (turned_off molecule (with_lambda_elec molecule 0 demo_nonbonded))]>
      system2 in
  add_lambda_elec demo_system molecule 0 = Ok system1
  /\ create_custom_LJ system1 molecule [2] 5 6 = Ok system2
  /\ turn_off_nonbonded system2 molecule = Ok system3
  /\ exists nonbonded' intermol_LJ intramol_LJ E_base E_intermol E_intramol,
    nonbonded_forces system3 = [(1, nonbonded')]
    /\ drop (length demo_system) system3
       = [FCustomNonbonded intermol_LJ; FCustomBond intramol_LJ]
    /\ nonbonded_LJ_energy nonbonded' nothing_set unit_distances = Some E_base
    /\ custom_nonbonded_energy intermol_LJ nothing_set unit_distances
       = Some E_intermol
    /\ custom_bond_energy intramol_LJ unit_distances = Some E_intramol
    /\ nonbonded_LJ_energy demo_nonbonded nothing_set unit_distances
       = Some (E_base + E_intermol + E_intramol)%R.
Proof.
  intros molecule system1 system2 system3.
  assert (add_lambda_elec demo_system molecule 0 = Ok system1) as H1
    by (rewrite add_lambda_elec_closed; reflexivity).
  assert (create_custom_LJ system1 molecule [2] 5 6 = Ok system2) as H2
    by (rewrite create_custom_LJ_closed; reflexivity).
  assert (turn_off_nonbonded system2 molecule = Ok system3) as H3
    by (rewrite turn_off_nonbonded_closed; reflexivity).
  split; [exact H1|]. split; [exact H2|]. split; [exact H3|].
  apply (electrostatics_setup_keeps_lennard_jones demo_system molecule [2]
           0%R 5 6 1 demo_nonbonded [] system1 system2 system3 nothing_set
           unit_distances);
    [reflexivity | exact H1 | exact H2 | exact H3 | reflexivity | reflexivity
    | done | | | | ].
  - intros i j Hi Hj Hij.
    apply elem_of_cons in Hi as [->|Hi]; apply elem_of_cons in Hj as [->|Hj];
      try apply list_elem_of_singleton in Hi as ->;
      try apply list_elem_of_singleton in Hj as ->;
      try lia; done.
  - intros i Hi Hn. unfold getNumParticles in Hi. simpl in Hi.
    destruct i as [|[|[|]]]; try lia.
    + exfalso. apply Hn. apply elem_of_cons. by left.
    + exfalso. apply Hn. apply elem_of_cons. right. apply elem_of_cons. by left.
    + apply elem_of_cons. by left.
  - intros i p Hp. destruct i as [|[|[|]]]; simpl in Hp; try done;
      injection Hp as <-; simpl; lra.
  - split; intros; unfold unit_distances; lra.
Defined.

(** ** The vacuum notebook *)

Lemma osum_defined {A : Type} (T : A -> option R) (l : list A) :
  (forall x, x ∈ l -> is_Some (T x)) -> is_Some (osum (T <$> l)).
Proof.
  induction l as [|x l IH]; intros H; [by eexists|].
  rewrite fmap_cons, osum_cons.
  destruct (H x) as [a ->]; [apply elem_of_cons; by left|].
  destruct IH as [b ->]; [intros y Hy; apply H, elem_of_cons; by right|].
  by eexists.
Qed.

(** X12. The cell of the vacuum notebook calls [add_lambda_elec],
    [create_custom_LJ] (which builds the CustomBondForce only) and
    [turn_off_nonbonded].  When every atom belongs to the molecule, the
    Lennard-Jones energy left in the NonbondedForce is zero and the
    CustomBondForce holds the energy of the exceptions of the original
    force: of the original Lennard-Jones energy, the part of the pairs
    without exception (atoms separated by more than three bonds) is in
    none of the forces afterwards. *)
Theorem vacuum_setup_keeps_the_exception_energy
    system molecule lambda_value force_group
    k nonbonded rest system1 system2 system3 ctx dist :
  nonbonded_forces system = (k, nonbonded) :: rest ->
  add_lambda_elec system molecule lambda_value = Ok system1 ->
  create_custom_LJ_vacuum system1 molecule force_group = Ok system2 ->
  turn_off_nonbonded system2 molecule = Ok system3 ->
  nb_particleOffsets nonbonded = [] ->
  nb_exceptionOffsets nonbonded = [] ->
  (forall i, i < getNumParticles nonbonded -> i ∈ molecule) ->
  (forall e, e ∈ nb_exceptions nonbonded ->
             e_atom_i e ∈ molecule /\ e_atom_j e ∈ molecule) ->
  (forall i p, nb_particles nonbonded !! i = Some p -> (0 <= p_epsilon p)%R) ->
  atoms_apart nonbonded dist ->
  exists nonbonded' intramol_LJ E_pairs E_exceptions,
    nonbonded_forces system3 = (k, nonbonded') :: rest
    /\ drop (length system) system3 = [FCustomBond intramol_LJ]
    /\ nonbonded_LJ_energy nonbonded' ctx dist = Some 0%R
    /\ custom_bond_energy intramol_LJ dist = Some E_exceptions
    /\ osum (nonbonded_pair_term nonbonded ctx dist
               <$> pairs (getNumParticles nonbonded)) = Some E_pairs
    /\ nonbonded_LJ_energy nonbonded ctx dist
       = Some (E_pairs + E_exceptions)%R.
Proof.
  intros Hnb H1 H2 H3 Hpo Heo Hall Hexc Heps [Hapart Hapart'].
  rewrite add_lambda_elec_closed, Hnb in H1.
  destruct (valid_atoms nonbonded molecule) eqn:Hvalid; [|done].
  injection H1 as <-.
  pose proof (nonbonded_forces_insert _ _ _ _
                (with_lambda_elec molecule lambda_value nonbonded) Hnb) as Hnb1.
  rewrite create_custom_LJ_vacuum_closed, Hnb1 in H2. injection H2 as <-.
  rewrite turn_off_nonbonded_closed in H3.
  rewrite nonbonded_forces_custom, Hnb1 in H3 by (by repeat constructor).
  rewrite valid_atoms_with_lambda_elec, Hvalid in H3. injection H3 as <-.
  set (f1 := with_lambda_elec molecule lambda_value nonbonded).
  (* the pairs of the original force have an energy *)
  destruct (osum_defined (nonbonded_pair_term nonbonded ctx dist)
              (pairs (getNumParticles nonbonded))) as [E_pairs HE_pairs].
  { intros [i j] Hij. apply elem_of_pairs in Hij.
    unfold nonbonded_pair_term. cbn [fst snd].
    destruct (negb _ && _); [|by eexists].
    rewrite !effective_sigma_base, !effective_epsilon_base by done.
    destruct (lookup_lt_is_Some_2 (nb_particles nonbonded) i) as [p Hp];
      [unfold getNumParticles in Hij; lia|].
    destruct (lookup_lt_is_Some_2 (nb_particles nonbonded) j) as [q Hq];
      [unfold getNumParticles in Hij; lia|].
    rewrite Hp, Hq. cbn [fmap option_fmap option_map mbind option_bind].
    rewrite osqrt_defined
      by (apply Rmult_le_pos; [by apply (Heps i)|by apply (Heps j)]).
    cbn [mbind option_bind]. rewrite lennard_jones_defined; [by eexists|].
    assert (0 < dist i j)%R by (apply Hapart; lia). lra. }
  (* the bonds hold the exceptions *)
  assert (filter (fun e => in_solute molecule e = true) (nb_exceptions nonbonded)
          = nb_exceptions nonbonded) as Hfilter.
  { assert (forall e, e ∈ nb_exceptions nonbonded ->
                      in_solute molecule e = true) as Hin
      by (intros e He; by apply in_solute_true, Hexc).
    revert Hin. generalize (nb_exceptions nonbonded). intros es.
    induction es as [|e es IH]; intros Hin; [done|].
    rewrite filter_cons_True by (apply Hin, elem_of_cons; by left).
    f_equal. apply IH. intros e' He'. apply Hin, elem_of_cons. by right. }
  destruct (osum_defined
              (fun e => lennard_jones (e_sigma e) (e_epsilon e)
                          (dist (e_atom_i e) (e_atom_j e)))
              (nb_exceptions nonbonded)) as [E_exceptions HE_exceptions].
  { intros e He. rewrite lennard_jones_defined; [by eexists|].
    pose proof (Hapart' e He). lra. }
  exists (turned_off molecule f1),
    (intramolecular_force nonbonded molecule force_group), E_pairs, E_exceptions.
  split.
  { rewrite nonbonded_forces_insert with (nonbonded := f1) (rest := rest);
      [done|].
    rewrite nonbonded_forces_custom by (by repeat constructor).
    exact Hnb1. }
  split.
  { pose proof (nonbonded_forces_lookup _ _ _ _ Hnb) as Hk.
    apply lookup_lt_Some in Hk.
    rewrite (drop_insert_lt (A := Force)) by lia.
    replace (length system) with (length (<[k := FNonbonded f1]> system))
      by apply length_insert.
    by rewrite drop_app_length. }
  split; [|split; [|split; [exact HE_pairs|]]].
  - rewrite (nonbonded_LJ_energy_unscaled (turned_off molecule f1)
               (turned_off molecule nonbonded) ctx ctx dist);
      [ | by apply with_lambda_elec_unscaled
        | split; cbn [turned_off nb_particleOffsets nb_exceptionOffsets];
          rewrite ?Hpo, ?Heo; constructor
        | reflexivity | reflexivity | reflexivity | reflexivity ].
    unfold nonbonded_LJ_energy.
    replace (getNumParticles (turned_off molecule nonbonded))
      with (getNumParticles nonbonded)
      by (unfold getNumParticles, turned_off, zeroed_particles; simpl;
          by rewrite length_imap).
    rewrite (osum_ext
               (nonbonded_pair_term (turned_off molecule nonbonded) ctx dist)
               (fun _ => Some 0%R)).
    2:{ intros [i j] Hij. apply elem_of_pairs in Hij.
        unfold nonbonded_pair_term. cbn [fst snd].
        destruct (negb _ && _); [|done].
        rewrite !effective_sigma_base, !effective_epsilon_base by done.
        cbn [turned_off nb_particles]. rewrite !zeroed_particles_lookup.
        destruct (lookup_lt_is_Some_2 (nb_particles nonbonded) i) as [p Hp];
          [unfold getNumParticles in Hij; lia|].
        destruct (lookup_lt_is_Some_2 (nb_particles nonbonded) j) as [q Hq];
          [unfold getNumParticles in Hij; lia|].
        rewrite Hp, Hq. cbn [fmap option_fmap option_map mbind option_bind].
        rewrite (contains_true molecule i) by (apply Hall; lia).
        cbn [zero_particle p_epsilon]. rewrite Rmult_0_l.
        rewrite osqrt_defined by lra. rewrite sqrt_0.
        cbn [mbind option_bind]. apply lennard_jones_zero_epsilon.
        assert (0 < dist i j)%R by (apply Hapart; lia). lra. }
    rewrite osum_zero_terms. cbn [mbind option_bind].
    rewrite nonbonded_exception_sum by done.
    unfold turned_off at 1. cbn [nb_exceptions]. unfold zeroed_exceptions.
    rewrite <- list_fmap_compose.
    rewrite (osum_ext _ (fun _ => Some 0%R)).
    2:{ intros e He. unfold compose.
        rewrite (proj2 (in_solute_true molecule e) (Hexc e He)).
        cbn [zero_exception e_sigma e_epsilon e_atom_i e_atom_j].
        apply lennard_jones_zero_epsilon.
        pose proof (Hapart' e He). lra. }
    rewrite osum_zero_terms. cbn [mbind option_bind]. f_equal. lra.
  - unfold custom_bond_energy. cbn [intramolecular_force cb_bonds].
    rewrite Hfilter, <- list_fmap_compose.
    rewrite (osum_ext _ (fun e => lennard_jones (e_sigma e) (e_epsilon e)
                                    (dist (e_atom_i e) (e_atom_j e)))); [done|].
    intros e _. unfold compose. apply custom_bond_term_lennard_jones.
  - unfold nonbonded_LJ_energy. rewrite HE_pairs. cbn [mbind option_bind].
    rewrite nonbonded_exception_sum, HE_exceptions by done.
    done.
Qed.

Lemma vacuum_setup_keeps_the_exception_energy_witness :
  let molecule := [0; 1; 2] in
  let system1 :=
    <[1 := FNonbonded (with_lambda_elec molecule 1 chain_nonbonded)]> chain_system in
  let system2 :=
    system1 ++ [FCustomBond (intramolecular_force chain_nonbonded molecule 5)] in
  let system3 :=
    <[1 := FNonbonded
             (turned_off molecule (with_lambda_elec molecule 1 chain_nonbonded))]>
      system2 in
  add_lambda_elec chain_system molecule 1 = Ok system1
  /\ create_custom_LJ_vacuum system1 molecule 5 = Ok system2
  /\ turn_off_nonbonded system2 molecule = Ok system3
  /\ exists nonbonded' intramol_LJ E_pairs E_exceptions,
    nonbonded_forces system3 = [(1, nonbonded')]
    /\ drop (length chain_system) system3 = [FCustomBond intramol_LJ]
    /\ nonbonded_LJ_energy nonbonded' nothing_set unit_distances = Some 0%R
    /\ custom_bond_energy intramol_LJ unit_distances = Some E_exceptions
    /\ osum (nonbonded_pair_term chain_nonbonded nothing_set unit_distances
               <$> pairs (getNumParticles chain_nonbonded)) = Some E_pairs
    /\ nonbonded_LJ_energy chain_nonbonded nothing_set unit_distances
       = Some (E_pairs + E_exceptions)%R.
Proof.
  intros molecule system1 system2 system3.
  assert (add_lambda_elec chain_system molecule 1 = Ok system1) as H1
    by (rewrite add_lambda_elec_closed; reflexivity).
  assert (create_custom_LJ_vacuum system1 molecule 5 = Ok system2) as H2
    by (rewrite create_custom_LJ_vacuum_closed; reflexivity).
  assert (turn_off_nonbonded system2 molecule = Ok system3) as H3
    by (rewrite turn_off_nonbonded_closed; reflexivity).
  split; [exact H1|]. split; [exact H2|]. split; [exact H3|].
  apply (vacuum_setup_keeps_the_exception_energy chain_system molecule 1%R 5
           1 chain_nonbonded [] system1 system2 system3 nothing_set
           unit_distances);
    [reflexivity | exact H1 | exact H2 | exact H3 | reflexivity | reflexivity
    | | | | ].
  - intros i Hi. unfold getNumParticles in Hi. simpl in Hi.
    destruct i as [|[|[|]]]; try lia; unfold molecule;
      repeat (first [apply elem_of_cons; by left | apply list_elem_of_further]).
  - intros e He. unfold chain_nonbonded in He. cbn [nb_exceptions] in He.
    apply elem_of_cons in He as [->|He];
      [|apply list_elem_of_singleton in He as ->];
      cbn [e_atom_i e_atom_j]; unfold molecule; split;
      repeat (first [apply elem_of_cons; by left | apply list_elem_of_further]).
  - intros i p Hp. destruct i as [|[|[|]]]; simpl in Hp; try done;
      injection Hp as <-; simpl; lra.
  - split; intros; unfold unit_distances; lra.
Defined.

(** ** What the production loop writes, and the trajectory it samples *)

Section Loop_frame.

Variable Microstate : Type.
Variable step : gmap string R -> nat -> Microstate -> Microstate.
Variable potential_energy : gmap string R -> Microstate -> R.
Variable parameter_name : string.
Variable lambda_values : list R.
Variable equil_steps output_freq total_iterations : nat.
Variable kT : R.

(** X13. The production loop writes the entries [u[k, l, n]] with [k]
    and [l] below the number of lambda values and [n] below
    [total_iterations], and no other entry; it changes no context
    parameter other than the control parameter; and with an empty list
    of lambda values it returns the simulation and the matrix as they
    were. *)
Theorem production_loop_frame
    (simulation : Simulation Microstate) (u_kln : matrix) :
  let r :=
    alchemical_run step potential_energy parameter_name lambda_values
      equil_steps output_freq total_iterations kT simulation u_kln in
  (forall k l n,
      ~ (k < length lambda_values /\ l < length lambda_values
         /\ n < total_iterations) ->
      r.2 k l n = u_kln k l n)
  /\ (forall name,
        name <> parameter_name ->
        parameters r.1 !! name = parameters simulation !! name)
  /\ (lambda_values = [] -> r = (simulation, u_kln)).
Proof.
  intros r.
  pose proof (run_from Microstate step potential_energy parameter_name
                lambda_values equil_steps output_freq total_iterations kT
                (parameters simulation) 0 lambda_values simulation u_kln
                (fun v => eq_refl)) as H.
  cbv zeta in H. destruct H as (_ & Hp & Hu).
  split; [|split].
  - intros k l n Hout. subst r. unfold alchemical_run, enumerate.
    rewrite Hu. case_decide as Hd; [|done].
    rewrite Nat.sub_0_r.
    destruct (lambda_values !! k) as [lb1|] eqn:Hk; [|done].
    destruct (lambda_values !! l) as [lb2|] eqn:Hl; [|done].
    exfalso. apply Hout. apply lookup_lt_Some in Hk, Hl. lia.
  - intros name Hne. subst r. unfold alchemical_run, enumerate.
    pose proof (Hp 0%R) as E. unfold setParameter in E.
    apply (f_equal (fun m => m !! name)) in E.
    by rewrite !lookup_insert_ne in E.
  - intros E. subst r. unfold alchemical_run. by rewrite E.
Qed.

(** X14. When the dynamics composes, that is, when [a + b] steps are
    [a] steps followed by [b] steps, the microstate behind the entries
    [u[k, l, n]] is the one reached from the end of the state before by
    a single run of [equil_steps + (n + 1) * output_freq] steps at
    lambda_values[k]: the energy evaluations at the other lambda values,
    done between the blocks, leave no trace in the trajectory. *)
Theorem samples_lie_on_one_trajectory
    (simulation : Simulation Microstate) (u_kln : matrix) :
  (forall p a b x, step p (a + b) x = step p b (step p a x)) ->
  let p0 := parameters simulation in
  let x0 := microstate simulation in
  let r :=
    alchemical_run step potential_energy parameter_name lambda_values
      equil_steps output_freq total_iterations kT simulation u_kln in
  forall k l n lb1 lb2,
    lambda_values !! k = Some lb1 -> lambda_values !! l = Some lb2 ->
    n < total_iterations ->
    r.2 k l n
    = (potential_energy (setParameter p0 parameter_name lb2)
         (step (setParameter p0 parameter_name lb1)
               (equil_steps + S n * output_freq)
               (start_of step parameter_name lambda_values equil_steps
                  output_freq total_iterations p0 x0 k))
       / kT)%R.
Proof.
  intros Hstep p0 x0 r k l n lb1 lb2 Hk Hl Hn.
  pose proof (run_from Microstate step potential_energy parameter_name
                lambda_values equil_steps output_freq total_iterations kT
                p0 0 lambda_values simulation u_kln (fun v => eq_refl)) as H.
  cbv zeta in H. destruct H as (_ & _ & Hu).
  subst r. unfold alchemical_run, enumerate.
  rewrite Hu, decide_True by lia. rewrite Nat.sub_0_r, Hk, Hl.
  f_equal. f_equal. fold x0.
  change (foldl _ x0 (take k lambda_values))
    with (start_of step parameter_name lambda_values equil_steps
            output_freq total_iterations p0 x0 k).
  generalize (start_of step parameter_name lambda_values equil_steps
                output_freq total_iterations p0 x0 k). intros x.
  unfold equilibrated. generalize (S n). intros m.
  induction m as [|m IH].
  - cbn [after_blocks]. by rewrite Nat.mul_0_l, Nat.add_0_r.
  - cbn [after_blocks]. rewrite IH, <- Hstep. f_equal. lia.
Qed.

End Loop_frame.

Lemma production_loop_frame_witness :
  let lambda_values := [0; 1 / 2; 1]%R in
  let simulation := mkSimulation (∅ : gmap string R) 0%R in
  let r :=
    alchemical_run drift_step drift_energy "lambda_sterics" lambda_values
      2 1 2 (5 / 2) simulation (fun _ _ _ => 0%R) in
  (forall k l n,
      ~ (k < length lambda_values /\ l < length lambda_values /\ n < 2) ->
      r.2 k l n = 0%R)
  /\ (forall name,
        name <> "lambda_sterics" ->
        parameters r.1 !! name = parameters simulation !! name)
  /\ (lambda_values = [] -> r = (simulation, fun _ _ _ => 0%R)).
Proof.
  exact (production_loop_frame R drift_step drift_energy "lambda_sterics"
           [0; 1 / 2; 1]%R 2 1 2 (5 / 2)%R
           (mkSimulation (∅ : gmap string R) 0%R) (fun _ _ _ => 0%R)).
Defined.

Lemma samples_lie_on_one_trajectory_witness :
  let lambda_values := [0; 1 / 2; 1]%R in
  let simulation := mkSimulation (∅ : gmap string R) 0%R in
  let r :=
    alchemical_run drift_step drift_energy "lambda_sterics" lambda_values
      2 1 2 (5 / 2) simulation (fun _ _ _ => 0%R) in
  (forall p a b x, drift_step p (a + b) x = drift_step p b (drift_step p a x))
  /\ r.2 1 2 1
     = (drift_energy (setParameter ∅ "lambda_sterics" 1)
          (drift_step (setParameter ∅ "lambda_sterics" (1 / 2)) (2 + 2 * 1)
             (start_of drift_step "lambda_sterics" lambda_values 2 1 2 ∅ 0%R 1))
        / (5 / 2))%R.
Proof.
  intros lambda_values simulation r.
  assert (forall p a b x,
            drift_step p (a + b) x = drift_step p b (drift_step p a x)) as Hstep.
  { intros p a b x. unfold drift_step. rewrite plus_INR. lra. }
  split; [exact Hstep|].
  apply (samples_lie_on_one_trajectory R drift_step drift_energy
           "lambda_sterics" lambda_values 2 1 2 (5 / 2)%R simulation
           (fun _ _ _ => 0%R) Hstep 1 2 1 (1 / 2)%R 1%R);
    [reflexivity | reflexivity | lia].
Defined.

(** ** What the decorrelation cell leaves in place *)

Lemma length_axis_indices T indices columns :
  axis_indices T indices = Ok columns -> length columns = length indices.
Proof.
  revert columns. induction indices as [|t rest IH]; intros columns H.
  - by injection H as <-.
  - cbn [axis_indices] in H.
    destruct (axis_index T t) as [column|]; [|done].
    destruct (axis_indices T rest) as [columns'|]; [|done].
    cbn in H. injection H as <-. cbn [length]. f_equal. by apply IH.
Qed.

Section Cell_frame.

Variable detectEquilibration : list R -> nat * Q * Q.
Variable statisticalInefficiency : list R -> Q.
Variable n_lambda total_iterations : nat.

Lemma decorrelate_states_frame fuel m0 k0 (N_k N_k' : nat -> nat)
    (u u' : matrix) :
  decorrelate_states detectEquilibration statisticalInefficiency n_lambda
    total_iterations fuel (seq k0 m0) (N_k, u)
  = Some (Ok (N_k', u')) ->
  (forall k, ~ (k0 <= k < k0 + m0) -> N_k' k = N_k k)
  /\ (forall k l j,
        ~ (k0 <= k < k0 + m0) \/ n_lambda <= l \/ N_k' k <= j ->
        u' k l j = u k l j).
Proof.
  revert k0 N_k u. induction m0 as [|m0 IH]; intros k0 N_k u H.
  - cbn in H. by injection H as <- <-.
  - cbn [seq decorrelate_states] in H.
    destruct (decorrelate_state _ _ _ _ _ k0 (N_k, u)) as [[[N1 u1]|]|] eqn:Hstate;
      [|done|done].
    unfold decorrelate_state in Hstate. cbn [fst snd] in Hstate.
    destruct (subsampleCorrelatedData _ _ _ _) as [[indices|]|]; [|done|done].
    destruct (axis_indices total_iterations indices) as [columns|] eqn:Hcols;
      [|done].
    case_decide; [|done]. injection Hstate as <- <-.
    apply length_axis_indices in Hcols.
    destruct (IH _ _ _ H) as [HN Hu]. split.
    + intros k Hk. rewrite HN by lia. unfold set_count.
      by rewrite decide_False by lia.
    + intros k l j Hout.
      assert (N_k' k0 = length columns) as HN0.
      { rewrite HN by lia. unfold set_count. rewrite decide_True by done. lia. }
      rewrite Hu.
      * unfold compact_row. case_decide as Hd; [|done].
        destruct Hd as (-> & Hl & Hj). exfalso.
        destruct Hout as [Hout|[Hout|Hout]]; lia.
      * destruct (decide (k = k0)) as [->|Hne]; [left; lia|].
        destruct Hout as [Hout|[Hout|Hout]]; [left; lia|by right; left|by right; right].
Qed.

Variable u_kln : matrix.

(** X15. The decorrelation cell writes, in the row of each state k, the
    first N_k[k] columns of the evaluation states below n_lambda and
    nothing else: the columns from N_k[k] on keep the values they had
    (they are not cleared), and so do the rows of other states and what
    lies outside the n_lambda by n_lambda block; the counts of indices
    from n_lambda on stay at zero. *)
Theorem decorrelation_keeps_the_tail fuel :
  (forall k, k < n_lambda ->
     (1 <= (detectEquilibration
              (diagonal_series total_iterations u_kln k)).1.2)%Q) ->
  total_iterations < fuel ->
  exists N_k u',
    decorrelation_cell detectEquilibration statisticalInefficiency n_lambda
      total_iterations fuel u_kln
    = Some (Ok (N_k, u'))
    /\ (forall k, n_lambda <= k -> N_k k = 0)
    /\ (forall k l j,
          n_lambda <= k \/ n_lambda <= l \/ N_k k <= j ->
          u' k l j = u_kln k l j).
Proof.
  intros Hg Hfuel. unfold decorrelation_cell, range.
  destruct (decorrelate_states_run detectEquilibration statisticalInefficiency
              n_lambda total_iterations u_kln fuel n_lambda 0 (fun _ => 0) u_kln)
    as (N_k & u' & Hcell & _); [done | intros; apply Hg; lia | done |].
  exists N_k, u'. split; [exact Hcell|].
  destruct (decorrelate_states_frame _ _ _ _ _ _ _ Hcell) as [HN Hu].
  split.
  - intros k Hk. apply HN. lia.
  - intros k l j Hout. apply Hu.
    destruct Hout as [Hout|[Hout|Hout]]; [left; lia|by right; left|by right; right].
Qed.

End Cell_frame.

Lemma decorrelation_keeps_the_tail_witness :
  let detectEquilibration := fun _ : list R => (0, (3 # 2)%Q, 2%Q) in
  let statisticalInefficiency := fun _ : list R => 1%Q in
  let u_kln : matrix := fun k l n => INR (k + l + n) in
  exists N_k u',
    decorrelation_cell detectEquilibration statisticalInefficiency 2 4 5 u_kln
    = Some (Ok (N_k, u'))
    /\ (forall k, 2 <= k -> N_k k = 0)
    /\ (forall k l j,
          2 <= k \/ 2 <= l \/ N_k k <= j ->
          u' k l j = u_kln k l j).
Proof.
  intros detectEquilibration statisticalInefficiency u_kln.
  apply (decorrelation_keeps_the_tail detectEquilibration
           statisticalInefficiency 2 4 u_kln 5).
  - intros k Hk. simpl. Lqa.lra.
  - lia.
Defined.

(** ** The cells of the Lennard-Jones notebook that load the inputs *)

Lemma lookup_insert_other (m : gmap string value) name name' v :
  name' <> name -> <[name' := v]> m !! name = m !! name.
Proof. intros H. by rewrite lookup_insert_ne. Qed.

(** X16. In the Lennard-Jones notebook the setup cell binds
    [build_folder], the name the loading cell reads: run one after the
    other in a kernel that holds the imports, the two cells return when
    the three library calls return, the topology is read from
    build_files/ethanol_tip3p.prmtop and the coordinates from
    build_files/ethanol_tip3p.rst7, and [prmtop] and [inpcrd] are bound
    to what the calls returned. *)
Theorem lj_notebook_loads_its_inputs
    (library : string -> list value -> result value) (k : kernel)
    (os AmberPrmtopFile AmberInpcrdFile made prmtop inpcrd : value) :
  names k !! "os" = Some os ->
  names k !! "AmberPrmtopFile" = Some AmberPrmtopFile ->
  names k !! "AmberInpcrdFile" = Some AmberInpcrdFile ->
  library "os.makedirs" [os; Str "vdw-bulk"] = Ok made ->
  library "AmberPrmtopFile"
    [AmberPrmtopFile; Str "build_files/ethanol_tip3p.prmtop"] = Ok prmtop ->
  library "AmberInpcrdFile"
    [AmberInpcrdFile; Str "build_files/ethanol_tip3p.rst7"] = Ok inpcrd ->
  run_all [lj_setup library; lj_load_inputs library] k
  = ([Ok tt; Ok tt],
     mkKernel
       (<["inpcrd" := inpcrd]>
          (<["prmtop" := prmtop]>
             (<["work_folder" := Str "vdw-bulk"]>
                (<["build_folder" := Str "build_files"]> (names k)))))
       (stdout k)).
Proof.
  intros Hos Hp Hi Hmade Hprmtop Hinpcrd.
  assert (lj_setup library k
          = (Ok tt,
             mkKernel (<["work_folder" := Str "vdw-bulk"]>
                         (<["build_folder" := Str "build_files"]> (names k)))
               (stdout k))) as Hsetup.
  { unfold lj_setup. rewrite !assign_bind.
    rewrite load_bind with (v := os)
      by (cbn [names]; by rewrite !lookup_insert_other).
    rewrite load_bind with (v := Str "vdw-bulk")
      by (cbn [names]; apply lookup_insert_eq).
    rewrite (call_bind _ _ _ _ _ _ Hmade). reflexivity. }
  rewrite run_all_cons, Hsetup.
  set (k1 := mkKernel _ _).
  assert (names k1 !! "build_folder" = Some (Str "build_files")) as Hb.
  { unfold k1. cbn [names]. rewrite lookup_insert_other by done.
    apply lookup_insert_eq. }
  assert (lj_load_inputs library k1
          = (Ok tt,
             mkKernel (<["inpcrd" := inpcrd]> (<["prmtop" := prmtop]> (names k1)))
               (stdout k1))) as Hload.
  { unfold lj_load_inputs.
    rewrite load_bind with (v := AmberPrmtopFile)
      by (unfold k1; cbn [names]; by rewrite !lookup_insert_other).
    rewrite (load_bind _ _ _ _ Hb). cbn [str].
    change ("build_files" +:+ "/ethanol_tip3p.prmtop")
      with "build_files/ethanol_tip3p.prmtop".
    rewrite (call_bind _ _ _ _ _ _ Hprmtop), assign_bind.
    rewrite load_bind with (v := AmberInpcrdFile)
      by (unfold k1; cbn [names]; by rewrite !lookup_insert_other).
    rewrite load_bind with (v := Str "build_files")
      by (cbn [names]; by rewrite lookup_insert_other).
    cbn [str].
    change ("build_files" +:+ "/ethanol_tip3p.rst7")
      with "build_files/ethanol_tip3p.rst7".
    rewrite (call_bind _ _ _ _ _ _ Hinpcrd). reflexivity. }
  rewrite run_all_cons, Hload. reflexivity.
Qed.

Lemma lj_notebook_loads_its_inputs_witness :
  let k :=
    mkKernel (<["os" := Object "os"]>
                (<["AmberPrmtopFile" := Object "AmberPrmtopFile"]>
                   (<["AmberInpcrdFile" := Object "AmberInpcrdFile"]> ∅))) [] in
  run_all [lj_setup obliging_library; lj_load_inputs obliging_library] k
  = ([Ok tt; Ok tt],
     mkKernel
       (<["inpcrd" := Object "AmberInpcrdFile"]>
          (<["prmtop" := Object "AmberPrmtopFile"]>
             (<["work_folder" := Str "vdw-bulk"]>
                (<["build_folder" := Str "build_files"]> (names k)))))
       (stdout k)).
Proof.
  intros k.
  apply (lj_notebook_loads_its_inputs obliging_library k (Object "os")
           (Object "AmberPrmtopFile") (Object "AmberInpcrdFile")
           (Object "os.makedirs") (Object "AmberPrmtopFile")
           (Object "AmberInpcrdFile")); reflexivity.
Defined.

(** ** The selection cell for the names it knows, and in a used kernel *)

(** X17. For a name that is GAFF or SAGE up to the case of its letters
    the selection cell builds the template generator of that family
    (the SMIRNOFF one with openff-2.0.0.offxml), binds it to [template],
    prints the line that names the force field and no warning,
    registers the generator with the force field, and returns, when the
    library calls return. *)
Theorem known_force_field_is_registered
    (library : string -> list value -> result value) (k : kernel)
    (openmm forcefield generator off_mol template registered : value)
    (name : string) :
  names k !! "openmm" = Some openmm ->
  library "openmm.app.ForceField" [openmm; Str "tip3p.xml"] = Ok forcefield ->
  names k !! "forcefield_name" = Some (Str name) ->
  names k !! "off_mol" = Some off_mol ->
  (upper name = "GAFF"
   /\ names k !! "GAFFTemplateGenerator" = Some generator
   /\ library "GAFFTemplateGenerator" [generator; off_mol] = Ok template)
  \/ (upper name = "SAGE"
      /\ names k !! "SMIRNOFFTemplateGenerator" = Some generator
      /\ library "SMIRNOFFTemplateGenerator"
           [generator; Str "openff-2.0.0.offxml"; off_mol] = Ok template) ->
  library "registerTemplateGenerator" [forcefield; template] = Ok registered ->
  select_force_field library k
  = (Ok tt,
     mkKernel (<["template" := template]>
                 (<["forcefield" := forcefield]> (names k)))
       (stdout k ++ ["Using force field: " +:+ name])).
Proof.
  intros Hopenmm Hcall Hname Hmol Hbranch Hreg.
  unfold select_force_field.
  rewrite (load_bind _ _ _ _ Hopenmm), (call_bind _ _ _ _ _ _ Hcall).
  rewrite assign_bind.
  rewrite load_bind with (v := Str name)
    by (cbn [names]; by rewrite lookup_insert_other).
  cbn [str].
  destruct Hbranch as [(Hu & Hg & Ht) | (Hu & Hg & Ht)]; rewrite Hu.
  - change ("GAFF" =? "GAFF")%string with true. cbv iota.
    rewrite bind_bind.
    rewrite load_bind with (v := generator)
      by (cbn [names]; by rewrite lookup_insert_other).
    rewrite bind_bind.
    rewrite load_bind with (v := off_mol)
      by (cbn [names]; by rewrite lookup_insert_other).
    rewrite bind_bind.
    rewrite (call_bind _ _ _ _ _ _ Ht), assign_bind.
    rewrite load_bind with (v := Str name)
      by (cbn [names]; by rewrite !lookup_insert_other).
    rewrite print_bind.
    rewrite load_bind with (v := forcefield)
      by (cbn [names]; rewrite lookup_insert_other by done;
          apply lookup_insert_eq).
    rewrite load_bind with (v := template)
      by (cbn [names]; apply lookup_insert_eq).
    rewrite (call_bind _ _ _ _ _ _ Hreg). reflexivity.
  - change ("SAGE" =? "GAFF")%string with false.
    cbv iota. rewrite bind_bind.
    rewrite load_bind with (v := Str name)
      by (cbn [names]; by rewrite lookup_insert_other).
    cbn [str]. rewrite Hu.
    change ("SAGE" =? "SAGE")%string with true. cbv iota.
    rewrite bind_bind.
    rewrite load_bind with (v := generator)
      by (cbn [names]; by rewrite lookup_insert_other).
    rewrite bind_bind.
    rewrite load_bind with (v := off_mol)
      by (cbn [names]; by rewrite lookup_insert_other).
    rewrite bind_bind.
    rewrite (call_bind _ _ _ _ _ _ Ht), assign_bind.
    rewrite load_bind with (v := Str name)
      by (cbn [names]; by rewrite !lookup_insert_other).
    rewrite print_bind.
    rewrite load_bind with (v := forcefield)
      by (cbn [names]; rewrite lookup_insert_other by done;
          apply lookup_insert_eq).
    rewrite load_bind with (v := template)
      by (cbn [names]; apply lookup_insert_eq).
    rewrite (call_bind _ _ _ _ _ _ Hreg). reflexivity.
Qed.

Lemma known_force_field_is_registered_witness :
  let k :=
    mkKernel (<["forcefield_name" := Str "Sage"]>
                (<["off_mol" := Object "off_mol"]>
                   (<["SMIRNOFFTemplateGenerator" := Object "generator"]>
                      (<["openmm" := Object "openmm"]> ∅)))) [] in
  select_force_field obliging_library k
  = (Ok tt,
     mkKernel (<["template" := Object "SMIRNOFFTemplateGenerator"]>
                 (<["forcefield" := Object "openmm.app.ForceField"]> (names k)))
       (stdout k ++ ["Using force field: " +:+ "Sage"])).
Proof.
  intros k.
  apply (known_force_field_is_registered obliging_library k (Object "openmm")
           (Object "openmm.app.ForceField") (Object "generator")
           (Object "off_mol") (Object "SMIRNOFFTemplateGenerator")
           (Object "registerTemplateGenerator") "Sage");
    [reflexivity | reflexivity | reflexivity | reflexivity | | reflexivity].
  right. split; [reflexivity|]. split; reflexivity.
Defined.

(** X18. In a kernel where [template] is still bound from an earlier
    run, the selection cell does not fail for a name it does not know:
    it prints the warning, prints the line that names the force field,
    registers the generator of the earlier run with the new force field
    and returns; [template] keeps its value. *)
Theorem unknown_force_field_reuses_a_stale_template
    (library : string -> list value -> result value) (k : kernel)
    (openmm forcefield template registered : value) (name : string) :
  names k !! "openmm" = Some openmm ->
  library "openmm.app.ForceField" [openmm; Str "tip3p.xml"] = Ok forcefield ->
  names k !! "forcefield_name" = Some (Str name) ->
  upper name <> "GAFF" ->
  upper name <> "SAGE" ->
  names k !! "template" = Some template ->
  library "registerTemplateGenerator" [forcefield; template] = Ok registered ->
  select_force_field library k
  = (Ok tt,
     mkKernel (<["forcefield" := forcefield]> (names k))
       (stdout k ++ ["Unknow force field, cannot preceed.";
                     "Using force field: " +:+ name])).
Proof.
  intros Hopenmm Hcall Hname Hgaff Hsage Htemplate Hreg.
  unfold select_force_field.
  rewrite (load_bind _ _ _ _ Hopenmm), (call_bind _ _ _ _ _ _ Hcall).
  rewrite assign_bind.
  rewrite load_bind with (v := Str name)
    by (cbn [names]; by rewrite lookup_insert_other).
  cbn [str]. apply String.eqb_neq in Hgaff, Hsage. rewrite Hgaff.
  rewrite bind_bind.
  rewrite load_bind with (v := Str name)
    by (cbn [names]; by rewrite lookup_insert_other).
  cbn [str]. rewrite Hsage. rewrite print_bind.
  rewrite load_bind with (v := Str name)
    by (cbn [names]; by rewrite lookup_insert_other).
  rewrite print_bind.
  rewrite load_bind with (v := forcefield) by apply lookup_insert_eq.
  rewrite load_bind with (v := template)
    by (cbn [names]; by rewrite lookup_insert_other).
  rewrite (call_bind _ _ _ _ _ _ Hreg).
  cbn [str names stdout]. by rewrite <- app_assoc.
Qed.

Lemma unknown_force_field_reuses_a_stale_template_witness :
  let k :=
    mkKernel (<["template" := Object "generator of an earlier run"]>
                (names amber_kernel)) [] in
  select_force_field obliging_library k
  = (Ok tt,
     mkKernel (<["forcefield" := Object "openmm.app.ForceField"]> (names k))
       (stdout k ++ ["Unknow force field, cannot preceed.";
                     "Using force field: " +:+ "amber14"])).
Proof.
  intros k.
  apply (unknown_force_field_reuses_a_stale_template obliging_library k
           (Object "openmm") (Object "openmm.app.ForceField")
           (Object "generator of an earlier run")
           (Object "registerTemplateGenerator") "amber14");
    [reflexivity | reflexivity | reflexivity | | | reflexivity | reflexivity].
  - vm_compute. discriminate.
  - vm_compute. discriminate.
Defined.

(** ** The output files of the example *)

Lemma string_app_inv_head (s a b : string) : s +:+ a = s +:+ b -> a = b.
Proof.
  induction s as [|c s IH]; [done|]. cbn. intros [= H]. by apply IH.
Qed.

(** X19. Whatever the system name and the force-field name are, the
    four files that the example writes (the two serialized systems and
    the two PDB files) have four different names: no output overwrites
    another.  The names of the serialized systems hold the force-field
    name in lower case. *)
Theorem output_files_never_collide (system_name forcefield_name : string) :
  NoDup (written_files system_name forcefield_name)
  /\ saved_vacumm_system_file_name system_name forcefield_name
     = saved_vacumm_system_file_name system_name (lower forcefield_name).
Proof.
  split.
  - unfold written_files, saved_vacumm_system_file_name,
      saved_solvated_system_file_name, solvated_system_pdb_filename,
      system_pdb_filename.
    repeat (apply NoDup_cons; split); try apply NoDup_nil_2;
      rewrite ?not_elem_of_cons; repeat split; try apply not_elem_of_nil;
      intros H; apply string_app_inv_head in H; discriminate.
  - unfold saved_vacumm_system_file_name. do 3 f_equal.
    induction forcefield_name as [|c s IH]; [done|].
    cbn [lower]. f_equal; [|exact IH].
    unfold lower_ascii.
    destruct ((65 <=? Ascii.nat_of_ascii c) && (Ascii.nat_of_ascii c <=? 90))
      eqn:Hc; [|by rewrite Hc].
    apply andb_true_iff in Hc as [H1 H2].
    apply Nat.leb_le in H1, H2.
    rewrite Ascii.nat_ascii_embedding by lia.
    replace (65 <=? Ascii.nat_of_ascii c + 32) with true
      by (symmetry; apply Nat.leb_le; lia).
    replace (Ascii.nat_of_ascii c + 32 <=? 90) with false
      by (symmetry; apply Nat.leb_gt; lia).
    done.
Qed.

(** ** The soft-core force at its decoupled end, and built too late *)

(** A term of the soft-core force is zero when lambda is zero or when
    the combined epsilon of the pair is. *)
Lemma softcore_term_zero f molecule solvent lambda_value g ctx lambda dist i j :
  sterics_context ctx lambda ->
  i < j < getNumParticles f ->
  (forall p q,
      nb_particles f !! i = Some p -> nb_particles f !! j = Some q ->
      (contains molecule i && contains solvent j)
      || (contains molecule j && contains solvent i) = true ->
      (p_sigma p + p_sigma q <> 0)%R
      /\ (0 <= p_epsilon p * p_epsilon q)%R
      /\ (0 < 1 / 2 * (1 - lambda)
              + (dist i j / (1 / 2 * (p_sigma p + p_sigma q))) ^ 6)%R
      /\ (lambda = 0%R \/ (p_epsilon p * p_epsilon q)%R = 0%R)) ->
  custom_nonbonded_term (softcore_force f molecule solvent lambda_value g)
    ctx dist (i, j)
  = Some 0%R.
Proof.
  intros (Hl & Ha & Hb & Hc & Halpha) Hij Hpair.
  unfold custom_nonbonded_term. cbn [fst snd].
  rewrite excluded_softcore_force, in_groups_softcore_force.
  destruct ((contains molecule i && contains solvent j)
            || (contains molecule j && contains solvent i)) eqn:Hgroup; [|done].
  cbn [andb]. destruct (negb (excepted f i j)); [|done]. cbn [andb].
  destruct (within_cutoff _ _ _); [|done].
  cbn [softcore_force cnb_particles].
  destruct (lookup_lt_is_Some_2 (nb_particles f) i) as [p Hp];
    [unfold getNumParticles in Hij; lia|].
  destruct (lookup_lt_is_Some_2 (nb_particles f) j) as [q Hq];
    [unfold getNumParticles in Hij; lia|].
  rewrite !list_lookup_fmap, Hp, Hq.
  cbn [fmap option_fmap option_map mbind option_bind].
  destruct (Hpair p q Hp Hq eq_refl) as (Hs & He & HB & Hzero).
  rewrite softcore_pair_energy, Hl, Ha, Hb, Hc, Halpha.
  rewrite osqrt_defined by done. cbn [mbind option_bind default Datatypes.id].
  rewrite spec_softcore_closed by (done || lra).
  cbv zeta. f_equal.
  destruct Hzero as [-> | ->]; [ring|]. rewrite sqrt_0. ring.
Qed.

(** X20. At lambda_sterics = 0 the CustomNonbondedForce built by
    [add_LJ_scaling] has energy zero at every configuration, atoms on
    top of each other included: the molecule and the solvent do not see
    each other.  This needs that no epsilon is negative and that the
    combined sigma of an atom of the molecule with an atom of the
    solvent is never zero. *)
Theorem softcore_force_vanishes_at_zero
    system molecule solvent lambda_value force_group_1 force_group_2
    k nonbonded rest ctx dist :
  nonbonded_forces system = (k, nonbonded) :: rest ->
  sterics_context ctx 0 ->
  (forall i p, nb_particles nonbonded !! i = Some p -> (0 <= p_epsilon p)%R) ->
  (forall i j p q,
      i ∈ molecule -> j ∈ solvent ->
      nb_particles nonbonded !! i = Some p ->
      nb_particles nonbonded !! j = Some q ->
      (p_sigma p + p_sigma q <> 0)%R) ->
  exists intermol_LJ intramol_LJ,
    add_LJ_scaling system molecule solvent lambda_value
      force_group_1 force_group_2
    = Ok (system ++ [FCustomNonbonded intermol_LJ; FCustomBond intramol_LJ])
    /\ custom_nonbonded_energy intermol_LJ ctx dist = Some 0%R.
Proof.
  intros Hnb Hctx Heps Hsig. rewrite add_LJ_scaling_closed, Hnb.
  eexists _, _. split; [reflexivity|].
  unfold custom_nonbonded_energy.
  replace (length (cnb_particles _)) with (getNumParticles nonbonded)
    by (unfold getNumParticles; simpl; by rewrite length_fmap).
  rewrite (osum_ext _ (fun _ => Some 0%R)); [apply osum_zero_terms|].
  intros [i j] Hij. apply elem_of_pairs in Hij.
  apply (softcore_term_zero _ _ _ _ _ _ 0%R); [done|done|].
  intros p q Hp Hq Hgroup.
  assert (p_sigma p + p_sigma q <> 0)%R as Hs.
  { apply orb_true_iff in Hgroup as [Hg|Hg];
      apply andb_true_iff in Hg as [H1 H2]; unfold contains in H1, H2;
      apply bool_decide_eq_true_1 in H1, H2.
    - by apply (Hsig i j).
    - pose proof (Hsig j i q p H1 H2 Hq Hp). lra. }
  split; [exact Hs|].
  split; [apply Rmult_le_pos; [by apply (Heps i)|by apply (Heps j)]|].
  split; [|by left].
  pose proof (pow6_nonneg (dist i j / (1 / 2 * (p_sigma p + p_sigma q)))). lra.
Qed.

Lemma softcore_force_vanishes_at_zero_witness :
  exists intermol_LJ intramol_LJ,
    add_LJ_scaling demo_system [0; 1] [2] 0 6 5
    = Ok (demo_system ++ [FCustomNonbonded intermol_LJ; FCustomBond intramol_LJ])
    /\ custom_nonbonded_energy intermol_LJ (sterics_at 0) (fun _ _ => 0%R)
       = Some 0%R.
Proof.
  apply (softcore_force_vanishes_at_zero demo_system [0; 1] [2] 0%R 6 5
           1 demo_nonbonded [] (sterics_at 0) (fun _ _ => 0%R)).
  - reflexivity.
  - apply sterics_context_set.
  - intros i p Hp. destruct i as [|[|[|]]]; simpl in Hp; try done;
      injection Hp as <-; simpl; lra.
  - intros i j p q _ _ Hp Hq.
    destruct i as [|[|[|]]]; simpl in Hp; try done;
      destruct j as [|[|[|]]]; simpl in Hq; try done;
      injection Hp as <-; injection Hq as <-; simpl; lra.
Defined.

Lemma pow6_positive x : x <> 0%R -> (0 < x ^ 6)%R.
Proof.
  intros H.
  assert (x ^ 6 <> 0)%R as Hne by (by apply pow_nonzero).
  pose proof (pow6_nonneg x). lra.
Qed.

(** X21. The order of the two calls of the Lennard-Jones notebook
    matters.  When [turn_off_nonbonded] is called before
    [add_LJ_scaling], the two custom forces are built from the epsilons
    already set to zero: for every lambda_sterics up to 1 the
    CustomNonbondedForce and the CustomBondForce have energy zero, and
    the Lennard-Jones interactions of the molecule are in none of the
    forces. *)
Theorem custom_forces_after_turning_off_are_empty
    system molecule solvent lambda_value force_group_1 force_group_2
    k nonbonded rest system1 ctx lambda dist :
  nonbonded_forces system = (k, nonbonded) :: rest ->
  turn_off_nonbonded system molecule = Ok system1 ->
  sterics_context ctx lambda ->
  (lambda <= 1)%R ->
  (forall i p, nb_particles nonbonded !! i = Some p -> (0 <= p_epsilon p)%R) ->
  (forall i j p q,
      i ∈ molecule -> j ∈ solvent ->
      nb_particles nonbonded !! i = Some p ->
      nb_particles nonbonded !! j = Some q ->
      (p_sigma p + p_sigma q <> 0)%R) ->
  atoms_apart nonbonded dist ->
  exists intermol_LJ intramol_LJ,
    add_LJ_scaling system1 molecule solvent lambda_value
      force_group_1 force_group_2
    = Ok (system1 ++ [FCustomNonbonded intermol_LJ; FCustomBond intramol_LJ])
    /\ custom_nonbonded_energy intermol_LJ ctx dist = Some 0%R
    /\ custom_bond_energy intramol_LJ dist = Some 0%R.
Proof.
  intros Hnb H1 Hctx Hlam Heps Hsig [Hapart Hapart'].
  rewrite turn_off_nonbonded_closed, Hnb in H1.
  destruct (valid_atoms nonbonded molecule); [|done]. injection H1 as <-.
  rewrite add_LJ_scaling_closed.
  rewrite (nonbonded_forces_insert _ _ _ _ _ Hnb).
  eexists _, _. split; [reflexivity|]. split.
  - unfold custom_nonbonded_energy.
    replace (length (cnb_particles _)) with (getNumParticles nonbonded)
      by (unfold getNumParticles; simpl; unfold zeroed_particles;
          by rewrite length_fmap, length_imap).
    rewrite (osum_ext _ (fun _ => Some 0%R)); [apply osum_zero_terms|].
    intros [i j] Hij. apply elem_of_pairs in Hij.
    apply (softcore_term_zero _ _ _ _ _ _ lambda); [done| |].
    { unfold getNumParticles. cbn [turned_off nb_particles].
      unfold zeroed_particles. rewrite length_imap. exact Hij. }
    intros p' q' Hp' Hq' Hgroup.
    cbn [turned_off nb_particles] in Hp', Hq'.
    rewrite zeroed_particles_lookup in Hp', Hq'.
    destruct (nb_particles nonbonded !! i) as [p|] eqn:Hp; [|done].
    destruct (nb_particles nonbonded !! j) as [q|] eqn:Hq; [|done].
    cbn in Hp', Hq'. injection Hp' as <-. injection Hq' as <-.
    assert (0 < dist i j)%R as Hr by (apply Hapart; lia).
    pose proof (Heps i p Hp) as Hep. pose proof (Heps j q Hq) as Heq.
    apply orb_true_iff in Hgroup as [Hg|Hg];
      apply andb_true_iff in Hg as [Hm Hs]; rewrite Hm;
      unfold contains in Hm, Hs; apply bool_decide_eq_true_1 in Hm, Hs;
      cbn [zero_particle p_sigma p_epsilon].
    + assert (p_sigma p + p_sigma (if contains molecule j then zero_particle q else q)
              <> 0)%R as Hsum.
      { replace (p_sigma (if contains molecule j then zero_particle q else q))
          with (p_sigma q) by (by destruct (contains molecule j)).
        by apply (Hsig i j). }
      split; [exact Hsum|]. rewrite Rmult_0_l.
      split; [lra|]. split; [|by right].
      assert (0 < (dist i j
                   / (1 / 2 * (p_sigma p
                               + p_sigma (if contains molecule j
                                          then zero_particle q else q)))) ^ 6)%R.
      { apply pow6_positive. unfold Rdiv.
        apply Rmult_integral_contrapositive_currified; [lra|].
        apply Rinv_neq_0_compat. lra. }
      lra.
    + assert (p_sigma (if contains molecule i then zero_particle p else p)
              + p_sigma q <> 0)%R as Hsum.
      { replace (p_sigma (if contains molecule i then zero_particle p else p))
          with (p_sigma p) by (by destruct (contains molecule i)).
        pose proof (Hsig j i q p Hm Hs Hq Hp). lra. }
      split; [exact Hsum|]. rewrite Rmult_0_r.
      split; [lra|]. split; [|by right].
      assert (0 < (dist i j
                   / (1 / 2 * (p_sigma (if contains molecule i
                                        then zero_particle p else p)
                               + p_sigma q))) ^ 6)%R.
      { apply pow6_positive. unfold Rdiv.
        apply Rmult_integral_contrapositive_currified; [lra|].
        apply Rinv_neq_0_compat. lra. }
      lra.
  - unfold custom_bond_energy. cbn [intramolecular_force cb_bonds].
    rewrite <- list_fmap_compose.
    rewrite (osum_ext _ (fun _ => Some 0%R)); [apply osum_zero_terms|].
    intros e' He'. unfold compose.
    apply list_elem_of_filter in He' as [Hsol He'].
    cbn [turned_off nb_exceptions] in He'. unfold zeroed_exceptions in He'.
    apply list_elem_of_fmap in He' as (e & -> & He).
    rewrite custom_bond_term_lennard_jones.
    destruct (in_solute molecule e) eqn:Hsol0; [|congruence].
    cbn [zero_exception e_sigma e_epsilon e_atom_i e_atom_j].
    apply lennard_jones_zero_epsilon. pose proof (Hapart' e He). lra.
Qed.

Lemma custom_forces_after_turning_off_are_empty_witness :
  let system1 :=
    <[1 := FNonbonded (turned_off [0; 1] demo_nonbonded)]> demo_system in
  turn_off_nonbonded demo_system [0; 1] = Ok system1
  /\ exists intermol_LJ intramol_LJ,
    add_LJ_scaling system1 [0; 1] [2] 1 6 5
    = Ok (system1 ++ [FCustomNonbonded intermol_LJ; FCustomBond intramol_LJ])
    /\ custom_nonbonded_energy intermol_LJ (sterics_at 1) unit_distances
       = Some 0%R
    /\ custom_bond_energy intramol_LJ unit_distances = Some 0%R.
Proof.
  intros system1.
  assert (turn_off_nonbonded demo_system [0; 1] = Ok system1) as H1
    by (by rewrite turn_off_nonbonded_closed).
  split; [exact H1|].
  apply (custom_forces_after_turning_off_are_empty demo_system [0; 1] [2]
           1%R 6 5 1 demo_nonbonded [] system1 (sterics_at 1) 1%R
           unit_distances);
    [reflexivity | exact H1 | apply sterics_context_set | lra | | | ].
  - intros i p Hp. destruct i as [|[|[|]]]; simpl in Hp; try done;
      injection Hp as <-; simpl; lra.
  - intros i j p q _ _ Hp Hq.
    destruct i as [|[|[|]]]; simpl in Hp; try done;
      destruct j as [|[|[|]]]; simpl in Hq; try done;
      injection Hp as <-; injection Hq as <-; simpl; lra.
  - split; intros; unfold unit_distances; lra.
Defined.

(** ** Where the two notebooks meet *)

(** X22. The end of the electrostatics notebook is the start of the
    Lennard-Jones notebook: built from the same base force, the
    CustomNonbondedForce of [add_LJ_scaling] at lambda_sterics = 1 and
    the CustomNonbondedForce of [create_custom_LJ] have the same energy
    at every configuration in which distinct atoms are apart, when no
    epsilon is negative and the combined sigma of an atom of the
    molecule with an atom of the solvent is positive; and the two
    functions build the same CustomBondForce. *)
Theorem softcore_at_one_is_the_plain_force
    system molecule solvent lambda_value force_group_1 force_group_2
    k nonbonded rest ctx ctx' dist :
  nonbonded_forces system = (k, nonbonded) :: rest ->
  sterics_context ctx 1 ->
  (forall i p, nb_particles nonbonded !! i = Some p -> (0 <= p_epsilon p)%R) ->
  (forall i j p q,
      i ∈ molecule -> j ∈ solvent ->
      nb_particles nonbonded !! i = Some p ->
      nb_particles nonbonded !! j = Some q ->
      (0 < p_sigma p + p_sigma q)%R) ->
  (forall i j, i <> j -> (0 < dist i j)%R) ->
  exists softcore_LJ plain_LJ intramol_LJ E,
    add_LJ_scaling system molecule solvent lambda_value
      force_group_1 force_group_2
    = Ok (system ++ [FCustomNonbonded softcore_LJ; FCustomBond intramol_LJ])
    /\ create_custom_LJ system molecule solvent force_group_1 force_group_2
       = Ok (system ++ [FCustomNonbonded plain_LJ; FCustomBond intramol_LJ])
    /\ custom_nonbonded_energy softcore_LJ ctx dist = Some E
    /\ custom_nonbonded_energy plain_LJ ctx' dist = Some E.
Proof.
  intros Hnb Hctx Heps Hsig Hapart.
  rewrite add_LJ_scaling_closed, create_custom_LJ_closed, Hnb.
  assert (forall ij,
            ij ∈ pairs (getNumParticles nonbonded) ->
            is_Some (custom_nonbonded_term
                       (intermolecular_force nonbonded molecule solvent
                          force_group_1) ctx' dist ij)
            /\ custom_nonbonded_term
                 (softcore_force nonbonded molecule solvent lambda_value
                    force_group_1) ctx dist ij
               = custom_nonbonded_term
                   (intermolecular_force nonbonded molecule solvent
                      force_group_1) ctx' dist ij) as Hterm.
  { intros [i j] Hij. apply elem_of_pairs in Hij.
    destruct (((contains molecule i && contains solvent j)
               || (contains molecule j && contains solvent i))
              && negb (excepted nonbonded i j)
              && within_cutoff CutoffPeriodic (nb_cutoffDistance nonbonded)
                   (dist i j)) eqn:Hon.
    2:{ rewrite softcore_term_skipped, intermolecular_term_skipped by done.
        split; [by eexists|done]. }
    apply andb_true_iff in Hon as [Hon Hcut].
    apply andb_true_iff in Hon as [Hgroup Hex].
    apply negb_true_iff in Hex.
    destruct (lookup_lt_is_Some_2 (nb_particles nonbonded) i) as [p Hp];
      [unfold getNumParticles in Hij; lia|].
    destruct (lookup_lt_is_Some_2 (nb_particles nonbonded) j) as [q Hq];
      [unfold getNumParticles in Hij; lia|].
    assert (0 <= p_epsilon p * p_epsilon q)%R as He
      by (apply Rmult_le_pos; [by apply (Heps i)|by apply (Heps j)]).
    assert (0 < p_sigma p + p_sigma q)%R as Hs.
    { apply orb_true_iff in Hgroup as [Hg|Hg];
        apply andb_true_iff in Hg as [H1 H2]; unfold contains in H1, H2;
        apply bool_decide_eq_true_1 in H1, H2.
      - by apply (Hsig i j).
      - pose proof (Hsig j i q p H1 H2 Hq Hp). lra. }
    assert (0 < dist i j)%R as Hr by (apply Hapart; lia).
    rewrite (softcore_term_at_one _ _ _ _ _ _ _ i j p q) by done.
    rewrite (intermolecular_term _ _ _ _ _ _ i j p q) by done.
    split; [|done]. rewrite lennard_jones_defined by lra. by eexists. }
  destruct (osum_defined
              (custom_nonbonded_term
                 (intermolecular_force nonbonded molecule solvent force_group_1)
                 ctx' dist)
              (pairs (getNumParticles nonbonded))) as [E HE].
  { intros ij Hij. by apply Hterm. }
  eexists _, _, _, E. split; [reflexivity|]. split; [reflexivity|].
  unfold custom_nonbonded_energy.
  replace (length (cnb_particles
                     (softcore_force nonbonded molecule solvent lambda_value
                        force_group_1)))
    with (getNumParticles nonbonded)
    by (unfold getNumParticles; simpl; by rewrite length_fmap).
  replace (length (cnb_particles
                     (intermolecular_force nonbonded molecule solvent
                        force_group_1)))
    with (getNumParticles nonbonded)
    by (unfold getNumParticles; simpl; by rewrite length_fmap).
  split; [|exact HE].
  rewrite <- HE. apply osum_ext. intros ij Hij. by apply Hterm.
Qed.

Lemma softcore_at_one_is_the_plain_force_witness :
  exists softcore_LJ plain_LJ intramol_LJ E,
    add_LJ_scaling demo_system [0; 1] [2] 0 6 5
    = Ok (demo_system ++ [FCustomNonbonded softcore_LJ; FCustomBond intramol_LJ])
    /\ create_custom_LJ demo_system [0; 1] [2] 6 5
       = Ok (demo_system ++ [FCustomNonbonded plain_LJ; FCustomBond intramol_LJ])
    /\ custom_nonbonded_energy softcore_LJ (sterics_at 1) unit_distances = Some E
    /\ custom_nonbonded_energy plain_LJ nothing_set unit_distances = Some E.
Proof.
  apply (softcore_at_one_is_the_plain_force demo_system [0; 1] [2] 0%R 6 5
           1 demo_nonbonded [] (sterics_at 1) nothing_set unit_distances).
  - reflexivity.
  - apply sterics_context_set.
  - intros i p Hp. destruct i as [|[|[|]]]; simpl in Hp; try done;
      injection Hp as <-; simpl; lra.
  - intros i j p q _ _ Hp Hq.
    destruct i as [|[|[|]]]; simpl in Hp; try done;
      destruct j as [|[|[|]]]; simpl in Hq; try done;
      injection Hp as <-; injection Hq as <-; simpl; lra.
  - intros; unfold unit_distances; lra.
Defined.

(** ** An empty molecule *)

Lemma zeroed_particles_nil ps : zeroed_particles [] ps = ps.
Proof.
  apply list_eq. intros i. rewrite zeroed_particles_lookup.
  destruct (ps !! i) as [p|]; [|done]. cbn.
  by rewrite contains_false by apply not_elem_of_nil.
Qed.

Lemma zeroed_exceptions_nil es : zeroed_exceptions [] es = es.
Proof.
  apply list_eq. intros x. rewrite zeroed_exceptions_lookup.
  destruct (es !! x) as [e|]; [|done]. cbn. unfold in_solute.
  by rewrite contains_false by apply not_elem_of_nil.
Qed.

(** X23. With an empty molecule [turn_off_nonbonded] returns the system
    as it is, and [add_lambda_elec] only registers the global parameter
    lambda_electrostatics: no offset is added and no particle or
    exception changes. *)
Theorem empty_molecule_changes_nothing
    system lambda_value k nonbonded rest :
  nonbonded_forces system = (k, nonbonded) :: rest ->
  turn_off_nonbonded system [] = Ok system
  /\ add_lambda_elec system [] lambda_value
     = Ok (<[k := FNonbonded
                  (addGlobalParameter nonbonded "lambda_electrostatics"
                     lambda_value)]> system).
Proof.
  intros Hnb. split.
  - rewrite turn_off_nonbonded_closed, Hnb. cbn [valid_atoms forallb].
    f_equal. apply (list_insert_id (A := Force)).
    etransitivity; [exact (nonbonded_forces_lookup _ _ _ _ Hnb)|].
    do 2 f_equal.
    unfold turned_off. rewrite zeroed_particles_nil, zeroed_exceptions_nil.
    by destruct nonbonded.
  - rewrite add_lambda_elec_closed, Hnb. cbn [valid_atoms forallb].
    do 3 f_equal. unfold with_lambda_elec, addGlobalParameter.
    cbn [particle_offsets omap list_omap]. rewrite app_nil_r. f_equal.
    assert (exception_offsets [] 0 (nb_exceptions nonbonded) = []) as ->;
      [|by rewrite app_nil_r].
    generalize 0. induction (nb_exceptions nonbonded) as [|e es IH];
      intros n; [done|].
    cbn [exception_offsets]. unfold in_solute at 1.
    rewrite contains_false by apply not_elem_of_nil. cbn [andb app].
    apply IH.
Qed.

Lemma empty_molecule_changes_nothing_witness :
  turn_off_nonbonded demo_system [] = Ok demo_system
  /\ add_lambda_elec demo_system [] 1
     = Ok (<[1 := FNonbonded
                  (addGlobalParameter demo_nonbonded "lambda_electrostatics" 1)]>
             demo_system).
Proof.
  apply (empty_molecule_changes_nothing demo_system 1%R 1 demo_nonbonded []).
  reflexivity.
Defined.

(** ** Calls that commute *)

(** X24. [add_lambda_elec] and [create_custom_LJ] commute: called in
    either order, for the same molecule, they return the same system,
    or raise the same exception.  (Only [turn_off_nonbonded] has to come
    last.) *)
Theorem add_lambda_elec_commutes_with_create_custom_LJ
    system molecule solvent lambda_value force_group_1 force_group_2 :
  (system1 ← add_lambda_elec system molecule lambda_value;
   create_custom_LJ system1 molecule solvent force_group_1 force_group_2)
  = (system1 ← create_custom_LJ system molecule solvent
                 force_group_1 force_group_2;
     add_lambda_elec system1 molecule lambda_value).
Proof.
  rewrite add_lambda_elec_closed, create_custom_LJ_closed.
  destruct (nonbonded_forces system) as [|[k nonbonded] rest] eqn:Hnb; [done|].
  rewrite bind_Ok, add_lambda_elec_closed.
  rewrite nonbonded_forces_custom, Hnb by apply custom_forces_are_not_nonbonded.
  destruct (valid_atoms nonbonded molecule); [|done].
  rewrite bind_Ok, create_custom_LJ_closed.
  rewrite (nonbonded_forces_insert _ _ _ _ _ Hnb).
  f_equal. symmetry.
  apply (insert_app_l (A := Force)).
  by eapply lookup_lt_Some, nonbonded_forces_lookup.
Qed.

(** ** The first sample of every state *)

Section First_sample.

Variable detectEquilibration : list R -> nat * Q * Q.
Variable statisticalInefficiency : list R -> Q.
Variable n_lambda total_iterations : nat.
Variable u_kln : matrix.

(** X25. Whatever number of burn-in samples [detectEquilibration]
    reports, the decorrelation cell retains the first sample of every
    state: when there is at least one production block, index 0 is the
    first retained index of each state k, N_k[k] is at least 1 and
    [u[k, l, 0]] keeps its value for every evaluation state l.
    (Statistical inefficiency at least 1, as the utility returns.) *)
Theorem first_sample_is_always_retained fuel :
  (forall k, k < n_lambda ->
     (1 <= (detectEquilibration
              (diagonal_series total_iterations u_kln k)).1.2)%Q) ->
  total_iterations < fuel ->
  0 < total_iterations ->
  exists N_k u',
    decorrelation_cell detectEquilibration statisticalInefficiency n_lambda
      total_iterations fuel u_kln
    = Some (Ok (N_k, u'))
    /\ forall k, k < n_lambda ->
       (exists indices : list Z,
          subsampleCorrelatedData statisticalInefficiency fuel
            (diagonal_series total_iterations u_kln k)
            (detectEquilibration (diagonal_series total_iterations u_kln k)).1.2
          = Some (Ok indices)
          /\ indices !! 0 = Some 0%Z)
       /\ 1 <= N_k k
       /\ forall l, l < n_lambda -> u' k l 0 = u_kln k l 0.
Proof.
  intros Hg Hfuel Hpos. unfold decorrelation_cell, range.
  destruct (decorrelate_states_run detectEquilibration statisticalInefficiency
              n_lambda total_iterations u_kln fuel n_lambda 0 (fun _ => 0) u_kln)
    as (N_k & u' & Hcell & _ & _ & Hrows); [done | intros; apply Hg; lia | done |].
  exists N_k, u'. split; [exact Hcell|].
  intros k Hk.
  destruct (Hrows k ltac:(lia)) as (indices & H1 & H2 & _ & _ & H5 & H6).
  specialize (H6 Hpos).
  split; [by exists indices|]. split.
  - rewrite H2. apply lookup_lt_Some in H6. lia.
  - intros l Hl. by destruct (H5 l 0 0%Z Hl H6) as [_ ->].
Qed.

End First_sample.

Lemma first_sample_is_always_retained_witness :
  let detectEquilibration := fun _ : list R => (3, 2%Q, 4%Q) in
  let statisticalInefficiency := fun _ : list R => 1%Q in
  let u_kln : matrix := fun k l n => INR (k + l + n) in
  exists N_k u',
    decorrelation_cell detectEquilibration statisticalInefficiency 2 8 9 u_kln
    = Some (Ok (N_k, u'))
    /\ forall k, k < 2 ->
       (exists indices : list Z,
          subsampleCorrelatedData statisticalInefficiency 9
            (diagonal_series 8 u_kln k)
            (detectEquilibration (diagonal_series 8 u_kln k)).1.2
          = Some (Ok indices)
          /\ indices !! 0 = Some 0%Z)
       /\ 1 <= N_k k
       /\ forall l, l < 2 -> u' k l 0 = u_kln k l 0.
Proof.
  intros detectEquilibration statisticalInefficiency u_kln.
  apply (first_sample_is_always_retained detectEquilibration
           statisticalInefficiency 2 8 u_kln 9).
  - intros k Hk. simpl. Lqa.lra.
  - lia.
  - lia.
Defined.
